(** * bufiog: a generic buffered reader (reader.go, writer.go)

    Shallow embedding of the Go package [bufiog] and the properties of its
    [Reader].  The Go [int] (64 bits) is a [Z] whose additions and
    subtractions wrap around; a slice is the list of its elements, and the
    places where the program keeps a pointer into a slice ([lastElem]) are
    kept as pointers, read when the program reads them. *)

From Stdlib Require Import ZArith Lia String.
From stdpp Require Import base option list strings.

Open Scope Z_scope.

(** ** Machine integers *)

Definition min_int : Z := - 2 ^ 63.
Definition max_int : Z := 2 ^ 63 - 1.

(** Two's complement wrap-around of a 64-bit signed integer. *)
Definition wrap (z : Z) : Z := (z + 2 ^ 63) mod 2 ^ 64 - 2 ^ 63.

(** [len(s)] *)
Definition len {A} (l : list A) : Z := Z.of_nat (length l).

(** ** Slices *)

(** [s[lo:hi]]; [None] is the run-time panic "slice bounds out of range". *)
Definition slice {A} (l : list A) (lo hi : Z) : option (list A) :=
  if decide (0 ≤ lo ∧ lo ≤ hi ∧ hi ≤ len l)
  then Some (take (Z.to_nat (hi - lo)) (drop (Z.to_nat lo) l))
  else None.

(** [s[i]]; [None] is the run-time panic "index out of range". *)
Definition index {A} (l : list A) (i : Z) : option A :=
  if decide (0 ≤ i) then l !! Z.to_nat i else None.

(** [s[i] = v] *)
Definition store {A} (l : list A) (i : Z) (v : A) : option (list A) :=
  if decide (0 ≤ i ∧ i < len l) then Some (<[Z.to_nat i := v]> l) else None.

(** What [dst] holds after [copy(dst, src)], and the count [copy] returns. *)
Definition overlay {A} (src dst : list A) : list A :=
  take (length dst) src ++ drop (length src) dst.

Definition copy_n {A} (dst src : list A) : Z := Z.min (len dst) (len src).

(** ** Errors and panics *)

Inductive error : Type :=
  | ErrInvalidUnreadElem
  | ErrBufferFull
  | ErrNegativeCount
  | EOF                       (* io.EOF *)
  | ErrNoProgress             (* io.ErrNoProgress *)
  | ErrOther (msg : string).  (* any other error value of a source or sink *)

#[global] Instance error_eq_dec : EqDecision error.
Proof. solve_decision. Defined.

Inductive panic : Type :=
  | errNegativeRead
  | errNegativeWrite
  | FillFullBuffer            (* "bufio: tried to fill full buffer" *)
  | OutOfRange                (* run-time: index or slice bounds out of range *)
  | NilDereference.           (* run-time: call through a nil interface *)

(** The result of running a piece of the program: it returns, it panics, or
    the fuel given to one of its unbounded loops ran out. *)
Inductive outcome (A : Type) : Type :=
  | Ret (a : A)
  | Panic (p : panic)
  | OutOfFuel.
Arguments Ret {A} a.
Arguments Panic {A} p.
Arguments OutOfFuel {A}.

#[global] Instance outcome_ret : MRet outcome := λ A a, Ret a.
#[global] Instance outcome_bind : MBind outcome := λ A B f m,
  match m with
  | Ret a => f a
  | Panic p => Panic p
  | OutOfFuel => OutOfFuel
  end.

(** A bounds-checked access: out of range is a panic. *)
Definition checked {A} (o : option A) : outcome A :=
  match o with Some a => Ret a | None => Panic OutOfRange end.

(** ** Constants *)

Definition defaultBufSize : Z := 64.
Definition maxConsecutiveEmptyReads : nat := 100.
Definition minReadBufferSize : Z := 16.

(** ** Interfaces *)

(** What one call [Read(p)] of a source does: the count and error it returns
    and the elements it wrote to the front of [p]. *)
Record ReadResult (T : Type) : Type := mkReadResult {
  rr_n : Z;
  rr_err : option error;
  rr_data : list T;
}.
Arguments mkReadResult {T} _ _ _.
Arguments rr_n {T} _.
Arguments rr_err {T} _.
Arguments rr_data {T} _.

(** Addresses of [Reader] objects and of the slices the caller owns. *)
Definition ptr : Type := nat.
Definition addr : Type := nat.

(** [ReadInterface[T]]: [Src] is the type of the states of the source
    objects.  [rd_asReader] is the type assertion of [NewReaderSize] and the
    comparison of [Reset]: the address of the source when it is a [Reader]. *)
Class ReadInterface (T Src : Type) : Type := {
  rd_Read : Src → list T → ReadResult T * Src;
  rd_asReader : Src → option ptr;
}.

(** [WriteInterface[T]]: the sink reads the slice it is given. *)
Class WriteInterface (T Snk : Type) : Type := {
  w_Write : Snk → list T → (Z * option error) * Snk;
}.

(** The type assertions [rd.(WriteToInterface[T])] and
    [w.(ReadFromInterface[T])]: when they succeed, the method found. *)
Class WriteToInterface (T Src Snk : Type) : Type := {
  rd_asWriteTo : Src → option (Snk → (Z * option error) * Src * Snk);
}.

Class ReadFromInterface (T Src Snk : Type) : Type := {
  w_asReadFrom : Snk → option (option Src → (Z * option error) * option Src * Snk);
}.

(** [lastElem *T]: where the pointer points. *)
Inductive elemPtr (T : Type) : Type :=
  | InBuf (i : Z)                (* &b.buf[i] *)
  | InDest (a : addr) (i : Z)    (* &p[i], p a slice of the caller *)
  | Local (c : T).               (* &c, c a variable of ReadElem *)
Arguments InBuf {T} i.
Arguments InDest {T} a i.
Arguments Local {T} c.

Section Reader.
Context {T Src : Type} `{!ReadInterface T Src}.
Variable zero : T.   (* the zero value of T *)

(** [Reader[T]].  The nil slice is the empty list; a non-nil [buf] is never
    empty ([make] is called with a size of 16 or more). *)
Record Reader : Type := mkReader {
  buf : list T;
  rd : option Src;               (* None is the nil interface *)
  r : Z;
  w : Z;
  err : option error;
  lastElem : option (elemPtr T);
}.

Definition set_err (e : option error) (b : Reader) : Reader :=
  mkReader (buf b) (rd b) (r b) (w b) e (lastElem b).
Definition set_r (v : Z) (b : Reader) : Reader :=
  mkReader (buf b) (rd b) v (w b) (err b) (lastElem b).
Definition set_w (v : Z) (b : Reader) : Reader :=
  mkReader (buf b) (rd b) (r b) v (err b) (lastElem b).
Definition set_lastElem (l : option (elemPtr T)) (b : Reader) : Reader :=
  mkReader (buf b) (rd b) (r b) (w b) (err b) l.

(** The memory of the caller: the slices it passes to [Read]. *)
Definition mem : Type := list (list T).

Definition load (m : mem) (a : addr) : list T := default [] (m !! a).

(** [n, err := rd.Read(p)]: the count read as an [int], and [p] afterwards. *)
Definition callRead (src : option Src) (p : list T)
  : outcome (Z * option error * list T * option Src) :=
  match src with
  | None => Panic NilDereference
  | Some s =>
      let '(res, s') := rd_Read s p in
      Ret (wrap (rr_n res), rr_err res, overlay (rr_data res) p, Some s')
  end.

Definition Buffered (b : Reader) : Z := wrap (w b - r b).

Definition Size (b : Reader) : Z := len (buf b).

Definition readErr (b : Reader) : option error * Reader :=
  (err b, set_err None b).

Definition reset (bf : list T) (src : option Src) : Reader :=
  mkReader bf src 0 0 None None.

(** The first statement of [fill]: slide existing data to the beginning. *)
Definition slide (b : Reader) : outcome Reader :=
  if decide (r b > 0) then
    s ← checked (slice (buf b) (r b) (w b));
    Ret (mkReader (overlay s (buf b)) (rd b) 0 (wrap (w b - r b))
                  (err b) (lastElem b))
  else Ret b.

(** The loop of [fill], [i] attempts left. *)
Fixpoint fill_loop (i : nat) (b : Reader) : outcome Reader :=
  match i with
  | O => Ret (set_err (Some ErrNoProgress) b)
  | S i' =>
      p ← checked (slice (buf b) (w b) (len (buf b)));
      '(n, e, p', s') ← callRead (rd b) p;
      if decide (n < 0) then Panic errNegativeRead else
      let b' := mkReader (take (Z.to_nat (w b)) (buf b) ++ p') s' (r b)
                         (wrap (w b + n)) (err b) (lastElem b) in
      match e with
      | Some _ => Ret (set_err e b')
      | None => if decide (n > 0) then Ret b' else fill_loop i' b'
      end
  end.

#[global] Arguments fill_loop : simpl never.

Definition fill (b : Reader) : outcome Reader :=
  b1 ← slide b;
  if decide (w b1 >= len (buf b1)) then Panic FillFullBuffer
  else fill_loop maxConsecutiveEmptyReads b1.

(** The loop of [Discard]: [remain] elements are still to be skipped. *)
Fixpoint Discard_loop (fuel : nat) (n remain : Z) (b : Reader)
  : outcome ((Z * option error) * Reader) :=
  match fuel with
  | O => OutOfFuel
  | S fuel' =>
      b1 ← (if decide (Buffered b = 0) then fill b else Ret b);
      let skip := Buffered b1 in
      let skip := if decide (skip > remain) then remain else skip in
      let b2 := set_r (wrap (r b1 + skip)) b1 in
      let remain' := wrap (remain - skip) in
      if decide (remain' = 0) then Ret ((n, None), b2)
      else match err b2 with
           | Some _ =>
               let '(e, b3) := readErr b2 in Ret ((wrap (n - remain'), e), b3)
           | None => Discard_loop fuel' n remain' b2
           end
  end.

Definition Discard (fuel : nat) (n : Z) (b : Reader)
  : outcome ((Z * option error) * Reader) :=
  if decide (n < 0) then Ret ((0, Some ErrNegativeCount), b)
  else if decide (n = 0) then Ret ((0, None), b)
  else Discard_loop fuel n n (set_lastElem None b).

(** The loop of [Peek]. *)
Fixpoint Peek_loop (fuel : nat) (n : Z) (b : Reader) : outcome Reader :=
  if decide (wrap (w b - r b) < n ∧ wrap (w b - r b) < len (buf b)
             ∧ err b = None)
  then match fuel with
       | O => OutOfFuel
       | S fuel' => b1 ← fill b; Peek_loop fuel' n b1
       end
  else Ret b.

(** [Peek] returns a slice of the buffer: here, the elements it holds when
    [Peek] returns. *)
Definition Peek (fuel : nat) (n : Z) (b : Reader)
  : outcome ((list T * option error) * Reader) :=
  if decide (n < 0) then Ret (([], Some ErrNegativeCount), b) else
  b1 ← Peek_loop fuel n (set_lastElem None b);
  if decide (n > len (buf b1)) then
    s ← checked (slice (buf b1) (r b1) (w b1));
    Ret ((s, Some ErrBufferFull), b1)
  else
    let avail := wrap (w b1 - r b1) in
    if decide (avail < n) then
      let '(e, b2) := readErr b1 in
      let e' := match e with None => Some ErrBufferFull | Some _ => e end in
      s ← checked (slice (buf b2) (r b2) (wrap (r b2 + avail)));
      Ret ((s, e'), b2)
    else
      s ← checked (slice (buf b1) (r b1) (wrap (r b1 + n)));
      Ret ((s, None), b1).

(** The end of [Read]: copy as much as we can.  [lastElem] is the address
    of the buffer slot copied last. *)
Definition Read_copy (p : addr) (b : Reader) (m : mem)
  : outcome ((Z * option error) * Reader * mem) :=
  let pc := load m p in
  s ← checked (slice (buf b) (r b) (w b));
  let n := copy_n pc s in
  let b1 := set_r (wrap (r b + n)) b in
  _ ← checked (index (buf b1) (wrap (r b1 - 1)));
  Ret ((n, None), set_lastElem (Some (InBuf (wrap (r b1 - 1)))) b1,
       <[p := overlay s pc]> m).

(** [Read(p)], [p] the address of a slice of the caller.  On the direct
    path [lastElem] is the address of the last element written to [p]. *)
Definition Read (p : addr) (b : Reader) (m : mem)
  : outcome ((Z * option error) * Reader * mem) :=
  let pc := load m p in
  if decide (len pc = 0) then
    if decide (Buffered b > 0) then Ret ((0, None), b, m)
    else let '(e, b1) := readErr b in Ret ((0, e), b1, m)
  else if decide (r b = w b) then
    match err b with
    | Some _ => let '(e, b1) := readErr b in Ret ((0, e), b1, m)
    | None =>
        if decide (len pc >= len (buf b)) then
          '(n, e, pc', s') ← callRead (rd b) pc;
          if decide (n < 0) then Panic errNegativeRead else
          let b1 := mkReader (buf b) s' (r b) (w b) e (lastElem b) in
          b2 ← (if decide (n > 0) then
                  _ ← checked (index pc' (wrap (n - 1)));
                  Ret (set_lastElem (Some (InDest p (wrap (n - 1)))) b1)
                else Ret b1);
          let '(e', b3) := readErr b2 in
          Ret ((n, e'), b3, <[p := pc']> m)
        else
          '(n, e, bf', s') ← callRead (rd b) (buf b);
          if decide (n < 0) then Panic errNegativeRead else
          let b1 := mkReader bf' s' 0 0 e (lastElem b) in
          if decide (n = 0) then
            let '(e', b2) := readErr b1 in Ret ((0, e'), b2, m)
          else Read_copy p (set_w (wrap (0 + n)) b1) m
    end
  else Read_copy p b m.

(** [ReadElem]: [lastElem] is the address of the local copy [c]. *)
Fixpoint ReadElem (fuel : nat) (b : Reader)
  : outcome ((T * option error) * Reader) :=
  if decide (r b = w b) then
    match err b with
    | Some _ => let '(e, b1) := readErr b in Ret ((zero, e), b1)
    | None =>
        match fuel with
        | O => OutOfFuel
        | S fuel' => b1 ← fill b; ReadElem fuel' b1
        end
    end
  else
    c ← checked (index (buf b) (r b));
    Ret ((c, None), set_lastElem (Some (Local c)) (set_r (wrap (r b + 1)) b)).

(** [b.Reset(src)], [self] the address of [b]. *)
Definition Reset (self : ptr) (b : Reader) (src : option Src) : Reader :=
  if decide (src ≫= rd_asReader = Some self) then b
  else
    let bf := match buf b with
              | [] => replicate (Z.to_nat defaultBufSize) zero
              | _ :: _ => buf b
              end in
    reset bf src.

(** [*b.lastElem] *)
Definition deref (b : Reader) (m : mem) (q : elemPtr T) : option T :=
  match q with
  | InBuf i => index (buf b) i
  | InDest a i => index (load m a) i
  | Local c => Some c
  end.

Definition UnreadElem (b : Reader) (m : mem)
  : outcome (option error * Reader) :=
  match lastElem b with
  | None => Ret (Some ErrInvalidUnreadElem, b)
  | Some q =>
      if decide (r b = 0 ∧ w b > 0) then Ret (Some ErrInvalidUnreadElem, b)
      else
        let b1 := if decide (r b > 0) then set_r (wrap (r b - 1)) b
                  else set_w 1 b in
        v ← checked (deref b1 m q);
        bf ← checked (store (buf b1) (r b1) v);
        Ret (None, mkReader bf (rd b1) (r b1) (w b1) (err b1) None)
  end.

(** The objects of type [Reader] that exist, by address. *)
Definition heap : Type := list Reader.

(** [NewReaderSize]: [new] takes the next free address, and [make] is taken
    to succeed.  A source whose dynamic type is a pointer to [Reader] but
    that points to no reader is the nil pointer. *)
Definition NewReaderSize (h : heap) (src : option Src) (size : Z)
  : outcome (ptr * heap) :=
  let fresh :=
    let size := if decide (size < minReadBufferSize)
                then minReadBufferSize else size in
    Ret (length h, h ++ [reset (replicate (Z.to_nat size) zero) src]) in
  match src ≫= rd_asReader with
  | Some q =>
      match h !! q with
      | None => Panic NilDereference
      | Some b => if decide (len (buf b) >= size) then Ret (q, h) else fresh
      end
  | None => fresh
  end.

Definition NewReader (h : heap) (src : option Src) : outcome (ptr * heap) :=
  NewReaderSize h src defaultBufSize.

Section Writer.
Context {Snk : Type} `{!WriteInterface T Snk}
        `{!WriteToInterface T Src Snk} `{!ReadFromInterface T Src Snk}.

(** [writeBuf]: the count is read as an [int] and returned as an [int64]. *)
Definition writeBuf (b : Reader) (k : Snk)
  : outcome ((Z * option error) * Reader * Snk) :=
  s ← checked (slice (buf b) (r b) (w b));
  let '((n, e), k') := w_Write k s in
  let n := wrap n in
  if decide (n < 0) then Panic errNegativeWrite
  else Ret ((n, e), set_r (wrap (r b + n)) b, k').

(** The loop of [WriteTo] and what follows it; [n] is the count so far. *)
Fixpoint WriteTo_loop (fuel : nat) (n : Z) (b : Reader) (k : Snk)
  : outcome ((Z * option error) * Reader * Snk) :=
  if decide (r b < w b) then
    match fuel with
    | O => OutOfFuel
    | S fuel' =>
        '((m, e), b1, k1) ← writeBuf b k;
        let n := wrap (n + m) in
        match e with
        | Some _ => Ret ((n, e), b1, k1)
        | None => b2 ← fill b1; WriteTo_loop fuel' n b2 k1
        end
    end
  else
    let b1 := if decide (err b = Some EOF) then set_err None b else b in
    let '(e, b2) := readErr b1 in
    Ret ((n, e), b2, k).

Definition WriteTo (fuel : nat) (b : Reader) (k : Snk)
  : outcome ((Z * option error) * Reader * Snk) :=
  let b := set_lastElem None b in
  '((n, e), b1, k1) ← writeBuf b k;
  match e with
  | Some _ => Ret ((n, e), b1, k1)
  | None =>
      match rd b1 ≫= rd_asWriteTo with
      | Some wt =>
          let '((m, e), s', k2) := wt k1 in
          Ret ((wrap (n + m), e),
               mkReader (buf b1) (Some s') (r b1) (w b1) (err b1) (lastElem b1),
               k2)
      | None =>
          match w_asReadFrom k1 with
          | Some rf =>
              let '((m, e), s', k2) := rf (rd b1) in
              Ret ((wrap (n + m), e),
                   mkReader (buf b1) s' (r b1) (w b1) (err b1) (lastElem b1),
                   k2)
          | None =>
              b2 ← (if decide (wrap (w b1 - r b1) < len (buf b1))
                    then fill b1 else Ret b1);
              WriteTo_loop fuel n b2 k1
          end
      end
  end.

End Writer.

End Reader.

Arguments Reader T Src : clear implicits.
Arguments heap T Src : clear implicits.
Arguments mem T : clear implicits.

(** ** Sources and sinks to run the program on *)

(** A source that plays a script: each call returns the next entry, whatever
    the slice it is given; after the script, end of stream. *)
Definition script (T : Type) : Type := list (ReadResult T).

#[global] Instance script_ReadInterface {T} : ReadInterface T (script T) := {|
  rd_Read s p :=
    match s with
    | [] => (mkReadResult 0 (Some EOF) [], [])
    | x :: s' => (x, s')
    end;
  rd_asReader _ := None;
|}.

(** A source that delivers the elements of its chunks, as many of the first
    chunk as fit in the slice, and then fails with [final] on every call.
    When [eager] is set the error comes with the last elements. *)
Record chunks (T : Type) : Type := mkChunks {
  pending : list (list T);
  final : error;
  eager : bool;
}.
Arguments mkChunks {T} _ _ _.
Arguments pending {T} _.
Arguments final {T} _.
Arguments eager {T} _.

Definition chunks_Read {T} (s : chunks T) (p : list T)
  : ReadResult T * chunks T :=
  match pending s with
  | [] => (mkReadResult 0 (Some (final s)) [], s)
  | c :: cs =>
      let k := Nat.min (length p) (length c) in
      let rest := match drop k c with [] => cs | c' => c' :: cs end in
      (mkReadResult (Z.of_nat k)
         (match rest with
          | [] => if eager s then Some (final s) else None
          | _ :: _ => None
          end)
         (take k c),
       mkChunks rest (final s) (eager s))
  end.

#[global] Instance chunks_ReadInterface {T} : ReadInterface T (chunks T) := {|
  rd_Read := chunks_Read;
  rd_asReader _ := None;
|}.

(** Any source with a counter of the calls of its [Read]. *)
#[global] Instance counted_ReadInterface {T Src} `{!ReadInterface T Src}
  : ReadInterface T (Src * nat) := {|
  rd_Read s p := let '(res, s') := rd_Read s.1 p in (res, (s', S s.2));
  rd_asReader s := rd_asReader s.1;
|}.

(** A source that is itself a [Reader], the object at address [rs_addr];
    what its [Read] returns is given by a script. *)
Record readerSource (T : Type) : Type := mkReaderSource {
  rs_addr : ptr;
  rs_script : script T;
}.
Arguments mkReaderSource {T} _ _.
Arguments rs_addr {T} _.
Arguments rs_script {T} _.

#[global] Instance readerSource_ReadInterface {T}
  : ReadInterface T (readerSource T) := {|
  rd_Read s p :=
    let '(res, s') := rd_Read (rs_script s) p in
    (res, mkReaderSource (rs_addr s) s');
  rd_asReader s := Some (rs_addr s);
|}.

(** A sink that takes everything: its state is what it was given so far. *)
#[global] Instance list_WriteInterface {T} : WriteInterface T (list T) := {|
  w_Write k s := ((len s, None), k ++ s);
|}.

(** Sources and sinks without the optional bulk transfer methods. *)
Definition no_WriteTo {T Src Snk} : WriteToInterface T Src Snk :=
  {| rd_asWriteTo _ := None |}.
Definition no_ReadFrom {T Src Snk} : ReadFromInterface T Src Snk :=
  {| w_asReadFrom _ := None |}.

(** ** What the properties are stated with *)

(** The range of [int]. *)
Definition is_int (z : Z) : Prop := min_int ≤ z ≤ max_int.

Inductive op (Src Snk : Type) : Type :=
  | OpRead (p : addr)
  | OpReadElem
  | OpPeek (n : Z)
  | OpDiscard (n : Z)
  | OpUnreadElem
  | OpWriteTo (k : Snk)
  | OpReset (src : option Src)
  | OpBuffered
  | OpSize.
Arguments OpRead {Src Snk} p.
Arguments OpReadElem {Src Snk}.
Arguments OpPeek {Src Snk} n.
Arguments OpDiscard {Src Snk} n.
Arguments OpUnreadElem {Src Snk}.
Arguments OpWriteTo {Src Snk} k.
Arguments OpReset {Src Snk} src.
Arguments OpBuffered {Src Snk}.
Arguments OpSize {Src Snk}.

(** The [int] arguments of an operation are in the range of [int]. *)
Definition op_int {Src Snk} (o : op Src Snk) : Prop :=
  match o with
  | OpPeek n | OpDiscard n => is_int n
  | _ => True
  end.

Section Specification.
Context {T Src Snk : Type} `{!ReadInterface T Src} `{!WriteInterface T Snk}
        `{!WriteToInterface T Src Snk} `{!ReadFromInterface T Src Snk}.
Variable zero : T.
Implicit Types (b : Reader T Src) (m : mem T).

(** [0 <= r <= w <= capacity] *)
Definition inv b : Prop := 0 ≤ r b ∧ r b ≤ w b ∧ w b ≤ Size b.

(** The invariant, for a buffer that Go can hold. *)
Definition wf b : Prop := inv b ∧ Size b ≤ max_int.

(** The source returns counts between 0 and the length of its slice. *)
Definition src_ok : Prop :=
  ∀ (s : Src) (p : list T), 0 ≤ rr_n (rd_Read s p).1 ≤ len p.

(** The sink returns counts between 0 and the length of its slice. *)
Definition snk_ok : Prop :=
  ∀ (k : Snk) (s : list T), 0 ≤ (w_Write k s).1.1 ≤ len s.

(** One attempt of the loop of [fill], for a count within bounds. *)
Definition attempt b (s : Src) : Reader T Src :=
  let p := drop (Z.to_nat (w b)) (buf b) in
  let res := (rd_Read s p).1 in
  mkReader (take (Z.to_nat (w b)) (buf b) ++ overlay (rr_data res) p)
           (Some (rd_Read s p).2) (r b) (w b + rr_n res) (err b) (lastElem b).

(** [stalls k s s']: the next [k] calls of the source in state [s] return
    [(0, nil)], whatever the slice, and leave it in state [s']. *)
Inductive stalls : nat → Src → Src → Prop :=
  | stalls_O s : stalls 0 s s
  | stalls_S k s s' :
      (∀ p : list T, rr_n (rd_Read s p).1 = 0 ∧ rr_err (rd_Read s p).1 = None) →
      (∀ p : list T, stalls k (rd_Read s p).2 s') →
      stalls (S k) s s'.

(** The reader after a successful [UnreadElem] that restores [v]: [r] is
    decremented when [r > 0], else [w] is set to 1 and slot 0 is written;
    [lastElem] is cleared. *)
Definition unread (v : T) b : Reader T Src :=
  if decide (r b > 0)
  then mkReader (<[Z.to_nat (r b - 1) := v]> (buf b)) (rd b) (r b - 1) (w b)
                (err b) None
  else mkReader (<[0%nat := v]> (buf b)) (rd b) 0 1 (err b) None.

(** One call of a public operation on the reader at address [self], the
    memory of the caller being [m]: the reader and the memory afterwards. *)
Definition run (self : ptr) (fuel : nat) (o : op Src Snk) b m
  : outcome (Reader T Src * mem T) :=
  match o with
  | OpRead p => '(_, b', m') ← Read p b m; Ret (b', m')
  | OpReadElem => '(_, b') ← ReadElem zero fuel b; Ret (b', m)
  | OpPeek n => '(_, b') ← Peek fuel n b; Ret (b', m)
  | OpDiscard n => '(_, b') ← Discard fuel n b; Ret (b', m)
  | OpUnreadElem => '(_, b') ← UnreadElem b m; Ret (b', m)
  | OpWriteTo k => '(_, b', _) ← WriteTo fuel b k; Ret (b', m)
  | OpReset src => Ret (Reset zero self b src, m)
  | OpBuffered => let _ := Buffered b in Ret (b, m)
  | OpSize => let _ := Size b in Ret (b, m)
  end.

(** The states of a reader made by [NewReaderSize] (no reader existed
    before) and then used through its public operations; between two calls
    the caller does what it wants with its memory. *)
Inductive reachable (self : ptr) : Reader T Src → Prop :=
  | reach_new src size h b :
      is_int size →
      NewReaderSize zero [] src size = Ret (self, h) →
      h !! self = Some b →
      reachable self b
  | reach_step fuel o b m b' m' :
      reachable self b → op_int o →
      run self fuel o b m = Ret (b', m') →
      reachable self b'.

(** The valid region [buf[r:w]], the elements read but not yet returned. *)
Definition region b : list T :=
  take (Z.to_nat (w b - r b)) (drop (Z.to_nat (r b)) (buf b)).

(** A caller that calls [ReadElem] [n] times and keeps the elements, until
    the first error. *)
Fixpoint read_elems (fuel : nat) (n : nat) b
  : outcome (list T * option error * Reader T Src) :=
  match n with
  | O => Ret ([], None, b)
  | S n' =>
      '((x, e), b1) ← ReadElem zero fuel b;
      match e with
      | Some _ => Ret ([], e, b1)
      | None =>
          '(xs, e', b2) ← read_elems fuel n' b1;
          Ret (x :: xs, e', b2)
      end
  end.

End Specification.

(** What a reader on a chunk source still has to return: the valid region,
    then what the source has not delivered. *)
Definition stream {T} (b : Reader T (chunks T)) : list T :=
  region b ++ match rd b with
              | Some s => concat (pending s)
              | None => []
              end.

(** A reader on the chunk source [s] (no empty chunk) in a state it can reach:
    the cursor invariant holds, the buffer is not nil, and an error is pending
    only once the source has delivered everything. *)
Definition chunk_ok {T} (b : Reader T (chunks T)) (s : chunks T) : Prop :=
  wf b ∧ 0 < Size b ∧ rd b = Some s
  ∧ Forall (λ c, c ≠ []) (pending s)
  ∧ (err b = None ∨ (err b = Some (final s) ∧ pending s = [])).

(** The number of calls the counted source of [b] has seen. *)
Definition calls {T Src} (b : Reader T (Src * nat)) : nat :=
  match rd b with Some (_, c) => c | None => 0%nat end.


(** The script of C1: 100 empty answers, then end of stream. *)
Definition stall_script : script Z :=
  replicate 100 (mkReadResult 0 None []) ++ [mkReadResult 0 (Some EOF) []].

(** A reader of capacity 16 on the chunks [1 2 3], after one [ReadElem]. *)
Definition read_one : Reader Z (chunks Z) :=
  mkReader (1 :: 2 :: 3 :: replicate 13 0)
           (Some (mkChunks [] EOF false)) 1 3 None (Some (Local 1)).

Definition counted_reader : Reader Z (chunks Z * nat) :=
  reset (replicate 16 0) (Some (mkChunks [[1; 2; 3]] EOF false, 0%nat)).

Definition counted_reader_read : Reader Z (chunks Z * nat) :=
  mkReader (1 :: 2 :: 3 :: replicate 13 0)
           (Some (mkChunks [] EOF false, 1%nat)) 2 3 None (Some (InBuf 1)).

(** A reader with an empty buffer and a pending end of stream, on a source
    that now delivers [1 2 3] together with an error. *)
Definition pending_reader : Reader Z (chunks Z * nat) :=
  mkReader (replicate 16 0)
           (Some (mkChunks [[1; 2; 3]] (ErrOther "boom") true, 0%nat))
           0 0 (Some EOF) None.

(** The readers that exist: one, of capacity 64, at address 0. *)
Definition heap64 : heap Z (readerSource Z) :=
  [reset (replicate 64 0) None].

(** [read_one] after a [fill]: the region [2 3] has moved to the front and
    the source has reported the end of the stream. *)
Definition read_one_filled : Reader Z (chunks Z) :=
  mkReader (2 :: 3 :: 3 :: replicate 13 0)
           (Some (mkChunks [] EOF false)) 0 2 (Some EOF) (Some (Local 1)).

(** A new reader of capacity 16 on the chunks [1 2 3] and [4]. *)
Definition chunk_source : chunks Z := mkChunks [[1; 2; 3]; [4]] EOF false.

Definition chunk_reader : Reader Z (chunks Z) :=
  reset (replicate 16 0) (Some chunk_source).


(** A chunk source that has a [WriteTo] method of its own: it hands all its
    elements to the sink in one go. *)
Definition chunks_WriteTo {T} : WriteToInterface T (chunks T) (list T) :=
  {| rd_asWriteTo s :=
       Some (λ k, ((len (concat (pending s)), None),
                   mkChunks [] (final s) (eager s),
                   k ++ concat (pending s))) |}.

(** A new reader of capacity 16 on a source that returns a negative count. *)
Definition negative_source : script Z := [mkReadResult (-1) None []].

Definition negative_reader : Reader Z (script Z) :=
  reset (replicate 16 0) (Some negative_source).

(** ** Arithmetic and slices *)

Lemma wrap_small z : min_int ≤ z ≤ max_int → wrap z = z.
Proof.
  unfold min_int, max_int, wrap. intros Hz.
  rewrite Z.mod_small by lia. lia.
Qed.

Lemma wrap_range z : min_int ≤ wrap z ≤ max_int.
Proof.
  unfold min_int, max_int, wrap.
  pose proof (Z.mod_pos_bound (z + 2 ^ 63) (2 ^ 64)). lia.
Qed.

Lemma max_int_pos : 0 < max_int.
Proof. reflexivity. Qed.

Lemma min_int_neg : min_int < 0.
Proof. reflexivity. Qed.

Lemma len_nonneg {A} (l : list A) : 0 ≤ len l.
Proof. unfold len. lia. Qed.

Lemma len_app {A} (l1 l2 : list A) : len (l1 ++ l2) = len l1 + len l2.
Proof. unfold len. rewrite length_app. lia. Qed.

Lemma len_take {A} (l : list A) (n : Z) :
  0 ≤ n ≤ len l → len (take (Z.to_nat n) l) = n.
Proof. unfold len. intros. rewrite length_take. lia. Qed.

Lemma len_drop {A} (l : list A) (n : Z) :
  0 ≤ n ≤ len l → len (drop (Z.to_nat n) l) = len l - n.
Proof. unfold len. intros. rewrite length_drop. lia. Qed.

Lemma length_overlay {A} (src dst : list A) :
  length (overlay src dst) = length dst.
Proof. unfold overlay. rewrite length_app, length_take, length_drop. lia. Qed.

Lemma len_overlay {A} (src dst : list A) : len (overlay src dst) = len dst.
Proof. unfold len. by rewrite length_overlay. Qed.

Lemma overlay_nil {A} (dst : list A) : overlay [] dst = dst.
Proof. unfold overlay. by rewrite take_nil, drop_0. Qed.

Lemma slice_Some {A} (l : list A) (lo hi : Z) :
  0 ≤ lo → lo ≤ hi → hi ≤ len l →
  slice l lo hi = Some (take (Z.to_nat (hi - lo)) (drop (Z.to_nat lo) l)).
Proof. intros. unfold slice. by rewrite decide_True. Qed.

Lemma slice_len {A} (l s : list A) (lo hi : Z) :
  slice l lo hi = Some s → 0 ≤ lo ∧ lo ≤ hi ∧ hi ≤ len l ∧ len s = hi - lo.
Proof.
  unfold slice. case_decide; [|done]. intros [= <-].
  unfold len in *. rewrite length_take, length_drop. lia.
Qed.

Lemma slice_to_end {A} (l : list A) (lo : Z) :
  0 ≤ lo → lo ≤ len l → slice l lo (len l) = Some (drop (Z.to_nat lo) l).
Proof.
  intros. rewrite slice_Some by lia. f_equal.
  apply take_ge. unfold len in *. rewrite length_drop. lia.
Qed.

Lemma slice_empty {A} (l : list A) (lo : Z) :
  0 ≤ lo → lo ≤ len l → slice l lo lo = Some [].
Proof. intros. rewrite slice_Some by lia. by rewrite Z.sub_diag. Qed.

Lemma outcome_bind_Ret {A B} (f : A → outcome B) (m : outcome A) (y : B) :
  m ≫= f = Ret y → ∃ x, m = Ret x ∧ f x = Ret y.
Proof. destruct m; simpl; [eauto | done | done]. Qed.

Lemma checked_Ret {A} (o : option A) (x : A) : checked o = Ret x → o = Some x.
Proof. destruct o; simpl; congruence. Qed.

Lemma Ret_inj {A} (x y : A) : Ret x = Ret y → x = y.
Proof. congruence. Qed.

(** Take apart a hypothesis [H : e = Ret x], [e] a piece of the program. *)
Ltac ret_step H :=
  cbv beta zeta in H;
  match type of H with
  | Ret _ = Ret _ => apply Ret_inj in H
  | Panic _ = Ret _ => discriminate H
  | OutOfFuel = Ret _ => discriminate H
  | mbind _ _ = Ret _ =>
      let x := fresh "x" in let Hx := fresh "Hx" in
      apply outcome_bind_Ret in H as (x & Hx & H)
  | checked _ = Ret _ => apply checked_Ret in H
  | (if decide ?P then _ else _) = Ret _ => destruct (decide P)
  | (let '(_, _) := ?p in _) = Ret _ => destruct p eqn:?
  | match ?o with Some _ => _ | None => _ end = Ret _ => destruct o eqn:?
  end.

Ltac ret_all H := repeat ret_step H.

(** The bounds that a successful slice expression gives. *)
Ltac bounds :=
  repeat match goal with
  | H : checked _ = Ret _ |- _ => apply checked_Ret in H
  | H : slice _ _ _ = Some _ |- _ =>
      apply slice_len in H as (? & ? & ? & ?)
  | H : store _ _ _ = Some _ |- _ =>
      unfold store in H; case_decide; [|discriminate H]; injection H as H
  end.

(** ** The cursor invariant and what [fill] does *)

Section Properties.
Context {T Src : Type} `{!ReadInterface T Src}.
Variable zero : T.
Implicit Types (b : Reader T Src) (m : mem T).

Lemma callRead_Ret src p n e p' src' :
  callRead src p = Ret (n, e, p', src') →
  ∃ s, src = Some s ∧ n = wrap (rr_n (rd_Read s p).1)
       ∧ e = rr_err (rd_Read s p).1 ∧ src' = Some (rd_Read s p).2
       ∧ p' = overlay (rr_data (rd_Read s p).1) p ∧ len p' = len p.
Proof.
  unfold callRead. destruct src as [s|]; [|done].
  destruct (rd_Read s p) as [res s'] eqn:E. intros [= <- <- <- <-].
  exists s. rewrite E. simpl. by rewrite len_overlay.
Qed.

Lemma slide_Ret b b1 :
  slide b = Ret b1 → wf b →
  r b1 = 0 ∧ w b1 = w b - r b ∧ len (buf b1) = len (buf b)
  ∧ rd b1 = rd b ∧ err b1 = err b ∧ lastElem b1 = lastElem b.
Proof.
  unfold slide, wf, inv, Size. intros H [(? & ? & ?) ?].
  pose proof max_int_pos. pose proof min_int_neg.
  destruct (decide (r b > 0)).
  - repeat ret_step H. subst b1. simpl.
    rewrite len_overlay, wrap_small by lia. done.
  - ret_step H. subst b1. repeat split; lia.
Qed.

Lemma slide_total b : wf b → ∃ b1, slide b = Ret b1.
Proof.
  unfold slide, wf, inv, Size. intros [(? & ? & ?) ?].
  destruct (decide (r b > 0)); [|eauto].
  rewrite slice_Some by lia. simpl. eauto.
Qed.

Lemma fill_loop_eq i b :
  fill_loop i b =
    match i with
    | O => Ret (set_err (Some ErrNoProgress) b)
    | S i' =>
        p ← checked (slice (buf b) (w b) (len (buf b)));
        '(n, e, p', s') ← callRead (rd b) p;
        if decide (n < 0) then Panic errNegativeRead else
        let b' := mkReader (take (Z.to_nat (w b)) (buf b) ++ p') s' (r b)
                           (wrap (w b + n)) (err b) (lastElem b) in
        match e with
        | Some _ => Ret (set_err e b')
        | None => if decide (n > 0) then Ret b' else fill_loop i' b'
        end
    end.
Proof. by destruct i. Qed.

Lemma fill_loop_Ret i b b' :
  src_ok → fill_loop i b = Ret b' → wf b →
  wf b' ∧ r b' = r b ∧ w b ≤ w b' ∧ len (buf b') = len (buf b)
  ∧ lastElem b' = lastElem b ∧ (is_Some (err b') ∨ w b < w b').
Proof.
  intros Hsrc. revert b. induction i as [|i IH]; intros b H Hwf;
    rewrite fill_loop_eq in H.
  - ret_step H. subst b'. simpl.
    repeat split; try apply Hwf; eauto || lia.
  - destruct Hwf as [(? & ? & ?) ?]. unfold Size in *.
    pose proof max_int_pos. pose proof min_int_neg.
    ret_step H. ret_step Hx.
    rewrite slice_to_end in Hx by lia. injection Hx as <-.
    ret_step H. destruct x as [[[n e] p'] s'].
    apply callRead_Ret in Hx as (s & Hs & -> & -> & -> & _ & Hlen).
    rewrite len_drop in Hlen by lia.
    pose proof (Hsrc s (drop (Z.to_nat (w b)) (buf b))) as Hn.
    rewrite len_drop in Hn by lia.
    rewrite wrap_small in H by lia.
    ret_step H; [done|].
    assert (Hbuf : len (take (Z.to_nat (w b)) (buf b) ++ p') = len (buf b)).
    { rewrite len_app, len_take by lia. lia. }
    destruct (rr_err _) eqn:He.
    + ret_step H. subst b'. unfold wf, inv, Size. simpl.
      rewrite Hbuf, wrap_small by lia. repeat split; eauto || lia.
    + ret_step H.
      * ret_step H. subst b'. unfold wf, inv, Size. simpl.
        rewrite Hbuf, wrap_small by lia. repeat split; lia.
      * apply IH in H.
        -- simpl in H. rewrite Hbuf, wrap_small in H by lia.
           destruct H as (? & ? & ? & ? & ? & [?|?]);
             (split; [done|]);
             repeat split; first [done | lia | by left | right; lia].
        -- unfold wf, inv, Size. simpl.
           rewrite Hbuf, wrap_small by lia. lia.
Qed.

Lemma fill_Ret b b' :
  src_ok → fill b = Ret b' → wf b →
  wf b' ∧ r b' = 0 ∧ w b - r b ≤ w b' ∧ len (buf b') = len (buf b)
  ∧ lastElem b' = lastElem b ∧ (is_Some (err b') ∨ w b - r b < w b').
Proof.
  intros Hsrc H Hwf. unfold fill in H.
  ret_step H. rename x into b1.
  apply slide_Ret in Hx as (Hr & Hw & Hlen & _ & _ & Hlast); [|done].
  ret_step H; [done|].
  apply fill_loop_Ret in H as (? & ? & ? & ? & ? & Hp); [|done|].
  - split; [done|].
    destruct Hp; repeat split; first [congruence | lia | by left | right; lia].
  - destruct Hwf as [(? & ? & ?) ?]. unfold wf, inv, Size in *. lia.
Qed.

Lemma fill_loop_S i b s :
  rd b = Some s → 0 ≤ w b → w b ≤ Size b → Size b ≤ max_int →
  0 ≤ rr_n (rd_Read s (drop (Z.to_nat (w b)) (buf b))).1 ≤ Size b - w b →
  fill_loop (S i) b =
    match rr_err (rd_Read s (drop (Z.to_nat (w b)) (buf b))).1 with
    | Some e => Ret (set_err (Some e) (attempt b s))
    | None =>
        if decide (rr_n (rd_Read s (drop (Z.to_nat (w b)) (buf b))).1 > 0)
        then Ret (attempt b s) else fill_loop i (attempt b s)
    end.
Proof.
  unfold Size. intros Hs ? ? ? Hn. rewrite fill_loop_eq.
  pose proof max_int_pos. pose proof min_int_neg.
  rewrite slice_to_end by lia. simpl. rewrite Hs. simpl.
  destruct (rd_Read s _) as [res s'] eqn:E. simpl in *.
  rewrite !wrap_small by lia.
  rewrite decide_False by lia.
  unfold attempt. rewrite E. simpl. by destruct (rr_err res).
Qed.

Lemma attempt_wf b s :
  src_ok → wf b → wf (attempt b s) ∧ Size (attempt b s) = Size b.
Proof.
  intros Hsrc [(? & ? & ?) ?]. unfold wf, inv, Size, attempt in *. simpl.
  pose proof (Hsrc s (drop (Z.to_nat (w b)) (buf b))) as Hn.
  rewrite len_drop in Hn by lia.
  rewrite len_app, len_overlay, len_take, len_drop by lia. lia.
Qed.

Lemma fill_loop_total i b :
  src_ok → wf b → is_Some (rd b) →
  ∃ b', fill_loop i b = Ret b' ∧ is_Some (rd b').
Proof.
  intros Hsrc. revert b. induction i as [|i IH]; intros b Hwf [s Hs].
  - rewrite fill_loop_eq. eauto.
  - pose proof (attempt_wf b s Hsrc Hwf) as [Hwf' _].
    destruct Hwf as [(? & ? & ?) ?].
    pose proof (Hsrc s (drop (Z.to_nat (w b)) (buf b))) as Hn.
    unfold Size in *. rewrite len_drop in Hn by lia.
    rewrite (fill_loop_S i b s) by (done || unfold Size; lia).
    destruct (rr_err _).
    + eexists. split; [done|]. simpl. eauto.
    + destruct (decide _).
      * eexists. split; [done|]. simpl. eauto.
      * apply IH; [done|]. simpl. eauto.
Qed.

Lemma fill_total b :
  src_ok → wf b → is_Some (rd b) → w b - r b < Size b →
  ∃ b', fill b = Ret b' ∧ is_Some (rd b').
Proof.
  intros Hsrc Hwf Hrd Hfull. unfold fill.
  destruct (slide_total b Hwf) as [b1 Hb1]. rewrite Hb1. simpl.
  pose proof (slide_Ret _ _ Hb1 Hwf) as (Hr & Hw & Hlen & Hrd1 & _ & _).
  unfold Size in *. rewrite decide_False by lia.
  apply fill_loop_total; [done| |by rewrite Hrd1].
  destruct Hwf as [(? & ? & ?) ?]. unfold wf, inv, Size in *. lia.
Qed.

Lemma fill_lastElem b b' : fill b = Ret b' → lastElem b' = lastElem b.
Proof.
  unfold fill. intros H. ret_step H. rename x into b1.
  assert (lastElem b1 = lastElem b) as <-.
  { unfold slide in Hx. ret_step Hx.
    - repeat ret_step Hx. by subst b1.
    - ret_step Hx. by subst. }
  ret_step H; [done|]. clear Hx n.
  revert b1 H. generalize maxConsecutiveEmptyReads as i.
  induction i as [|i IH]; intros b1 H; rewrite fill_loop_eq in H.
  - ret_step H. by subst b'.
  - ret_step H. ret_step H. destruct x0 as [[[n e] p'] s'].
    ret_step H; [done|]. destruct e.
    + ret_step H. by subst b'.
    + ret_step H; [ret_step H; by subst b'|].
      by apply IH in H.
Qed.

End Properties.

(** ** The retry bound of [fill] *)

Section NoProgress.
Context {T Src : Type} `{!ReadInterface T Src}.

Lemma counted_Read_1 (s : Src) (c : nat) (p : list T) :
  (rd_Read (s, c) p).1 = (rd_Read s p).1.
Proof. simpl. by destruct (rd_Read s p). Qed.

Lemma counted_Read_2 (s : Src) (c : nat) (p : list T) :
  (rd_Read (s, c) p).2 = ((rd_Read s p).2, S c).
Proof. simpl. by destruct (rd_Read s p). Qed.

Lemma fill_loop_stalls i (b : Reader T (Src * nat)) s s' c :
  stalls i s s' → rd b = Some (s, c) →
  0 ≤ w b → w b ≤ Size b → Size b ≤ max_int →
  ∃ bf, len bf = Size b ∧
    fill_loop i b = Ret (mkReader bf (Some (s', (c + i)%nat)) (r b) (w b)
                                  (Some ErrNoProgress) (lastElem b)).
Proof.
  intros Hst. revert b c.
  induction Hst as [s|k s s' Hz _ IH]; intros b c Hrd Hw0 Hw Hmax.
  - exists (buf b). split; [done|]. rewrite fill_loop_eq, Nat.add_0_r.
    unfold set_err. by rewrite Hrd.
  - set (p := drop (Z.to_nat (w b)) (buf b)).
    destruct (Hz p) as [Hn He].
    rewrite (fill_loop_S k b (s, c)); try done; fold p;
      rewrite counted_Read_1; [|lia].
    rewrite He, Hn, decide_False by lia.
    assert (Hatt : attempt b (s, c) =
      mkReader (take (Z.to_nat (w b)) (buf b)
                  ++ overlay (rr_data (rd_Read s p).1) p)
               (Some ((rd_Read s p).2, S c)) (r b) (w b) (err b) (lastElem b)).
    { unfold attempt. fold p.
      rewrite counted_Read_1, counted_Read_2, Hn. f_equal. lia. }
    rewrite Hatt.
    assert (Hlen : len (take (Z.to_nat (w b)) (buf b)
                          ++ overlay (rr_data (rd_Read s p).1) p) = Size b).
    { unfold Size in *. rewrite len_app, len_overlay.
      unfold p. rewrite len_take, len_drop by lia. lia. }
    edestruct (IH p) as (bf & Hbf & ->); [done | ..]; unfold Size; simpl;
      rewrite ?Hlen; try done.
    exists bf. split; [rewrite Hbf; apply Hlen|].
    do 4 f_equal. lia.
Qed.

End NoProgress.

(** C1: when the source returns [(0, nil)] on 100 attempts in a row, [fill]
    calls it exactly those 100 times (the call counter advances by 100 and the
    source is left in the state before its 101st answer) and the pending
    error is [ErrNoProgress], whatever attempt 101 would have returned. *)
Theorem fill_reports_NoProgress {T Src : Type} `{!ReadInterface T Src}
    (b : Reader T (Src * nat)) (s s' : Src) (c : nat) :
  rd b = Some (s, c) → stalls 100 s s' → wf b → w b - r b < Size b →
  ∃ b', fill b = Ret b'
        ∧ err b' = Some ErrNoProgress
        ∧ rd b' = Some (s', (c + 100)%nat)
        ∧ r b' = 0 ∧ w b' = w b - r b ∧ Size b' = Size b.
Proof.
  intros Hrd Hst Hwf Hfull. unfold fill.
  destruct (slide_total b Hwf) as [b1 Hb1]. rewrite Hb1. simpl.
  pose proof (slide_Ret _ _ Hb1 Hwf) as (Hr & Hw & Hlen & Hrd1 & _ & _).
  destruct Hwf as [(? & ? & ?) ?]. unfold Size in *.
  rewrite decide_False by lia. unfold maxConsecutiveEmptyReads.
  destruct (fill_loop_stalls 100 b1 s s' c) as (bf & Hbf & ->);
    unfold Size; try done; try lia; [congruence|].
  eexists. split; [done|]. simpl. unfold Size in *. simpl.
  repeat split; try done; lia.
Qed.

Lemma stalls_script {T} (k : nat) (tl : script T) :
  stalls k (replicate k (mkReadResult 0 None []) ++ tl) tl.
Proof.
  induction k as [|k IH]; simpl; [constructor|].
  constructor; intros p; simpl; [done | apply IH].
Qed.

Lemma fill_reports_NoProgress_witness :
  ∃ b', fill (reset (replicate 16 0) (Some (stall_script, 0%nat))) = Ret b'
        ∧ err b' = Some ErrNoProgress
        ∧ rd b' = Some ([mkReadResult 0 (Some EOF) []], 100%nat)
        ∧ r b' = 0 ∧ w b' = 0 ∧ Size b' = 16.
Proof.
  apply (fill_reports_NoProgress
           (reset (replicate 16 0) (Some (stall_script, 0%nat)))
           stall_script [mkReadResult 0 (Some EOF) []] 0%nat).
  - reflexivity.
  - apply (stalls_script 100).
  - unfold wf, inv. repeat split; by vm_compute.
  - by vm_compute.
Defined.

(** The sources above return counts within bounds. *)
Lemma chunks_src_ok {T} : src_ok (T:=T) (Src:=chunks T).
Proof.
  intros s p. simpl. unfold chunks_Read.
  destruct (pending s) as [|c cs]; simpl; unfold len; lia.
Qed.

(** ** Peek *)

Section PeekProperties.
Context {T Src : Type} `{!ReadInterface T Src}.
Implicit Types (b : Reader T Src).

Lemma Peek_loop_Ret fuel n b b' :
  src_ok → Peek_loop fuel n b = Ret b' → wf b →
  wf b' ∧ Size b' = Size b ∧ lastElem b' = lastElem b.
Proof.
  intros Hsrc. revert b. induction fuel as [|fuel IH]; intros b H Hwf;
    simpl in H; ret_step H; try done; try (ret_step H; by subst).
  ret_step H. rename x into b1.
  pose proof (fill_Ret b b1 Hsrc Hx Hwf) as (Hwf1 & _ & _ & Hlen & Hlast & _).
  apply IH in H as (? & ? & ?); [|done].
  unfold Size in *. split; [done|]. split; congruence.
Qed.

Lemma Peek_loop_total fuel n b :
  src_ok → wf b → is_Some (rd b) →
  is_Some (err b) ∨ Size b - (w b - r b) ≤ Z.of_nat fuel →
  ∃ b', Peek_loop fuel n b = Ret b'
        ∧ ¬ (w b' - r b' < n ∧ w b' - r b' < Size b' ∧ err b' = None).
Proof.
  intros Hsrc. revert b. induction fuel as [|fuel IH]; intros b Hwf Hrd Hfuel;
    pose proof Hwf as [(? & ? & ?) ?];
    pose proof max_int_pos; pose proof min_int_neg; simpl;
    (destruct (decide _) as [(Hn & Hfull & Herr)|Hstop];
      [rewrite wrap_small in Hn, Hfull by lia
      |exists b; split; [done|]; unfold Size; by rewrite wrap_small in Hstop by lia]).
  - destruct Hfuel as [[e He]|Hfuel]; [congruence|]. unfold Size in *. lia.
  - destruct (fill_total b) as (b1 & Hb1 & Hrd1); try done.
    rewrite Hb1. simpl.
    pose proof (fill_Ret b b1 Hsrc Hb1 Hwf) as (Hwf1 & Hr1 & _ & Hlen & _ & Hp).
    apply IH; try done.
    destruct Hp as [?|?]; [by left|right].
    destruct Hfuel as [[e He]|Hfuel]; [congruence|].
    unfold Size in *. lia.
Qed.

End PeekProperties.



(** ** The operations keep the cursor invariant *)

Section Invariant.
Context {T Src : Type} `{!ReadInterface T Src}.
Variable zero : T.
Implicit Types (b : Reader T Src) (m : mem T).

Lemma Discard_loop_Ret fuel n remain b res b' :
  src_ok → Discard_loop fuel n remain b = Ret (res, b') → wf b →
  0 < remain ≤ max_int →
  wf b' ∧ Size b' = Size b ∧ lastElem b' = lastElem b.
Proof.
  intros Hsrc. revert remain b.
  induction fuel as [|fuel IH]; intros remain b H Hwf Hrem; simpl in H;
    [done|].
  pose proof max_int_pos. pose proof min_int_neg.
  ret_step H. rename x into b1.
  assert (wf b1 ∧ Size b1 = Size b ∧ lastElem b1 = lastElem b)
    as (Hwf1 & Hsz & Hlast).
  { ret_step Hx.
    - pose proof (fill_Ret b b1 Hsrc Hx Hwf) as (? & _ & _ & ? & ? & _).
      done.
    - ret_step Hx. by subst. }
  clear Hx. destruct Hwf1 as [(? & ? & ?) ?]. unfold Size, Buffered in *.
  rewrite (wrap_small (w b1 - r b1)) in H by lia.
  set (skip := if decide (w b1 - r b1 > remain) then remain else w b1 - r b1)
    in H.
  assert (0 ≤ skip ≤ w b1 - r b1 ∧ skip ≤ remain) as (? & ?).
  { unfold skip. destruct (decide _); lia. }
  rewrite (wrap_small (r b1 + skip)), (wrap_small (remain - skip)) in H by lia.
  assert (Hwf2 : wf (set_r (r b1 + skip) b1)).
  { unfold wf, inv, Size. simpl. lia. }
  ret_step H.
  - injection H as _ <-. by rewrite <- Hsz, <- Hlast.
  - ret_step H.
    + injection H as _ <-. by rewrite <- Hsz, <- Hlast.
    + apply IH in H as (? & ? & ?); [|done|lia].
      unfold Size in *. simpl in *. split; [done|]. split; congruence.
Qed.

Lemma Discard_Ret fuel n b res b' :
  src_ok → Discard fuel n b = Ret (res, b') → wf b → is_int n →
  wf b' ∧ Size b' = Size b.
Proof.
  intros Hsrc H Hwf [_ Hn]. unfold Discard in H.
  ret_step H; [injection H as _ <-; done|].
  ret_step H; [injection H as _ <-; done|].
  apply Discard_loop_Ret in H as (? & ? & _); try done. lia.
Qed.

Lemma Peek_Ret fuel n b res b' :
  src_ok → Peek fuel n b = Ret (res, b') → wf b →
  wf b' ∧ Size b' = Size b.
Proof.
  intros Hsrc H Hwf. unfold Peek in H.
  ret_step H; [injection H as _ <-; done|].
  ret_step H. rename x into b1.
  apply Peek_loop_Ret in Hx as (Hwf1 & Hsz & _); [|done..].
  unfold Size in *. simpl in Hsz. rewrite <- Hsz.
  ret_step H; [ret_step H; injection H as _ <-; done|].
  simpl in H. ret_step H; ret_step H; injection H as _ <-; done.
Qed.

Lemma Read_copy_Ret p b m res b' m' :
  Read_copy p b m = Ret (res, b', m') → wf b →
  wf b' ∧ Size b' = Size b.
Proof.
  unfold Read_copy. intros H [(? & ? & ?) ?].
  pose proof max_int_pos. pose proof min_int_neg.
  ret_all H. injection H as _ <- _. bounds.
  pose proof (len_nonneg (load m p)).
  unfold wf, inv, Size, copy_n in *. simpl.
  rewrite wrap_small by lia. lia.
Qed.

Lemma Read_Ret p b m res b' m' :
  src_ok → Read p b m = Ret (res, b', m') → wf b →
  wf b' ∧ Size b' = Size b.
Proof.
  intros Hsrc H Hwf. unfold Read in H.
  pose proof max_int_pos. pose proof min_int_neg.
  ret_step H.
  { ret_step H; simpl in H; ret_step H; injection H as _ <- _; done. }
  ret_step H; [|by eapply Read_copy_Ret].
  destruct (err b) eqn:He.
  { simpl in H. ret_step H. injection H as _ <- _. done. }
  ret_step H.
  - ret_all H. unfold readErr in *. ret_all Hx0; simplify_eq; done.
  - ret_step H. destruct x as [[[k e'] bf'] s'].
    apply callRead_Ret in Hx as (s & Hs & -> & -> & -> & _ & Hlen).
    pose proof (Hsrc s (buf b)) as Hk.
    destruct Hwf as [(? & ? & ?) ?]. unfold Size in *.
    set (k := rr_n (rd_Read s (buf b)).1) in *.
    rewrite (wrap_small k) in H by lia.
    ret_step H; [done|]. ret_step H.
    + simpl in H. ret_step H. simplify_eq.
      unfold wf, inv, Size. simpl. lia.
    + apply Read_copy_Ret in H as [? Hsz].
      * unfold Size in *. simpl in Hsz. split; [done|congruence].
      * unfold wf, inv, Size. simpl. rewrite wrap_small by lia. lia.
Qed.

Lemma ReadElem_Ret fuel b res b' :
  src_ok → ReadElem zero fuel b = Ret (res, b') → wf b →
  wf b' ∧ Size b' = Size b.
Proof.
  intros Hsrc. revert b. induction fuel as [|fuel IH]; intros b H Hwf;
    pose proof max_int_pos; pose proof min_int_neg;
    pose proof Hwf as [(? & ? & ?) ?]; simpl in H.
  - ret_all H; injection H as _ <-; [done|].
    unfold wf, inv, Size in *. simpl. rewrite wrap_small by lia. lia.
  - ret_step H.
    + ret_step H; [ret_step H; injection H as _ <-; done|].
      ret_step H. rename x into b1.
      pose proof (fill_Ret b b1 Hsrc Hx Hwf) as (? & _ & _ & Hlen & _).
      apply IH in H as [? ?]; [|done]. unfold Size in *. split; congruence.
    + ret_all H. injection H as _ <-.
      unfold wf, inv, Size in *. simpl. rewrite wrap_small by lia. lia.
Qed.

Lemma UnreadElem_Ret b m res b' :
  UnreadElem b m = Ret (res, b') → wf b →
  wf b' ∧ Size b' = Size b.
Proof.
  unfold UnreadElem. intros H Hwf.
  pose proof max_int_pos. pose proof min_int_neg.
  pose proof Hwf as [(? & ? & ?) ?].
  ret_all H; injection H as _ <-; try done.
  bounds. subst x0.
  unfold wf, inv, Size in *. simpl. unfold len in *.
  rewrite length_insert.
  destruct (decide (r b > 0)); simpl in *.
  - rewrite wrap_small by lia. lia.
  - lia.
Qed.

Lemma Reset_wf self b src :
  wf b → wf (Reset zero self b src).
Proof.
  unfold Reset. intros Hwf. destruct (decide _); [done|].
  destruct Hwf as [_ ?]. unfold wf, inv, Size in *.
  destruct (buf b) eqn:E; simpl.
  - split; [by vm_compute|by vm_compute].
  - pose proof (len_nonneg (t :: l)). lia.
Qed.

Lemma NewReaderSize_wf h src size q h' b :
  NewReaderSize zero h src size = Ret (q, h') → Forall wf h → is_int size →
  h' !! q = Some b → wf b.
Proof.
  unfold NewReaderSize. intros H Hh [_ Hsz] Hb.
  assert (Hfresh : ∀ q h',
    Ret (length h,
         h ++ [reset (replicate
                       (Z.to_nat (if decide (size < minReadBufferSize)
                                  then minReadBufferSize else size)) zero)
                 src]) = Ret (q, h') →
    h' !! q = Some b → wf b).
  { clear -Hsz. intros q h' [= <- <-] Hb.
    rewrite lookup_app_r, Nat.sub_diag in Hb by lia. injection Hb as <-.
    unfold wf, inv, Size, len. simpl. rewrite length_replicate.
    unfold minReadBufferSize, max_int in *. destruct (decide _); lia. }
  destruct (src ≫= rd_asReader) as [q0|]; [|by eapply Hfresh].
  destruct (h !! q0) as [b0|] eqn:E; [|done].
  destruct (decide _); [|by eapply Hfresh].
  injection H as <- <-. rewrite E in Hb. injection Hb as <-.
  by eapply Forall_lookup_1 in E.
Qed.

End Invariant.


Section WriterInvariant.
Context {T Src Snk : Type} `{!ReadInterface T Src} `{!WriteInterface T Snk}
        `{!WriteToInterface T Src Snk} `{!ReadFromInterface T Src Snk}.
Variable zero : T.
Implicit Types (b : Reader T Src) (m : mem T) (k : Snk).

Lemma writeBuf_Ret b k res b' k' :
  snk_ok → writeBuf b k = Ret (res, b', k') → wf b →
  wf b' ∧ Size b' = Size b ∧ lastElem b' = lastElem b.
Proof.
  intros Hsnk H Hwf. unfold writeBuf in H.
  pose proof max_int_pos. pose proof min_int_neg.
  pose proof Hwf as [(? & ? & ?) ?].
  ret_step H. rename x into s. bounds.
  pose proof (Hsnk k s) as Hn.
  destruct (w_Write k s) as [[n e] k1]. simpl in Hn.
  rewrite (wrap_small n) in H by lia.
  ret_all H. injection H as _ <- _.
  unfold wf, inv, Size in *. simpl. rewrite wrap_small by lia.
  repeat split; (done || lia).
Qed.

Lemma WriteTo_loop_Ret fuel n b k res b' k' :
  src_ok → snk_ok → WriteTo_loop fuel n b k = Ret (res, b', k') → wf b →
  wf b' ∧ Size b' = Size b ∧ lastElem b' = lastElem b.
Proof.
  intros Hsrc Hsnk. revert n b k.
  induction fuel as [|fuel IH]; intros n b k H Hwf; simpl in H.
  - ret_step H; [done|].
    destruct (decide (err b = Some EOF)); ret_all H; injection H as _ <- _;
      done.
  - ret_step H;
      [|destruct (decide (err b = Some EOF)); ret_all H;
        injection H as _ <- _; done].
    ret_step H. destruct x as [[[n1 e1] b1] k1].
    apply writeBuf_Ret in Hx as (Hwf1 & Hsz1 & Hl1); [|done..].
    ret_step H; [injection H as _ <- _; done|].
    ret_step H. rename x into b2.
    pose proof (fill_Ret b1 b2 Hsrc Hx Hwf1) as (? & _ & _ & ? & ? & _).
    apply IH in H as (? & ? & ?); [|done].
    unfold Size in *. split; [done|]. split; congruence.
Qed.

Lemma WriteTo_Ret fuel b k res b' k' :
  src_ok → snk_ok → WriteTo fuel b k = Ret (res, b', k') → wf b →
  wf b' ∧ Size b' = Size b ∧ lastElem b' = None.
Proof.
  intros Hsrc Hsnk H Hwf. unfold WriteTo in H.
  ret_step H. destruct x as [[[n1 e1] b1] k1].
  apply writeBuf_Ret in Hx as (Hwf1 & Hsz1 & Hl1); [|done..].
  unfold Size in *. simpl in Hsz1, Hl1.
  ret_step H; [injection H as _ <- _; done|].
  destruct (rd b1 ≫= rd_asWriteTo) as [wt|].
  { ret_all H. injection H as _ <- _. done. }
  destruct (w_asReadFrom k1) as [rf|].
  { ret_all H. injection H as _ <- _. done. }
  ret_step H. rename x into b2.
  assert (wf b2 ∧ len (buf b2) = len (buf b1) ∧ lastElem b2 = lastElem b1)
    as (? & ? & ?).
  { ret_step Hx; [|ret_step Hx; by subst].
    pose proof (fill_Ret b1 b2 Hsrc Hx Hwf1) as (? & _ & _ & ? & ? & _).
    done. }
  apply WriteTo_loop_Ret in H as (? & ? & ?); [|done..].
  unfold Size in *. split; [done|]. split; congruence.
Qed.

End WriterInvariant.



(** ** The loops of ReadElem and Discard end *)

Section Termination.
Context {T Src : Type} `{!ReadInterface T Src}.
Variable zero : T.
Implicit Types (b : Reader T Src).

(** One [fill] is enough for [ReadElem]. *)
Lemma ReadElem_total fuel b :
  src_ok → wf b → is_Some (rd b) → 0 < Size b →
  ∃ res b', ReadElem zero (S fuel) b = Ret (res, b').
Proof.
  intros Hsrc Hwf Hrd Hsz.
  assert (Hnow : ∀ fuel' b0, wf b0 → r b0 ≠ w b0 →
    ∃ res b', ReadElem zero fuel' b0 = Ret (res, b')).
  { intros fuel' b0 [(? & ? & ?) ?] Hne. unfold Size, len in *.
    destruct (lookup_lt_is_Some_2 (buf b0) (Z.to_nat (r b0))) as [c Hc];
      [lia|].
    destruct fuel'; simpl; rewrite decide_False by done; unfold index;
      rewrite decide_True by lia; rewrite Hc; simpl; by eexists _, _. }
  destruct (decide (r b = w b)) as [Heq|Hne]; [|by apply Hnow].
  simpl. rewrite decide_True by done.
  destruct (err b) eqn:He; [simpl; by eexists _, _|].
  destruct (fill_total b) as (b1 & Hb1 & _); try done; [lia|].
  rewrite Hb1. simpl.
  pose proof (fill_Ret b b1 Hsrc Hb1 Hwf) as (Hwf1 & Hr1 & _ & _ & _ & Hp).
  destruct (decide (r b1 = w b1)) as [Heq1|Hne1]; [|by apply Hnow].
  destruct Hp as [[e1 He1]|?]; [|lia].
  destruct fuel; simpl; rewrite decide_True by done; rewrite He1; simpl;
    by eexists _, _.
Qed.

(** [n] rounds are enough for [Discard(n)]. *)
Lemma Discard_loop_total fuel n remain b :
  src_ok → wf b → is_Some (rd b) → 0 < Size b →
  0 < remain ≤ max_int → remain ≤ Z.of_nat fuel →
  ∃ res b', Discard_loop fuel n remain b = Ret (res, b').
Proof.
  intros Hsrc. revert remain b.
  induction fuel as [|fuel IH]; intros remain b Hwf Hrd Hsz Hrem Hfuel;
    [lia|].
  pose proof max_int_pos. pose proof min_int_neg. simpl.
  assert (∃ b1, (if decide (Buffered b = 0) then fill b else Ret b) = Ret b1
                ∧ wf b1 ∧ is_Some (rd b1) ∧ Size b1 = Size b
                ∧ (is_Some (err b1) ∨ 0 < w b1 - r b1))
    as (b1 & -> & Hwf1 & Hrd1 & Hsz1 & Hp).
  { pose proof Hwf as [(? & ? & ?) ?]. unfold Buffered, Size in *.
    rewrite wrap_small by lia. destruct (decide (w b - r b = 0)).
    - destruct (fill_total b) as (b1 & Hb1 & ?); try done; [unfold Size; lia|].
      pose proof (fill_Ret b b1 Hsrc Hb1 Hwf) as (? & ? & _ & ? & _ & Hp).
      exists b1. do 4 (split; [done|]).
      destruct Hp; [by left|right; lia].
    - exists b. do 4 (split; [done|]). right. lia. }
  simpl. pose proof Hwf1 as [(? & ? & ?) ?]. unfold Buffered, Size in *.
  rewrite (wrap_small (w b1 - r b1)) by lia.
  set (skip := if decide (w b1 - r b1 > remain) then remain else w b1 - r b1).
  assert (0 ≤ skip ≤ w b1 - r b1 ∧ skip ≤ remain
          ∧ (0 < w b1 - r b1 → 0 < skip)) as (? & ? & ?).
  { unfold skip. destruct (decide _); lia. }
  rewrite (wrap_small (r b1 + skip)), (wrap_small (remain - skip)) by lia.
  destruct (decide (remain - skip = 0)); [by eexists _, _|].
  destruct (err b1) eqn:He; [simpl; by eexists _, _|].
  destruct Hp as [[? ?]|Hp]; [done|].
  apply IH; unfold wf, inv, Size; simpl; try done; lia.
Qed.

Lemma Discard_total fuel n b :
  src_ok → wf b → is_Some (rd b) → 0 < Size b →
  n ≤ max_int → n ≤ Z.of_nat fuel →
  ∃ res b', Discard fuel n b = Ret (res, b').
Proof.
  intros Hsrc Hwf Hrd Hsz Hn Hfuel. unfold Discard.
  destruct (decide (n < 0)); [by eexists _, _|].
  destruct (decide (n = 0)); [by eexists _, _|].
  apply Discard_loop_total; try done; lia.
Qed.

End Termination.

(** ** The public operations as a transition system *)

Section Reachable.
Context {T Src Snk : Type} `{!ReadInterface T Src} `{!WriteInterface T Snk}
        `{!WriteToInterface T Src Snk} `{!ReadFromInterface T Src Snk}.
Variable zero : T.
Implicit Types (b : Reader T Src) (m : mem T) (k : Snk).

Lemma run_wf self fuel o b m b' m' :
  src_ok → snk_ok → op_int o → run zero self fuel o b m = Ret (b', m') →
  wf b → wf b'.
Proof.
  intros Hsrc Hsnk Hint H Hwf. destruct o; simpl in H.
  - ret_step H. destruct x as [[res b1] m1]. ret_step H. injection H as <- _.
    by apply Read_Ret in Hx as [? _].
  - ret_step H. destruct x as [res b1]. ret_step H. injection H as <- _.
    by apply ReadElem_Ret in Hx as [? _].
  - ret_step H. destruct x as [res b1]. ret_step H. injection H as <- _.
    by apply Peek_Ret in Hx as [? _].
  - ret_step H. destruct x as [res b1]. ret_step H. injection H as <- _.
    by apply Discard_Ret in Hx as [? _].
  - ret_step H. destruct x as [res b1]. ret_step H. injection H as <- _.
    by apply UnreadElem_Ret in Hx as [? _].
  - ret_step H. destruct x as [[res b1] k1]. ret_step H. injection H as <- _.
    by apply WriteTo_Ret in Hx as [? _].
  - ret_step H. injection H as <- _. by apply Reset_wf.
  - ret_step H. by injection H as <- _.
  - ret_step H. by injection H as <- _.
Qed.

Lemma reachable_wf self b :
  src_ok → snk_ok → reachable zero self b → wf b.
Proof.
  intros Hsrc Hsnk. induction 1 as [src size h b Hsz Hnew Hb|].
  - by eapply NewReaderSize_wf.
  - by eapply run_wf.
Qed.

End Reachable.

(** C5: the cursor invariant [0 <= r <= w <= capacity] holds in every state
    reachable from a freshly constructed reader through the public
    operations, for a source and a sink that return counts within bounds. *)
Theorem cursor_invariant {T Src Snk : Type}
    `{!ReadInterface T Src} `{!WriteInterface T Snk}
    `{!WriteToInterface T Src Snk} `{!ReadFromInterface T Src Snk}
    (zero : T) (self : ptr) (b : Reader T Src) :
  src_ok (T:=T) (Src:=Src) → snk_ok (T:=T) (Snk:=Snk) →
  reachable (Snk:=Snk) zero self b →
  0 ≤ r b ∧ r b ≤ w b ∧ w b ≤ Size b.
Proof.
  intros Hsrc Hsnk Hreach.
  by destruct (reachable_wf zero self b Hsrc Hsnk Hreach) as [? _].
Qed.


Lemma list_snk_ok {T} : snk_ok (T:=T) (Snk:=list T).
Proof. intros k s. simpl. pose proof (len_nonneg s). lia. Qed.

Lemma read_one_reachable :
  reachable (WriteToInterface0:=no_WriteTo) (ReadFromInterface0:=no_ReadFrom)
            (Snk:=list Z) 0 0%nat read_one.
Proof.
  eapply (reach_step _ _ 2%nat OpReadElem _ [] _ []).
  - eapply (reach_new _ _ (Some (mkChunks [[1; 2; 3]] EOF false)) 16).
    + by vm_compute.
    + reflexivity.
    + reflexivity.
  - exact I.
  - reflexivity.
Qed.

Lemma cursor_invariant_witness :
  0 ≤ r read_one ∧ r read_one ≤ w read_one ∧ w read_one ≤ Size read_one.
Proof.
  apply (cursor_invariant (WriteToInterface0:=no_WriteTo)
           (ReadFromInterface0:=no_ReadFrom) (Snk:=list Z) 0 0%nat read_one).
  - apply chunks_src_ok.
  - apply list_snk_ok.
  - apply read_one_reachable.
Defined.


(** ** UnreadElem *)

Section Unread.
Context {T Src : Type} `{!ReadInterface T Src}.
Variable zero : T.
Implicit Types (b : Reader T Src) (m : mem T).

Lemma UnreadElem_invalid b m :
  lastElem b = None ∨ (r b = 0 ∧ w b > 0) →
  UnreadElem b m = Ret (Some ErrInvalidUnreadElem, b).
Proof.
  unfold UnreadElem. intros [->|Hc]; [done|].
  destruct (lastElem b); [|done]. by rewrite decide_True.
Qed.

Lemma UnreadElem_valid b m q v :
  wf b → 0 < Size b → lastElem b = Some q → ¬ (r b = 0 ∧ w b > 0) →
  deref b m q = Some v →
  UnreadElem b m = Ret (None, unread v b).
Proof.
  unfold UnreadElem, unread. intros [(? & ? & ?) ?] Hsz Hq Hc Hv.
  pose proof max_int_pos. pose proof min_int_neg. unfold Size in *.
  rewrite Hq, decide_False by done.
  destruct (decide (r b > 0)).
  - assert (Hd : deref (set_r (wrap (r b - 1)) b) m q = Some v) by done.
    rewrite Hd. simpl. rewrite wrap_small by lia.
    unfold store. rewrite decide_True by lia. done.
  - assert (Hd : deref (set_w 1 b) m q = Some v) by done.
    rewrite Hd. simpl. assert (r b = 0) as -> by lia.
    unfold store. rewrite decide_True by lia. done.
Qed.

Lemma ReadElem_success fuel b x b1 :
  src_ok → ReadElem zero fuel b = Ret ((x, None), b1) → wf b →
  wf b1 ∧ lastElem b1 = Some (Local x) ∧ 0 < r b1
  ∧ buf b1 !! Z.to_nat (r b1 - 1) = Some x.
Proof.
  intros Hsrc. revert b.
  assert (Hnow : ∀ b, wf b → r b ≠ w b →
    checked (index (buf b) (r b))
      ≫= (λ c, Ret ((c, None : option error),
                    set_lastElem (Some (Local c)) (set_r (wrap (r b + 1)) b)))
      = Ret ((x, None), b1) →
    wf b1 ∧ lastElem b1 = Some (Local x) ∧ 0 < r b1
    ∧ buf b1 !! Z.to_nat (r b1 - 1) = Some x).
  { intros b [(Hr0 & Hrw & Hwl) Hmax] Hne H.
    pose proof max_int_pos. pose proof min_int_neg. unfold Size in *.
    ret_all H. injection H as -> <-. unfold index in Hx.
    rewrite decide_True in Hx by lia.
    unfold wf, inv, Size. simpl. rewrite wrap_small by lia.
    replace (r b + 1 - 1) with (r b) by lia.
    apply checked_Ret in Hx. repeat split; (done || lia). }
  induction fuel as [|fuel IH]; intros b H Hwf; simpl in H.
  - ret_step H; [|by apply Hnow in H].
    ret_all H; simplify_eq.
  - ret_step H; [|by apply Hnow in H].
    ret_step H; [ret_all H; simplify_eq|].
    ret_step H. rename x0 into b0.
    pose proof (fill_Ret b b0 Hsrc Hx Hwf) as (? & _).
    by apply IH in H.
Qed.

End Unread.

(** C2: [UnreadElem] fails with [ErrInvalidUnreadElem] exactly when
    [lastElem] is nil or [r = 0] and [w > 0]; otherwise it restores the
    remembered element and clears [lastElem]; after a successful [ReadElem]
    that returned [x], [UnreadElem] then [ReadElem] returns [x] again, and a
    second [UnreadElem] in a row fails. *)
Theorem UnreadElem_contract {T Src : Type} `{!ReadInterface T Src}
    (zero : T) (b : Reader T Src) (m : mem T) :
  wf b → 0 < Size b →
  (∀ q, lastElem b = Some q → is_Some (deref b m q)) →
  (lastElem b = None ∨ (r b = 0 ∧ w b > 0) →
     UnreadElem b m = Ret (Some ErrInvalidUnreadElem, b))
  ∧ (¬ (lastElem b = None ∨ (r b = 0 ∧ w b > 0)) →
     ∃ q v, lastElem b = Some q ∧ deref b m q = Some v
            ∧ UnreadElem b m = Ret (None, unread v b))
  ∧ (∀ fuel x b1,
       src_ok → ReadElem zero fuel b = Ret ((x, None), b1) →
       ∃ b2, UnreadElem b1 m = Ret (None, b2)
             ∧ (∀ fuel', ReadElem zero fuel' b2 = Ret ((x, None), b1))
             ∧ UnreadElem b2 m = Ret (Some ErrInvalidUnreadElem, b2)).
Proof.
  intros Hwf Hsz Hptr. split; [apply UnreadElem_invalid|]. split.
  - intros Hc. destruct (lastElem b) as [q|] eqn:Hq; [|tauto].
    destruct (Hptr q eq_refl) as [v Hv]. exists q, v.
    repeat split; try done. apply UnreadElem_valid with q; tauto.
  - intros fuel x b1 Hsrc Hread.
    pose proof (ReadElem_Ret zero fuel b _ _ Hsrc Hread Hwf) as [_ Hsz1].
    apply ReadElem_success in Hread as (Hwf1 & Hl & Hr & Hx); [|done..].
    pose proof Hwf1 as [(? & ? & ?) ?].
    pose proof max_int_pos. pose proof min_int_neg. unfold Size in *.
    exists (unread x b1). split; [|split].
    + apply UnreadElem_valid with (Local x); try done; unfold Size; lia.
    + intros fuel'. unfold unread. rewrite decide_True by lia.
      rewrite list_insert_id by done.
      assert (Hgo : ∀ b2 : Reader T Src, r b2 ≠ w b2 →
        ReadElem zero fuel' b2 =
          checked (index (buf b2) (r b2))
            ≫= (λ c, Ret ((c, None),
                  set_lastElem (Some (Local c))
                    (set_r (wrap (r b2 + 1)) b2)))).
      { intros b2 Hne. destruct fuel'; simpl; by rewrite decide_False. }
      rewrite Hgo by (simpl; lia). simpl.
      unfold index. rewrite decide_True by lia. rewrite Hx. simpl.
      rewrite wrap_small by lia. replace (r b1 - 1 + 1) with (r b1) by lia.
      destruct b1; simpl in *. by rewrite Hl.
    + apply UnreadElem_invalid. left. unfold unread.
      by destruct (decide _).
Qed.

Lemma UnreadElem_contract_witness :
  (lastElem read_one = None ∨ (r read_one = 0 ∧ w read_one > 0) →
     UnreadElem read_one [] = Ret (Some ErrInvalidUnreadElem, read_one))
  ∧ (¬ (lastElem read_one = None ∨ (r read_one = 0 ∧ w read_one > 0)) →
     ∃ q v, lastElem read_one = Some q ∧ deref read_one [] q = Some v
            ∧ UnreadElem read_one [] = Ret (None, unread v read_one))
  ∧ (∀ fuel x b1,
       src_ok (T:=Z) (Src:=chunks Z) →
       ReadElem 0 fuel read_one = Ret ((x, None), b1) →
       ∃ b2, UnreadElem b1 [] = Ret (None, b2)
             ∧ (∀ fuel', ReadElem 0 fuel' b2 = Ret ((x, None), b1))
             ∧ UnreadElem b2 [] = Ret (Some ErrInvalidUnreadElem, b2)).
Proof.
  apply (UnreadElem_contract 0 read_one []).
  - unfold wf, inv. repeat split; by vm_compute.
  - by vm_compute.
  - intros q [= <-]. by eexists.
Defined.


(** ** What [lastElem] points to *)

(** C3: after a bulk [Read] that returned elements, [lastElem] does not hold
    a copy: on the direct path it is the address of the last element written
    to the slice of the caller.  A reader of capacity 16 reads [1 2] into a
    slice of length 16; the caller then stores 99 over the 2; [UnreadElem]
    succeeds and the next [ReadElem] returns 99, not the 2 that was
    returned. *)
Theorem Read_lastElem_aliases_dest :
  let b0 := reset (replicate 16 0) (Some (mkChunks [[1; 2]] EOF false)) in
  let m0 := [replicate 16 0] in
  ∃ b1 m1 b2 b3,
    Read 0%nat b0 m0 = Ret ((2, None), b1, m1)
    ∧ load m1 0%nat !! 1%nat = Some 2
    ∧ lastElem b1 = Some (InDest 0%nat 1)
    ∧ UnreadElem b1 (<[0%nat := <[1%nat := 99]> (load m1 0%nat)]> m1)
        = Ret (None, b2)
    ∧ ReadElem 0 0 b2 = Ret ((99, None), b3).
Proof. simpl. eexists _, _, _, _. repeat split; reflexivity. Qed.

(** The same on the buffered path, where [lastElem] is the address of a slot
    of the buffer: [Read] returns [1 2 3]; the next [ReadElem] fills, the
    source answers [(0, EOF)] after using the slice as scratch space;
    [UnreadElem] then restores what the slot holds now, and [ReadElem]
    returns 7, not the 3 that was returned.  The results of the four calls: *)
Lemma Read_lastElem_aliases_buf :
  let b0 : Reader Z (script Z) :=
    reset (replicate 16 0)
          (Some [mkReadResult 3 None [1; 2; 3];
                 mkReadResult 0 (Some EOF) [7; 7; 7]]) in
  ('(x1, b1, m1) ← Read 0%nat b0 [[0; 0; 0]];
   '(x2, b2) ← ReadElem 0 1 b1;
   '(x3, b3) ← UnreadElem b2 m1;
   '(x4, b4) ← ReadElem 0 0 b3;
   Ret (x1, m1, lastElem b1, x2, x3, x4))
  = Ret ((3, None), [[1; 2; 3]], Some (InBuf 2), (0, Some EOF), None,
         (7, None)).
Proof. by vm_compute. Qed.


Section LastElem.
Context {T Src : Type} `{!ReadInterface T Src}.
Variable zero : T.
Implicit Types (b : Reader T Src) (m : mem T).

Lemma Peek_loop_lastElem fuel n b b' :
  Peek_loop fuel n b = Ret b' → lastElem b' = lastElem b.
Proof.
  revert b. induction fuel as [|fuel IH]; intros b H; simpl in H;
    ret_step H; try done; try (ret_step H; by subst).
  ret_step H. apply fill_lastElem in Hx. apply IH in H. congruence.
Qed.

Lemma Peek_lastElem fuel n b res b' :
  0 ≤ n → Peek fuel n b = Ret (res, b') → lastElem b' = None.
Proof.
  unfold Peek. intros Hn H. rewrite decide_False in H by lia.
  ret_step H. apply Peek_loop_lastElem in Hx. simpl in Hx.
  ret_step H; [ret_all H; by injection H as _ <-|].
  simpl in H. ret_step H; ret_all H; by injection H as _ <-.
Qed.

Lemma Discard_loop_lastElem fuel n remain b res b' :
  Discard_loop fuel n remain b = Ret (res, b') → lastElem b' = lastElem b.
Proof.
  revert remain b. induction fuel as [|fuel IH]; intros remain b H;
    simpl in H; [done|].
  ret_step H. rename x into b1.
  assert (lastElem b1 = lastElem b) as <-.
  { ret_step Hx; [by apply fill_lastElem|]. ret_step Hx. by subst. }
  ret_step H; [by injection H as _ <-|].
  ret_step H; [by injection H as _ <-|].
  by apply IH in H.
Qed.

Lemma Discard_lastElem fuel n b res b' :
  Discard fuel n b = Ret (res, b') →
  (0 < n → lastElem b' = None) ∧ (n ≤ 0 → b' = b).
Proof.
  unfold Discard. intros H.
  ret_step H; [injection H as _ <-; split; [lia|done]|].
  ret_step H; [injection H as _ <-; split; [lia|done]|].
  apply Discard_loop_lastElem in H. split; [done|lia].
Qed.

Lemma UnreadElem_lastElem b m b' :
  UnreadElem b m = Ret (None, b') → lastElem b' = None.
Proof. unfold UnreadElem. intros H. ret_all H; by simplify_eq. Qed.

Lemma Read_lastElem p b m n e b' m' :
  Read p b m = Ret ((n, e), b', m') →
  lastElem b' = lastElem b ∨ (0 < n ∧ is_Some (lastElem b')).
Proof.
  assert (Hcopy : ∀ b, r b ≠ w b → len (load m p) ≠ 0 →
    Read_copy p b m = Ret ((n, e), b', m') →
    0 < n ∧ is_Some (lastElem b')).
  { clear b. intros b Hne Hp H. unfold Read_copy in H.
    ret_all H. injection H as <- _ <- _. bounds.
    pose proof (len_nonneg (load m p)). unfold copy_n. simpl.
    split; [lia|by eexists]. }
  unfold Read. intros H.
  ret_step H; [ret_all H; unfold readErr in *; simplify_eq; by left|].
  ret_step H; [|right; by eapply Hcopy].
  ret_step H; [simpl in H; ret_step H; simplify_eq; by left|].
  ret_step H.
  - ret_step H. destruct x as [[[k e'] pc'] s'].
    ret_step H; [done|]. ret_step H. simpl in H. ret_step H.
    simplify_eq. simpl.
    ret_step Hx0.
    + ret_all Hx0. subst x. right. split; [lia|by eexists].
    + ret_step Hx0. subst x. by left.
  - ret_step H. destruct x as [[[k e'] bf'] s'].
    ret_step H; [done|].
    ret_step H; [simpl in H; ret_step H; simplify_eq; by left|].
    right. eapply Hcopy; [|done|done]. simpl.
    apply callRead_Ret in Hx as (s & _ & -> & _).
    pose proof (wrap_range (rr_n (rd_Read s (buf b)).1)).
    rewrite Z.add_0_l, wrap_small; lia.
Qed.

Lemma ReadElem_lastElem fuel b x e b' :
  ReadElem zero fuel b = Ret ((x, e), b') →
  (e = None ∧ lastElem b' = Some (Local x))
  ∨ (is_Some e ∧ lastElem b' = lastElem b).
Proof.
  revert b. induction fuel as [|fuel IH]; intros b H; simpl in H.
  - ret_step H.
    + ret_all H. injection H as _ <- <-. right. by split; [eexists|].
    + ret_all H. injection H as <- <- <-. by left.
  - ret_step H.
    + ret_step H; [ret_all H; injection H as _ <- <-; right;
                   by split; [eexists|]|].
      ret_step H. apply fill_lastElem in Hx. apply IH in H as [?|[? ?]].
      * by left.
      * right. split; [done|congruence].
    + ret_all H. injection H as <- <- <-. by left.
Qed.

End LastElem.


Section LastElemWriter.
Context {T Src Snk : Type} `{!ReadInterface T Src} `{!WriteInterface T Snk}
        `{!WriteToInterface T Src Snk} `{!ReadFromInterface T Src Snk}.
Implicit Types (b : Reader T Src) (k : Snk).

Lemma writeBuf_lastElem b k res b' k' :
  writeBuf b k = Ret (res, b', k') → lastElem b' = lastElem b.
Proof. unfold writeBuf. intros H. ret_all H. by simplify_eq. Qed.

Lemma WriteTo_loop_lastElem fuel n b k res b' k' :
  WriteTo_loop fuel n b k = Ret (res, b', k') → lastElem b' = lastElem b.
Proof.
  revert n b k. induction fuel as [|fuel IH]; intros n b k H; simpl in H.
  - ret_step H; [done|].
    destruct (decide (err b = Some EOF)); ret_all H; by simplify_eq.
  - ret_step H;
      [|destruct (decide (err b = Some EOF)); ret_all H; by simplify_eq].
    ret_step H. destruct x as [[[n1 e1] b1] k1].
    apply writeBuf_lastElem in Hx.
    ret_step H; [by simplify_eq|].
    ret_step H. apply fill_lastElem in Hx0. apply IH in H. congruence.
Qed.

Lemma WriteTo_lastElem fuel b k res b' k' :
  WriteTo fuel b k = Ret (res, b', k') → lastElem b' = None.
Proof.
  unfold WriteTo. intros H.
  ret_step H. destruct x as [[[n1 e1] b1] k1].
  apply writeBuf_lastElem in Hx. simpl in Hx.
  ret_step H; [by simplify_eq|].
  destruct (rd b1 ≫= rd_asWriteTo) as [wt|]; [ret_all H; by simplify_eq|].
  destruct (w_asReadFrom k1) as [rf|]; [ret_all H; by simplify_eq|].
  ret_step H. apply WriteTo_loop_lastElem in H.
  ret_step Hx0; [apply fill_lastElem in Hx0|ret_step Hx0]; congruence.
Qed.

End LastElemWriter.

(** C4 (counterexample): [Discard(0)] returns before [lastElem] is cleared,
    and [fill] does not clear it: after either, on a reader that has just
    returned an element, [lastElem] is still set. *)
Lemma Discard_zero_keeps_lastElem :
  (∃ res b', Discard 1 0 read_one = Ret (res, b') ∧ lastElem b' ≠ None)
  ∧ (∃ b', fill read_one = Ret b' ∧ lastElem b' ≠ None).
Proof.
  split.
  - eexists _, _. split; [reflexivity|]. by vm_compute.
  - eexists. split; [reflexivity|]. by vm_compute.
Qed.

(** C4, amended: [lastElem] is set only by a [Read] that returned at least
    one element or a [ReadElem] that returned an element; every [Peek] with
    [n >= 0], every [Discard] with [n > 0], every [WriteTo] and every
    successful [UnreadElem] clear it; [Discard] with [n <= 0] leaves the
    reader as it is, and [fill] leaves [lastElem] as it is. *)
Theorem lastElem_lifecycle {T Src Snk : Type}
    `{!ReadInterface T Src} `{!WriteInterface T Snk}
    `{!WriteToInterface T Src Snk} `{!ReadFromInterface T Src Snk}
    (zero : T) (b : Reader T Src) (m : mem T) :
  (∀ p n e b' m', Read p b m = Ret ((n, e), b', m') →
     lastElem b' = lastElem b ∨ (0 < n ∧ is_Some (lastElem b')))
  ∧ (∀ fuel x e b', ReadElem zero fuel b = Ret ((x, e), b') →
     (e = None ∧ lastElem b' = Some (Local x))
     ∨ (is_Some e ∧ lastElem b' = lastElem b))
  ∧ (∀ fuel n res b', 0 ≤ n → Peek fuel n b = Ret (res, b') →
     lastElem b' = None)
  ∧ (∀ fuel n res b', 0 < n → Discard fuel n b = Ret (res, b') →
     lastElem b' = None)
  ∧ (∀ fuel n res b', n ≤ 0 → Discard fuel n b = Ret (res, b') → b' = b)
  ∧ (∀ fuel (k : Snk) res b' k', WriteTo fuel b k = Ret (res, b', k') →
     lastElem b' = None)
  ∧ (∀ b', UnreadElem b m = Ret (None, b') → lastElem b' = None)
  ∧ (∀ b', fill b = Ret b' → lastElem b' = lastElem b).
Proof.
  repeat split.
  - intros. by eapply Read_lastElem.
  - intros. by eapply ReadElem_lastElem.
  - intros. by eapply Peek_lastElem.
  - intros fuel n res b' Hn H. by apply Discard_lastElem in H as [? _]; auto.
  - intros fuel n res b' Hn H. by apply Discard_lastElem in H as [_ ?]; auto.
  - intros. by eapply WriteTo_lastElem.
  - intros. by eapply UnreadElem_lastElem.
  - intros. by eapply fill_lastElem.
Qed.


(** ** Read calls the source at most once *)

(** C6: one call of [Read] calls the [Read] of the source at most once, and
    when it copies from the buffer (the buffer is not empty, or the slice is
    shorter than the buffer) a positive count comes with a nil error, also
    when the count is less than the length of the slice. *)
Theorem Read_at_most_one_call {T Src : Type} `{!ReadInterface T Src}
    (p : addr) (b : Reader T (Src * nat)) (m : mem T)
    (n : Z) (e : option error) (b' : Reader T (Src * nat)) (m' : mem T) :
  Read p b m = Ret ((n, e), b', m') →
  (calls b' ≤ calls b + 1)%nat
  ∧ (r b ≠ w b ∨ len (load m p) < Size b → 0 < n → e = None).
Proof.
  assert (Hcopy : ∀ b0 : Reader T (Src * nat),
    Read_copy p b0 m = Ret ((n, e), b', m') → calls b' = calls b0 ∧ e = None).
  { intros b0 H. unfold Read_copy in H. ret_all H. by simplify_eq. }
  assert (Hcall : ∀ src q k e' q' src',
    callRead src q = Ret (k, e', q', src') →
    ∃ s c s', src = Some (s, c) ∧ src' = Some (s', S c)).
  { intros src q k e' q' src' H.
    apply callRead_Ret in H as ([s c] & -> & _ & _ & -> & _).
    rewrite counted_Read_2. by eexists _, _, _. }
  unfold Read. intros H.
  ret_step H.
  { ret_all H; unfold readErr in *; simplify_eq; simpl;
      (split; [unfold calls; simpl; lia|]); intros _ ?; (done || lia). }
  ret_step H; [|apply Hcopy in H as [-> ->]; split; [lia|done]].
  ret_step H.
  { simpl in H. ret_step H. simplify_eq. unfold calls. simpl.
    split; [lia|]. intros _ ?. lia. }
  ret_step H.
  - ret_step H. destruct x as [[[k e'] pc'] s'].
    apply Hcall in Hx as (s & c & s1 & Hs & ->).
    ret_step H; [done|]. ret_step H. simpl in H. ret_step H.
    assert (rd x = Some (s1, S c)) as Hrd.
    { ret_step Hx; ret_all Hx; by subst x. }
    simplify_eq. unfold Size in *. split; [|lia].
    unfold calls. simpl. rewrite Hs, Hrd. lia.
  - ret_step H. destruct x as [[[k e'] bf'] s'].
    apply Hcall in Hx as (s & c & s1 & Hs & ->).
    ret_step H; [done|]. ret_step H.
    + simpl in H. ret_step H. simplify_eq. unfold calls. rewrite Hs. simpl.
      split; [lia|]. intros _ ?. lia.
    + apply Hcopy in H as [-> ->]. unfold calls. rewrite Hs. simpl.
      split; [lia|done].
Qed.

Lemma Read_at_most_one_call_witness :
  (calls counted_reader_read ≤ calls counted_reader + 1)%nat
  ∧ (r counted_reader ≠ w counted_reader
     ∨ len (load [[0; 0]] 0%nat) < Size counted_reader →
     0 < 2 → @None error = None).
Proof.
  apply (Read_at_most_one_call 0%nat counted_reader [[0; 0]] 2 None
           counted_reader_read [[1; 2]]).
  reflexivity.
Defined.


(** ** Discard on an empty buffer with a pending error *)

(** [fill] on an empty buffer when the first attempt ends the loop. *)
Lemma fill_empty_once {T Src : Type} `{!ReadInterface T Src}
    (b : Reader T Src) (s : Src) :
  wf b → 0 < Size b → r b = w b → rd b = Some s →
  0 ≤ rr_n (rd_Read s (buf b)).1 ≤ Size b →
  is_Some (rr_err (rd_Read s (buf b)).1) ∨ 0 < rr_n (rd_Read s (buf b)).1 →
  fill b = Ret (mkReader (overlay (rr_data (rd_Read s (buf b)).1) (buf b))
                         (Some (rd_Read s (buf b)).2) 0
                         (rr_n (rd_Read s (buf b)).1)
                         (match rr_err (rd_Read s (buf b)).1 with
                          | Some e => Some e
                          | None => err b
                          end)
                         (lastElem b)).
Proof.
  intros [(? & ? & ?) ?] Hsz Hrw Hrd Hn Hend.
  pose proof max_int_pos. pose proof min_int_neg. unfold Size in *.
  assert (Hslide : slide b = Ret (mkReader (buf b) (rd b) 0 0 (err b)
                                           (lastElem b))).
  { unfold slide. destruct (decide (r b > 0)).
    - rewrite <- Hrw, slice_empty by lia. simpl.
      rewrite overlay_nil, Z.sub_diag. done.
    - assert (r b = 0) as Hr0 by lia. rewrite Hr0 in Hrw.
      destruct b; simpl in *. by subst. }
  unfold fill. rewrite Hslide. simpl. rewrite decide_False by lia.
  unfold maxConsecutiveEmptyReads.
  rewrite (fill_loop_S _ _ s); unfold Size; simpl;
    change (Z.to_nat 0) with 0%nat; rewrite ?drop_0; try done; try lia.
  unfold attempt. simpl. change (Z.to_nat 0) with 0%nat. rewrite drop_0.
  destruct (rr_err _) eqn:He; [done|].
  destruct Hend as [[? ?]|?]; [done|]. by rewrite decide_True by lia.
Qed.

Section DiscardPending.
Context {T Src : Type} `{!ReadInterface T Src}.
Implicit Types (b : Reader T (Src * nat)).

Lemma counted_src_ok :
  src_ok (T:=T) (Src:=Src) → src_ok (T:=T) (Src:=Src * nat).
Proof. intros H [s c] p. rewrite counted_Read_1. apply H. Qed.

(** The loop of [fill] calls the source at least once and at most as often
    as it has attempts, and leaves an error pending when one was. *)
Lemma fill_loop_calls i b s c :
  src_ok (T:=T) (Src:=Src) → wf b → rd b = Some (s, c) →
  ∃ b', fill_loop i b = Ret b'
        ∧ (c ≤ calls b' ≤ c + i)%nat ∧ ((0 < i)%nat → (c < calls b')%nat)
        ∧ (is_Some (err b) → is_Some (err b')).
Proof.
  intros Hsrc. pose proof (counted_src_ok Hsrc) as Hsrc'.
  revert b s c. induction i as [|i IH]; intros b s c Hwf Hrd.
  - rewrite fill_loop_eq. eexists. split; [done|]. unfold calls. simpl.
    rewrite Hrd. split_and!; try lia. eauto.
  - pose proof (attempt_wf b (s, c) Hsrc' Hwf) as [Hwf' _].
    pose proof Hwf as [(? & ? & ?) ?].
    pose proof (Hsrc' (s, c) (drop (Z.to_nat (w b)) (buf b))) as Hn.
    unfold Size in *. rewrite len_drop in Hn by lia.
    rewrite (fill_loop_S i b (s, c)) by (done || unfold Size; lia).
    assert (Hrda : rd (attempt b (s, c))
                   = Some ((rd_Read s (drop (Z.to_nat (w b)) (buf b))).2, S c)).
    { change (rd (attempt b (s, c)))
        with (Some (rd_Read (s, c) (drop (Z.to_nat (w b)) (buf b))).2).
      by rewrite counted_Read_2. }
    assert (Hea : err (attempt b (s, c)) = err b) by done.
    destruct (rr_err _) eqn:He.
    + eexists. split; [done|]. unfold calls.
      change (rd (set_err (Some e) (attempt b (s, c))))
        with (rd (attempt b (s, c))). rewrite Hrda.
      split_and!; try lia. simpl. eauto.
    + destruct (decide _).
      * eexists. split; [done|]. unfold calls. rewrite Hrda, Hea.
        split_and!; try lia. done.
      * destruct (IH _ _ _ Hwf' Hrda) as (b' & Hloop & Hc & _ & Herr).
        exists b'. rewrite Hea in Herr. split_and!; try done; lia.
Qed.

Lemma fill_calls b s c :
  src_ok (T:=T) (Src:=Src) → wf b → rd b = Some (s, c) →
  w b - r b < Size b →
  ∃ b', fill b = Ret b' ∧ wf b' ∧ r b' = 0
        ∧ (c < calls b' ≤ c + 100)%nat
        ∧ (is_Some (err b) → is_Some (err b')).
Proof.
  intros Hsrc Hwf Hrd Hfull.
  destruct (slide_total b Hwf) as [b1 Hb1].
  pose proof (slide_Ret _ _ Hb1 Hwf) as (Hr & Hw & Hlen & Hrd1 & He1 & _).
  pose proof Hwf as [(? & ? & ?) ?].
  assert (Hwf1 : wf b1) by (unfold wf, inv, Size in *; lia).
  rewrite Hrd in Hrd1.
  destruct (fill_loop_calls 100 b1 s c Hsrc Hwf1 Hrd1)
    as (b' & Hloop & Hc & Hpos & Herr).
  assert (Hfill : fill b = Ret b').
  { unfold fill. rewrite Hb1. simpl.
    rewrite decide_False by (unfold Size in *; lia). exact Hloop. }
  pose proof (fill_Ret b b' (counted_src_ok Hsrc) Hfill Hwf)
    as (Hwf' & Hr' & _).
  assert (c < calls b')%nat by (apply Hpos; lia).
  exists b'. rewrite He1 in Herr. split_and!; try done; lia.
Qed.

(** [fill] has a bounded loop: it returns or panics. *)
Lemma fill_loop_ends i b : fill_loop i b ≠ OutOfFuel.
Proof.
  revert b. induction i as [|i IH]; intros b; rewrite fill_loop_eq; [done|].
  destruct (checked _) as [q| |] eqn:Hq; simpl; try done.
  { unfold callRead. destruct (rd b) as [s0|]; [|done].
    destruct (rd_Read s0 q) as [res s1]. simpl.
    destruct (decide _); [done|]. destruct (rr_err res); [done|].
    destruct (decide _); [done|]. apply IH. }
  unfold checked in Hq. by destruct (slice _ _ _).
Qed.

Lemma fill_ends b : fill b ≠ OutOfFuel.
Proof.
  unfold fill, slide. destruct (decide (r b > 0)); simpl.
  - destruct (slice _ _ _); simpl; [|done].
    destruct (decide _); [done|]. apply fill_loop_ends.
  - destruct (decide _); [done|]. apply fill_loop_ends.
Qed.

(** Whatever the source returns: when the loop of [fill] returns, it has
    called the source, and an error that was pending has not been cleared. *)
Lemma fill_loop_called i b s c b' :
  rd b = Some (s, c) → fill_loop i b = Ret b' →
  (c ≤ calls b' ≤ c + i)%nat ∧ ((0 < i)%nat → (c < calls b')%nat)
  ∧ (is_Some (err b) → is_Some (err b')).
Proof.
  revert b s c. induction i as [|i IH]; intros b s c Hrd H;
    rewrite fill_loop_eq in H.
  - ret_step H. subst b'. unfold calls. simpl. rewrite Hrd.
    split_and!; try lia. eauto.
  - ret_step H. ret_step H. destruct x0 as [[[cnt er] q'] s1].
    apply callRead_Ret in Hx0 as (s0 & Hs0 & _ & _ & Hs1 & _).
    rewrite Hrd in Hs0. injection Hs0 as <-.
    rewrite counted_Read_2 in Hs1. subst s1.
    ret_step H; [done|]. destruct er as [e0|].
    + ret_step H. subst b'. unfold calls. simpl.
      split_and!; try lia. eauto.
    + ret_step H.
      * ret_step H. subst b'. unfold calls. simpl.
        split_and!; try lia. done.
      * apply (IH _ (rd_Read s x).2 (S c)) in H as (Hc & _ & He); [|done].
        simpl in He. split_and!; try done; lia.
Qed.

Lemma fill_called b s c b' :
  wf b → rd b = Some (s, c) → fill b = Ret b' →
  (c < calls b' ≤ c + 100)%nat ∧ (is_Some (err b) → is_Some (err b')).
Proof.
  intros Hwf Hrd H. unfold fill in H. ret_step H. rename x into b1.
  pose proof (slide_Ret _ _ Hx Hwf) as (_ & _ & _ & Hrd1 & He1 & _).
  ret_step H; [done|]. rewrite Hrd in Hrd1.
  apply (fill_loop_called _ _ s c) in H as (Hc & Hpos & He); [|done].
  rewrite He1 in He. unfold maxConsecutiveEmptyReads in *.
  split; [|done]. split; [apply Hpos|]; lia.
Qed.

(** [Discard(n)], [n > 0], on an empty buffer with an error pending,
    whatever the source: it does not return before the source has been
    called, and one round of its loop is all it takes. *)
Lemma Discard_pending_called fuel n b s c e1 res b' :
  wf b → r b = w b → err b = Some e1 → rd b = Some (s, c) → 0 < n →
  Discard (S fuel) n b = Ret (res, b') → (c < calls b' ≤ c + 100)%nat.
Proof.
  intros Hwf Hrw He1 Hrd Hn H. unfold Discard in H.
  rewrite !decide_False in H by lia. simpl in H.
  assert (HB : Buffered (set_lastElem None b) = 0).
  { unfold Buffered. simpl. by rewrite Hrw, Z.sub_diag. }
  rewrite decide_True in H by done.
  ret_step H. rename x into b1.
  pose proof (fill_called (set_lastElem None b) s c b1 Hwf Hrd Hx)
    as (Hc & He).
  destruct He as [e He]; [simpl; rewrite He1; eauto|].
  ret_step H; [ret_step H; injection H as _ <-; exact Hc|].
  simpl in H. rewrite He in H. ret_all H. injection H as _ <-. exact Hc.
Qed.

Lemma Discard_pending_ends fuel n b s c e1 :
  wf b → r b = w b → err b = Some e1 → rd b = Some (s, c) → 0 < n →
  Discard (S fuel) n b ≠ OutOfFuel.
Proof.
  intros Hwf Hrw He1 Hrd Hn. unfold Discard.
  rewrite !decide_False by lia. simpl.
  assert (HB : Buffered (set_lastElem None b) = 0).
  { unfold Buffered. simpl. by rewrite Hrw, Z.sub_diag. }
  rewrite decide_True by done.
  destruct (fill (set_lastElem None b)) as [b1|pn|] eqn:Hf; simpl;
    [|done|by apply fill_ends in Hf].
  pose proof (fill_called (set_lastElem None b) s c b1 Hwf Hrd Hf)
    as (_ & He).
  destruct He as [e He]; [simpl; rewrite He1; eauto|].
  destruct (decide _); [done|]. simpl. by rewrite He.
Qed.


(** [Discard(n)], [n > 0], on an empty buffer, when its [fill] leaves an
    error pending: it skips what [fill] brought and, when that is less than
    [n], returns the error. *)
Lemma Discard_after_fill fuel n b b1 e :
  r b = w b → 0 < n ≤ max_int →
  fill (set_lastElem None b) = Ret b1 → wf b1 → r b1 = 0 →
  err b1 = Some e →
  Discard (S fuel) n b
    = Ret ((Z.min n (w b1), if decide (w b1 < n) then Some e else None),
           set_err (if decide (w b1 < n) then None else Some e)
                   (set_r (Z.min n (w b1)) b1)).
Proof.
  intros Hrw Hn Hfill [(? & ? & ?) ?] Hr1 He.
  pose proof max_int_pos. pose proof min_int_neg.
  unfold Discard. rewrite !decide_False by lia. simpl.
  assert (HB : Buffered (set_lastElem None b) = 0).
  { unfold Buffered. simpl. by rewrite Hrw, Z.sub_diag. }
  rewrite decide_True by done. rewrite Hfill. simpl.
  unfold Buffered. rewrite Hr1, Z.sub_0_r, !Z.add_0_l.
  rewrite (wrap_small (w b1)) by (unfold Size in *; lia).
  rewrite He. unfold Size in *.
  destruct (decide (w b1 < n)) as [Hlt|Hge].
  - rewrite (decide_False (P := w b1 > n)) by lia.
    rewrite (wrap_small (w b1)), (wrap_small (n - w b1)) by lia.
    rewrite decide_False by lia. rewrite wrap_small by lia.
    rewrite Z.min_r by lia. do 3 f_equal. lia.
  - rewrite Z.min_l by lia.
    assert (Hb : set_err (Some e) (set_r n b1) = set_r n b1).
    { unfold set_err, set_r. simpl. by rewrite He. }
    rewrite Hb.
    destruct (decide (w b1 > n)).
    + rewrite Z.sub_diag, (wrap_small n) by lia. change (wrap 0) with 0.
      by rewrite decide_True by done.
    + assert (w b1 = n) as Hw by lia. rewrite Hw.
      rewrite Z.sub_diag, (wrap_small n) by lia. change (wrap 0) with 0.
      by rewrite decide_True by done.
Qed.

(** [fill] on an empty buffer when the source stalls on all 100 attempts. *)
Lemma fill_empty_stalls b s s' c :
  wf b → 0 < Size b → r b = w b → rd b = Some (s, c) → stalls 100 s s' →
  ∃ b', fill b = Ret b' ∧ wf b' ∧ r b' = 0 ∧ w b' = 0
        ∧ err b' = Some ErrNoProgress ∧ calls b' = (c + 100)%nat.
Proof.
  intros Hwf Hsz Hrw Hrd Hst.
  destruct (slide_total b Hwf) as [b1 Hb1].
  pose proof (slide_Ret _ _ Hb1 Hwf) as (Hr & Hw & Hlen & Hrd1 & _ & _).
  pose proof Hwf as [(? & ? & ?) ?]. unfold Size in *.
  unfold fill. rewrite Hb1. simpl. rewrite decide_False by lia.
  unfold maxConsecutiveEmptyReads.
  destruct (fill_loop_stalls 100 b1 s s' c) as (bf & Hbf & ->);
    unfold Size; try done; try lia; [congruence|].
  eexists. split; [done|]. unfold wf, inv, Size, calls in *. simpl.
  split_and!; try done; lia.
Qed.

End DiscardPending.

(** C10: with an empty buffer and a pending error [e1], [Discard(n)] for
    [n > 0] calls the source before it returns, whatever the source: when
    it returns, the source has been called at least once (and at most 100
    times), and one round of its loop is all it takes; it returns when the
    counts of the source are within bounds.  What it returns is decided by
    what the source answers: when the call returns an error [e2], [e2]
    replaces [e1], which is neither returned nor kept; when the call brings
    elements and no error, [e1] is returned after them, or kept when [n]
    elements were there; when the source stalls 100 times, [ErrNoProgress]
    replaces [e1].  [Read] and [ReadElem] in that state return [e1] and
    leave the source alone. *)
Theorem Discard_overwrites_pending_error {T Src : Type}
    `{!ReadInterface T Src} (zero : T) (fuel : nat) (n : Z)
    (b : Reader T (Src * nat)) (m : mem T) (p : addr)
    (s : Src) (c : nat) (e1 : error) :
  wf b → 0 < Size b → r b = w b → err b = Some e1 → rd b = Some (s, c) →
  0 < n ≤ max_int →
  let k := rr_n (rd_Read s (buf b)).1 in
  (Discard (S fuel) n b ≠ OutOfFuel
   ∧ ∀ res b', Discard (S fuel) n b = Ret (res, b') →
               (c < calls b' ≤ c + 100)%nat)
  ∧ (src_ok (T:=T) (Src:=Src) →
     ∃ res b', Discard (S fuel) n b = Ret (res, b'))
  ∧ (∀ e2, rr_err (rd_Read s (buf b)).1 = Some e2 → 0 ≤ k ≤ Size b →
       ∃ b', Discard (S fuel) n b
               = Ret ((Z.min n k, if decide (k < n) then Some e2 else None),
                      b')
             ∧ calls b' = S c
             ∧ err b' = (if decide (k < n) then None else Some e2))
  ∧ (rr_err (rd_Read s (buf b)).1 = None → 0 < k ≤ Size b →
       ∃ b', Discard (S fuel) n b
               = Ret ((Z.min n k, if decide (k < n) then Some e1 else None),
                      b')
             ∧ calls b' = S c
             ∧ err b' = (if decide (k < n) then None else Some e1))
  ∧ (∀ s', stalls 100 s s' →
       ∃ b', Discard (S fuel) n b = Ret ((0, Some ErrNoProgress), b')
             ∧ calls b' = (c + 100)%nat ∧ err b' = None)
  ∧ Read p b m = Ret ((0, Some e1), set_err None b, m)
  ∧ ReadElem zero fuel b = Ret ((zero, Some e1), set_err None b).
Proof.
  intros Hwf Hsz Hrw He1 Hrd Hn k.
  pose proof Hwf as [(? & ? & ?) ?].
  pose proof max_int_pos. pose proof min_int_neg.
  set (b0 := set_lastElem None b).
  assert (Hwf0 : wf b0) by done.
  (* the first answer of the source decides, when it ends the loop *)
  assert (Hfirst : ∀ e',
    0 ≤ k ≤ Size b →
    is_Some (rr_err (rd_Read s (buf b)).1) ∨ 0 < k →
    match rr_err (rd_Read s (buf b)).1 with
    | Some e2 => Some e2
    | None => Some e1
    end = Some e' →
    ∃ b', Discard (S fuel) n b
            = Ret ((Z.min n k, if decide (k < n) then Some e' else None), b')
          ∧ calls b' = S c
          ∧ err b' = (if decide (k < n) then None else Some e')).
  { intros e' Hk Hend He'.
    pose proof (fill_empty_once b0 (s, c) Hwf0 Hsz Hrw Hrd) as Hfill.
    rewrite !counted_Read_1, counted_Read_2 in Hfill.
    specialize (Hfill Hk Hend).
    change (err b0) with (err b) in Hfill.
    change (buf b0) with (buf b) in Hfill. rewrite He1, He' in Hfill.
    eexists. split.
    - rewrite (Discard_after_fill fuel n b _ e' Hrw Hn Hfill); [done| |done..].
      unfold wf, inv, Size in *. simpl. rewrite len_overlay. lia.
    - split; reflexivity. }
  split_and!.
  - apply (Discard_pending_ends fuel n b s c e1); done || lia.
  - intros res b' HD.
    apply (Discard_pending_called fuel n b s c e1 res b'); done || lia.
  - intros Hsrc.
    destruct (fill_calls b0 s c Hsrc Hwf0 Hrd) as
      (b1 & Hfill & Hwf1 & Hr1 & _ & Herr);
      [unfold Size in *; simpl; lia|].
    destruct Herr as [e He]; [simpl; rewrite He1; eauto|].
    rewrite (Discard_after_fill fuel n b b1 e Hrw Hn Hfill Hwf1 Hr1 He).
    by eexists _, _.
  - intros e2 He2 Hk. apply Hfirst; [done|left; by eexists|by rewrite He2].
  - intros Hnone Hk. apply Hfirst; [lia|right; lia|by rewrite Hnone].
  - intros s' Hst.
    destruct (fill_empty_stalls b0 s s' c Hwf0 Hsz Hrw Hrd Hst)
      as (b1 & Hfill & Hwf1 & Hr1 & Hw1 & He & Hc).
    rewrite (Discard_after_fill fuel n b b1 _ Hrw Hn Hfill Hwf1 Hr1 He).
    rewrite Hw1. destruct (decide (0 < n)); [|lia]. rewrite Z.min_r by lia.
    eexists. split; [done|]. split; [exact Hc|reflexivity].
  - unfold Read. destruct (decide (len (load m p) = 0)).
    + unfold Buffered. rewrite <- Hrw, Z.sub_diag. change (wrap 0) with 0.
      rewrite decide_False by lia. simpl. by rewrite He1.
    + rewrite decide_True by done. rewrite He1. simpl. by rewrite He1.
  - destruct fuel; simpl; rewrite decide_True by done; rewrite He1; simpl;
      by rewrite ?He1.
Qed.

Lemma Discard_overwrites_pending_error_witness :
  (Discard 1 5 pending_reader ≠ OutOfFuel
   ∧ ∀ res b', Discard 1 5 pending_reader = Ret (res, b') →
               (0 < calls b' ≤ 0 + 100)%nat)
  ∧ (src_ok (T:=Z) (Src:=chunks Z) →
     ∃ res b', Discard 1 5 pending_reader = Ret (res, b'))
  ∧ (∀ e2,
       rr_err (rd_Read (mkChunks [[1; 2; 3]] (ErrOther "boom") true)
                       (buf pending_reader)).1 = Some e2 →
       0 ≤ 3 ≤ Size pending_reader →
       ∃ b', Discard 1 5 pending_reader
               = Ret ((Z.min 5 3, if decide (3 < 5) then Some e2 else None),
                      b')
             ∧ calls b' = 1%nat
             ∧ err b' = (if decide (3 < 5) then None else Some e2))
  ∧ (rr_err (rd_Read (mkChunks [[1; 2; 3]] (ErrOther "boom") true)
                     (buf pending_reader)).1 = None →
     0 < 3 ≤ Size pending_reader →
       ∃ b', Discard 1 5 pending_reader
               = Ret ((Z.min 5 3, if decide (3 < 5) then Some EOF else None),
                      b')
             ∧ calls b' = 1%nat
             ∧ err b' = (if decide (3 < 5) then None else Some EOF))
  ∧ (∀ s', stalls 100 (mkChunks [[1; 2; 3]] (ErrOther "boom") true) s' →
       ∃ b', Discard 1 5 pending_reader = Ret ((0, Some ErrNoProgress), b')
             ∧ calls b' = (0 + 100)%nat ∧ err b' = None)
  ∧ Read 0%nat pending_reader [[0; 0]]
      = Ret ((0, Some EOF), set_err None pending_reader, [[0; 0]])
  ∧ ReadElem 0 0 pending_reader
      = Ret ((0, Some EOF), set_err None pending_reader).
Proof.
  refine (Discard_overwrites_pending_error 0 0%nat 5 pending_reader [[0; 0]]
            0%nat (mkChunks [[1; 2; 3]] (ErrOther "boom") true) 0%nat
            EOF _ _ _ _ _ _).
  - unfold wf, inv. repeat split; by vm_compute.
  - by vm_compute.
  - reflexivity.
  - reflexivity.
  - reflexivity.
  - split; by vm_compute.
Defined.


(** ** NewReaderSize *)

(** The test for a source that is a reader comes first in [NewReaderSize]:
    for a source that is a reader of capacity 64 and a requested size of 5,
    below the minimum of 16, the result is that reader, whose [Size] is 64.
    The clamp is for the readers that [NewReaderSize] makes. *)
Lemma NewReaderSize_keeps_larger_reader :
  ∃ q h b,
    NewReaderSize 0 heap64 (Some (mkReaderSource 0%nat [])) 5 = Ret (q, h)
    ∧ h !! q = Some b
    ∧ 5 < minReadBufferSize
    ∧ Size b ≠ minReadBufferSize.
Proof. eexists _, _, _. repeat split; [reflexivity..|by vm_compute]. Qed.

(** C9: when the source is a reader of capacity at least the requested
    size, [NewReaderSize] returns that same reader and changes nothing;
    otherwise it makes a new reader on the source, whose [Size] is the
    requested size clamped upward to the minimum (so the minimum, for a
    request below it). *)
Theorem NewReaderSize_spec {T Src : Type} `{!ReadInterface T Src}
    (zero : T) (h : heap T Src) (src : option Src) (size : Z) :
  (∀ q b0, src ≫= rd_asReader = Some q → h !! q = Some b0 →
           size ≤ Size b0 →
           NewReaderSize zero h src size = Ret (q, h))
  ∧ (src ≫= rd_asReader = None
     ∨ (∃ q b0, src ≫= rd_asReader = Some q ∧ h !! q = Some b0
                ∧ Size b0 < size) →
     ∃ b, NewReaderSize zero h src size = Ret (length h, h ++ [b])
          ∧ Size b = Z.max size minReadBufferSize
          ∧ (size < minReadBufferSize → Size b = minReadBufferSize)
          ∧ rd b = src ∧ r b = 0 ∧ w b = 0 ∧ err b = None
          ∧ lastElem b = None).
Proof.
  unfold NewReaderSize, Size. split.
  - intros q b0 -> -> Hsz. by rewrite decide_True by lia.
  - intros Hsrc.
    assert (Hb : ∃ b,
      Ret (length h,
           h ++ [reset (replicate
                         (Z.to_nat (if decide (size < minReadBufferSize)
                                    then minReadBufferSize else size)) zero)
                   src]) = Ret (length h, h ++ [b])
      ∧ len (buf b) = Z.max size minReadBufferSize
      ∧ (size < minReadBufferSize → len (buf b) = minReadBufferSize)
      ∧ rd b = src ∧ r b = 0 ∧ w b = 0 ∧ err b = None ∧ lastElem b = None).
    { eexists. split; [done|]. simpl. unfold len.
      rewrite length_replicate. unfold minReadBufferSize.
      destruct (decide _); repeat split; lia. }
    destruct Hsrc as [->|(q & b0 & -> & -> & Hlt)]; [done|].
    by rewrite decide_False by lia.
Qed.


(** ** WriteTo over a finite source *)

Section Drain.
Context {T : Type}.
Implicit Types (b : Reader T (chunks T)) (s : chunks T) (k : list T).

Lemma take_overlay (src dst : list T) :
  (length src ≤ length dst)%nat → take (length src) (overlay src dst) = src.
Proof.
  intros Hle. unfold overlay. rewrite (take_ge src) by lia.
  by rewrite take_app_length.
Qed.


Lemma chunks_Read_nil s (p : list T) :
  pending s = [] → rd_Read s p = (mkReadResult 0 (Some (final s)) [], s).
Proof. intros Hp. simpl. unfold chunks_Read. by rewrite Hp. Qed.





End Drain.






(** ** The valid region *)

Section Region.
Context {T Src : Type} `{!ReadInterface T Src}.
Implicit Types (b : Reader T Src).

Lemma region_slice b : wf b → slice (buf b) (r b) (w b) = Some (region b).
Proof. intros [(? & ? & ?) ?]. unfold Size in *. by apply slice_Some. Qed.

Lemma length_region b : wf b → length (region b) = Z.to_nat (w b - r b).
Proof.
  intros [(? & ? & ?) ?]. unfold region, Size, len in *.
  rewrite length_take, length_drop. lia.
Qed.

Lemma len_region b : wf b → len (region b) = w b - r b.
Proof.
  intros Hwf. unfold len. rewrite length_region by done.
  destruct Hwf as [(? & ? & ?) ?]. lia.
Qed.

Lemma region_empty b : wf b → r b = w b → region b = [].
Proof.
  intros Hwf Heq. apply length_zero_iff_nil.
  rewrite length_region by done. lia.
Qed.

Lemma region_set_r b (j : Z) :
  wf b → 0 ≤ j ≤ w b - r b →
  region (set_r (r b + j) b) = drop (Z.to_nat j) (region b).
Proof.
  intros [(? & ? & ?) ?] Hj. unfold region. simpl.
  rewrite !take_drop_commute, drop_drop. f_equal; [lia|]. f_equal. lia.
Qed.

Lemma region_cons b :
  wf b → r b ≠ w b →
  ∃ x, index (buf b) (r b) = Some x
       ∧ region b = x :: region (set_r (r b + 1) b).
Proof.
  intros Hwf Hne. pose proof Hwf as [(? & ? & ?) ?].
  rewrite region_set_r by (done || lia).
  pose proof (length_region b Hwf) as Hlen.
  destruct (region b) as [|x l] eqn:E; [simpl in Hlen; lia|].
  exists x. split; [|done].
  unfold index. rewrite decide_True by lia.
  assert (region b !! 0%nat = Some x) as Hx by (by rewrite E).
  unfold region in Hx. rewrite lookup_take_lt, lookup_drop in Hx by lia.
  by rewrite Nat.add_0_r in Hx.
Qed.

Lemma region_slide b b1 :
  slide b = Ret b1 → wf b → region b1 = region b.
Proof.
  intros H Hwf. pose proof Hwf as [(? & ? & ?) ?].
  pose proof max_int_pos. pose proof min_int_neg.
  unfold slide in H. destruct (decide (r b > 0)); [|by simplify_eq].
  rewrite region_slice in H by done. simpl in H. simplify_eq.
  unfold region at 1. simpl. rewrite wrap_small by (unfold Size in *; lia).
  rewrite Z.sub_0_r. change (Z.to_nat 0) with 0%nat. rewrite drop_0.
  rewrite <- (length_region b) by done.
  apply take_overlay. rewrite length_region by done.
  unfold Size, len in *. lia.
Qed.

Lemma region_attempt b s :
  wf b →
  0 ≤ rr_n (rd_Read s (drop (Z.to_nat (w b)) (buf b))).1 ≤ Size b - w b →
  region (attempt b s) =
    region b
    ++ take (Z.to_nat (rr_n (rd_Read s (drop (Z.to_nat (w b)) (buf b))).1))
         (overlay (rr_data (rd_Read s (drop (Z.to_nat (w b)) (buf b))).1)
                  (drop (Z.to_nat (w b)) (buf b))).
Proof.
  intros [(? & ? & ?) ?] Hn. unfold region, attempt, Size, len in *. simpl.
  set (p := drop (Z.to_nat (w b)) (buf b)) in *.
  set (res := (rd_Read s p).1) in *.
  rewrite drop_app_le by (rewrite length_take; lia).
  rewrite take_app_ge by (rewrite length_drop, length_take; lia).
  rewrite length_drop, length_take.
  rewrite (take_drop_commute (buf b)).
  f_equal; [f_equal|]; f_equal; lia.
Qed.

End Region.


(** ** What [fill] keeps *)

Section FillRegion.
Context {T Src : Type} `{!ReadInterface T Src}.
Implicit Types (b : Reader T Src).

Lemma fill_loop_region i b b' :
  src_ok → fill_loop i b = Ret b' → wf b →
  ∃ d, region b' = region b ++ d.
Proof.
  intros Hsrc. revert b. induction i as [|i IH]; intros b H Hwf.
  - rewrite fill_loop_eq in H. simplify_eq. exists []. by rewrite app_nil_r.
  - pose proof Hwf as [(? & ? & ?) ?].
    destruct (rd b) as [s|] eqn:Hrd.
    2:{ rewrite fill_loop_eq, slice_to_end, Hrd in H by (unfold Size in *; lia).
        done. }
    pose proof (Hsrc s (drop (Z.to_nat (w b)) (buf b))) as Hn.
    unfold Size in *. rewrite len_drop in Hn by lia.
    pose proof (region_attempt b s Hwf Hn) as Hreg.
    pose proof (attempt_wf b s Hsrc Hwf) as [Hwf' _].
    rewrite (fill_loop_S i b s) in H by (done || unfold Size; lia).
    destruct (rr_err _).
    + simplify_eq. eexists. exact Hreg.
    + destruct (decide _).
      * simplify_eq. eexists. exact Hreg.
      * apply IH in H as [d Hd]; [|done]. rewrite Hd, Hreg, <- app_assoc.
        by eexists.
Qed.

End FillRegion.

(** X1: [fill] keeps the elements that were read and not yet returned: the
    valid region after [fill] starts at 0 and begins with the valid region
    before it, whatever the source wrote. *)
Theorem fill_keeps_region {T Src : Type} `{!ReadInterface T Src}
    (b b' : Reader T Src) :
  src_ok → wf b → fill b = Ret b' →
  r b' = 0 ∧ ∃ d, region b' = region b ++ d ∧ len d = w b' - (w b - r b).
Proof.
  intros Hsrc Hwf H.
  pose proof (fill_Ret b b' Hsrc H Hwf) as (Hwf' & Hr' & _).
  split; [done|].
  unfold fill in H. ret_step H. rename x into b1.
  pose proof (region_slide b b1 Hx Hwf) as Hreg1.
  pose proof (slide_Ret b b1 Hx Hwf) as (Hr1 & Hw1 & Hlen1 & _).
  assert (Hwf1 : wf b1).
  { destruct Hwf as [(? & ? & ?) ?]. unfold wf, inv, Size in *. lia. }
  ret_step H; [done|].
  apply fill_loop_region in H as [d Hd]; [|done..].
  exists d. rewrite <- Hreg1. split; [done|].
  apply (f_equal len) in Hd. rewrite len_app in Hd.
  rewrite (len_region b'), (len_region b1) in Hd by done. lia.
Qed.

Lemma fill_keeps_region_witness :
  r read_one_filled = 0
  ∧ ∃ d, region read_one_filled = region read_one ++ d
         ∧ len d = w read_one_filled - (w read_one - r read_one).
Proof.
  refine (fill_keeps_region read_one read_one_filled _ _ _).
  - apply chunks_src_ok.
  - unfold wf, inv. repeat split; by vm_compute.
  - reflexivity.
Defined.


(** ** Readers on a chunk source *)

Section ChunkFill.
Context {T : Type}.
Implicit Types (b : Reader T (chunks T)) (s : chunks T).

Lemma chunks_Read_cons_err s (p c : list T) cs :
  pending s = c :: cs → c ≠ [] → p ≠ [] →
  ∃ (j : nat) e' s',
    rd_Read s p = (mkReadResult (Z.of_nat j) e' (take j c), s')
    ∧ (0 < j ≤ length p)%nat ∧ (j ≤ length c)%nat
    ∧ j = Nat.min (length p) (length c)
    ∧ concat (pending s') = drop j c ++ concat cs
    ∧ (Forall (λ c, c ≠ []) cs → Forall (λ c, c ≠ []) (pending s'))
    ∧ final s' = final s ∧ eager s' = eager s
    ∧ (e' = None ∨ (e' = Some (final s) ∧ pending s' = [])).
Proof.
  intros Hp Hc Hpne. simpl. unfold chunks_Read. rewrite Hp.
  eexists _, _, _. split; [done|].
  assert (0 < length p)%nat by (destruct p; simpl; [done|lia]).
  assert (0 < length c)%nat by (destruct c; simpl; [done|lia]).
  split; [lia|]. split; [lia|]. split; [done|]. simpl.
  destruct (drop _ c) eqn:Hd; simpl.
  - split; [done|]. split; [done|]. split; [done|]. split; [done|].
    destruct cs; [destruct (eager s)|]; auto.
  - split; [done|]. split; [by constructor|]. auto.
Qed.

Lemma fill_first (b b1 : Reader T (chunks T)) s :
  wf b → w b - r b < Size b → slide b = Ret b1 → rd b1 = Some s →
  is_Some (rr_err (rd_Read s (drop (Z.to_nat (w b1)) (buf b1))).1)
  ∨ 0 < rr_n (rd_Read s (drop (Z.to_nat (w b1)) (buf b1))).1 →
  fill b =
    Ret (match rr_err (rd_Read s (drop (Z.to_nat (w b1)) (buf b1))).1 with
         | Some e => set_err (Some e) (attempt b1 s)
         | None => attempt b1 s
         end).
Proof.
  intros Hwf Hfull Hb1 Hrd Hend.
  pose proof (slide_Ret _ _ Hb1 Hwf) as (Hr1 & Hw1 & Hlen1 & _).
  pose proof Hwf as [(? & ? & ?) ?]. unfold Size in *.
  unfold fill. rewrite Hb1. simpl. rewrite decide_False by lia.
  pose proof (chunks_src_ok s (drop (Z.to_nat (w b1)) (buf b1))) as Hn.
  rewrite len_drop in Hn by lia.
  unfold maxConsecutiveEmptyReads.
  rewrite (fill_loop_S _ _ s) by (done || unfold Size; lia).
  destruct (rr_err _); [done|].
  destruct Hend as [[? ?]|?]; [done|]. by rewrite decide_True by lia.
Qed.

Lemma fill_chunks b s :
  chunk_ok b s → w b - r b < Size b →
  ∃ b' s',
    fill b = Ret b' ∧ chunk_ok b' s' ∧ stream b' = stream b
    ∧ Size b' = Size b ∧ lastElem b' = lastElem b
    ∧ final s' = final s ∧ eager s' = eager s ∧ r b' = 0
    ∧ (∃ d, region b' = region b ++ d)
    ∧ (pending s = [] →
       err b' = Some (final s) ∧ region b' = region b ∧ s' = s)
    ∧ (pending s ≠ [] → length (region b) < length (region b'))%nat.
Proof.
  intros (Hwf & Hsz & Hrd & Hall & Herr) Hfull.
  destruct (slide_total b Hwf) as [b1 Hb1].
  pose proof (slide_Ret _ _ Hb1 Hwf) as (Hr1 & Hw1 & Hlen1 & Hrd1 & He1 & Hl1).
  pose proof (region_slide _ _ Hb1 Hwf) as Hreg1.
  pose proof Hwf as [(? & ? & ?) ?].
  assert (Hwf1 : wf b1) by (unfold wf, inv, Size in *; lia).
  rewrite Hrd in Hrd1.
  set (p := drop (Z.to_nat (w b1)) (buf b1)).
  assert (Hp : p ≠ []).
  { intros Hp. apply (f_equal len) in Hp. unfold p in Hp.
    rewrite len_drop in Hp by (unfold Size in *; lia).
    unfold Size, len in *. simpl in Hp. lia. }
  pose proof (attempt_wf b1 s chunks_src_ok Hwf1) as [Hwfa Hsza].
  pose proof (chunks_src_ok s p) as Hn. unfold p in Hn.
  rewrite len_drop in Hn by (unfold Size in *; lia).
  pose proof (region_attempt b1 s Hwf1 Hn) as Hrega. fold p in Hrega, Hn.
  destruct (pending s) as [|c cs] eqn:Hpend.
  - pose proof (chunks_Read_nil s p Hpend) as Hread.
    assert (Hend :
      is_Some (rr_err (rd_Read s (drop (Z.to_nat (w b1)) (buf b1))).1)
      ∨ 0 < rr_n (rd_Read s (drop (Z.to_nat (w b1)) (buf b1))).1).
    { fold p. rewrite Hread. left. by eexists. }
    rewrite (fill_first b b1 s Hwf Hfull Hb1 Hrd1 Hend).
    assert (Hrda : rd (attempt b1 s) = Some s).
    { unfold attempt. fold p. by rewrite Hread. }
    assert (Hwa : w (attempt b1 s) = w b1).
    { unfold attempt. fold p. rewrite Hread. simpl. lia. }
    fold p. rewrite Hread in Hrega, Hn |- *. simpl in Hrega, Hn |- *.
    assert (Hreg : region (attempt b1 s) = region b).
    { rewrite Hrega, app_nil_r. done. }
    exists (set_err (Some (final s)) (attempt b1 s)), s.
    assert (Hsz' : Size (attempt b1 s) = Size b).
    { rewrite Hsza. unfold Size. done. }
    assert (chunk_ok (set_err (Some (final s)) (attempt b1 s)) s).
    { unfold chunk_ok. split; [exact Hwfa|]. split.
      { change (0 < Size (attempt b1 s)). rewrite Hsz'; exact Hsz. }
      split; [exact Hrda|]. split; [by rewrite Hpend|].
      right. by rewrite Hpend. }
    assert (stream (set_err (Some (final s)) (attempt b1 s)) = stream b).
    { unfold stream. change (region (set_err _ ?x)) with (region x).
      change (rd (set_err _ ?x)) with (rd x). by rewrite Hrda, Hrd, Hreg. }
    assert (∃ d, region (set_err (Some (final s)) (attempt b1 s))
                 = region b ++ d).
    { exists []. change (region (set_err _ ?x)) with (region x).
      by rewrite Hreg, app_nil_r. }
    assert (lastElem (set_err (Some (final s)) (attempt b1 s)) = lastElem b)
      by (simpl; congruence).
    split_and!; done.
  - apply Forall_cons in Hall as [Hc Hcs].
    destruct (chunks_Read_cons_err s p c cs Hpend Hc Hp)
      as (j & e' & s' & Hread & Hj & Hjc & _ & Hrem & Hall' & Hfin & Heag
          & He').
    assert (Hend :
      is_Some (rr_err (rd_Read s (drop (Z.to_nat (w b1)) (buf b1))).1)
      ∨ 0 < rr_n (rd_Read s (drop (Z.to_nat (w b1)) (buf b1))).1).
    { fold p. rewrite Hread. simpl. right. lia. }
    rewrite (fill_first b b1 s Hwf Hfull Hb1 Hrd1 Hend).
    assert (Hrda : rd (attempt b1 s) = Some s').
    { unfold attempt. fold p. by rewrite Hread. }
    assert (Hwa : w (attempt b1 s) = w b1 + Z.of_nat j).
    { unfold attempt. fold p. by rewrite Hread. }
    fold p. rewrite Hread in Hrega, Hn |- *. simpl in Hrega, Hn |- *.
    assert (Hreg : region (attempt b1 s) = region b ++ take j c).
    { rewrite Hrega, Hreg1, Nat2Z.id. f_equal.
      rewrite <- (take_overlay (take j c) p) at 2;
        rewrite length_take; [f_equal|]; lia. }
    assert (Herr1 : err b1 = None).
    { rewrite He1. destruct Herr as [?|[_ ?]]; [done|congruence]. }
    assert (Herra : err (attempt b1 s) = None) by done.
    assert (Hsz' : Size (attempt b1 s) = Size b).
    { rewrite Hsza. unfold Size. done. }
    assert (0 < j)%nat by lia.
    assert (length (take j c) = j) as Hlj by (rewrite length_take; lia).
    assert (Hstream : region (attempt b1 s) ++ concat (pending s')
                      = region b ++ c ++ concat cs).
    { rewrite Hreg, Hrem, <- app_assoc.
      by rewrite (app_assoc (take j c)), take_drop. }
    assert (Hra : r (attempt b1 s) = 0) by (unfold attempt; done).
    assert (Hla : lastElem (attempt b1 s) = lastElem b)
      by (simpl; congruence).
    assert (Hgrow : (length (region b) < length (region (attempt b1 s)))%nat).
    { rewrite Hreg, length_app, Hlj. lia. }
    assert (Hpre : ∃ d, region (attempt b1 s) = region b ++ d) by by eexists.
    destruct He' as [->|[-> Hnil]].
    + exists (attempt b1 s), s'.
      assert (chunk_ok (attempt b1 s) s').
      { unfold chunk_ok. split; [exact Hwfa|]. split; [rewrite Hsz'; exact Hsz|].
        split; [exact Hrda|]. split; [apply Hall'; exact Hcs|]. by left. }
      assert (stream (attempt b1 s) = stream b).
      { unfold stream. rewrite Hrda, Hrd, Hpend. exact Hstream. }
      split_and!; done.
    + exists (set_err (Some (final s)) (attempt b1 s)), s'.
      assert (chunk_ok (set_err (Some (final s)) (attempt b1 s)) s').
      { unfold chunk_ok. split; [exact Hwfa|]. split.
        { change (0 < Size (attempt b1 s)). rewrite Hsz'; exact Hsz. }
        split; [exact Hrda|]. split; [apply Hall'; exact Hcs|].
        right. by rewrite Hfin. }
      assert (stream (set_err (Some (final s)) (attempt b1 s)) = stream b).
      { unfold stream. change (region (set_err _ ?x)) with (region x).
        change (rd (set_err _ ?x)) with (rd x).
        rewrite Hrda, Hrd, Hpend. exact Hstream. }
      split_and!; done.
Qed.

End ChunkFill.


Section ChunkRead.
Context {T : Type}.
Variable zero : T.
Implicit Types (b : Reader T (chunks T)) (s : chunks T).

Lemma ReadElem_buffered fuel b s :
  chunk_ok b s → r b ≠ w b →
  ∃ x rest b',
    stream b = x :: rest
    ∧ ReadElem zero fuel b = Ret ((x, None), b')
    ∧ chunk_ok b' s ∧ stream b' = rest ∧ lastElem b' = Some (Local x)
    ∧ region b = x :: region b'.
Proof.
  intros (Hwf & Hsz & Hrd & Hall & Herr) Hne.
  pose proof Hwf as [(? & ? & ?) ?].
  pose proof max_int_pos. pose proof min_int_neg.
  destruct (region_cons b Hwf Hne) as (x & Hx & Hreg).
  exists x, (region (set_r (r b + 1) b) ++ concat (pending s)),
         (set_lastElem (Some (Local x)) (set_r (r b + 1) b)).
  split; [unfold stream; by rewrite Hrd, Hreg|].
  split.
  { destruct fuel; simpl; rewrite decide_False by done; rewrite Hx; simpl;
      by rewrite wrap_small by (unfold Size in *; lia). }
  split.
  { unfold chunk_ok, wf, inv, Size in *. simpl. split_and!; try done; lia. }
  split; [unfold stream; simpl; by rewrite Hrd|].
  split; [done|]. exact Hreg.
Qed.

Lemma ReadElem_chunks fuel b s :
  chunk_ok b s →
  ∃ res b' s',
    ReadElem zero (S fuel) b = Ret (res, b') ∧ chunk_ok b' s'
    ∧ final s' = final s ∧ eager s' = eager s
    ∧ match stream b with
      | x :: rest => res = (x, None) ∧ stream b' = rest
      | [] => res = (zero, Some (final s)) ∧ stream b' = [] ∧ err b' = None
              ∧ s' = s
      end.
Proof.
  intros Hok. pose proof Hok as (Hwf & Hsz & Hrd & Hall & Herr).
  pose proof Hwf as [(? & ? & ?) ?].
  destruct (decide (r b = w b)) as [Heq|Hne].
  2:{ destruct (ReadElem_buffered (S fuel) b s Hok Hne)
        as (x & rest & b' & Hs & Hread & Hok' & Hs' & _).
      exists (x, None), b', s. rewrite Hs. by split_and!. }
  pose proof (region_empty b Hwf Heq) as Hreg.
  assert (Hend : ∀ fuel' b1,
    chunk_ok b1 s → r b1 = w b1 → err b1 = Some (final s) →
    pending s = [] →
    ∃ b', ReadElem zero fuel' b1 = Ret ((zero, Some (final s)), b')
          ∧ chunk_ok b' s ∧ stream b' = [] ∧ err b' = None).
  { intros fuel' b1 Hok1 Heq1 He1 Hp1.
    pose proof Hok1 as (Hwf1 & Hsz1 & Hrd1 & Hall1 & _).
    exists (set_err None b1). split.
    { destruct fuel'; simpl; rewrite decide_True by done; rewrite He1; simpl;
        by rewrite ?He1. }
    split; [unfold chunk_ok; split_and!; try done; by left|].
    split; [|done]. unfold stream. simpl.
    change (region (set_err None b1)) with (region b1).
    by rewrite (region_empty b1 Hwf1 Heq1), Hrd1, Hp1. }
  destruct Herr as [Hnone|[Hsome Hp]].
  - destruct (fill_chunks b s Hok) as
      (b1 & s1 & Hfill & Hok1 & Hs1 & _ & _ & Hfin & Heag & Hr1 & _ & Hnil
       & Hcons); [lia|].
    simpl. rewrite decide_True, Hnone, Hfill by done. simpl.
    pose proof Hok1 as (Hwf1 & _).
    assert (pending s = [] ∨ pending s ≠ []) as [Hp|Hp]
      by (destruct (pending s); [by left|by right]).
    + destruct (Hnil Hp) as (He1 & Hreg1 & ->).
      assert (r b1 = w b1) as Heq1.
      { pose proof (len_region b1 Hwf1) as Hl. rewrite Hreg1, Hreg in Hl.
        unfold len in Hl. simpl in Hl. lia. }
      destruct (Hend fuel b1 Hok1 Heq1 He1 Hp) as (b' & Hread & ? & ? & ?).
      exists (zero, Some (final s)), b', s.
      unfold stream at 1. rewrite Hrd, Hreg, Hp. simpl. by split_and!.
    + assert (r b1 ≠ w b1) as Hne1.
      { pose proof (Hcons Hp) as Hlt.
        pose proof (length_region b1 Hwf1). lia. }
      destruct (ReadElem_buffered fuel b1 s1 Hok1 Hne1)
        as (x & rest & b' & Hs & Hread & Hok' & Hs' & _).
      exists (x, None), b', s1. rewrite <- Hs1, Hs. by split_and!.
  - destruct (Hend (S fuel) b Hok Heq Hsome Hp) as (b' & Hread & ? & ? & ?).
    exists (zero, Some (final s)), b', s.
    unfold stream at 1. rewrite Hrd, Hreg, Hp. simpl. by split_and!.
Qed.

End ChunkRead.


Lemma chunk_reader_ok : chunk_ok chunk_reader chunk_source.
Proof.
  unfold chunk_ok.
  split; [unfold wf, inv; repeat split; by vm_compute|].
  split; [by vm_compute|]. split; [reflexivity|].
  split; [by repeat constructor|by left].
Qed.

(** X2: [ReadElem] on a chunk source returns the elements of the stream in
    order: the next element while there is one (filling once when the buffer
    is empty), and the error of the source once, cleared, at the end. *)
Theorem ReadElem_stream {T : Type} (zero : T) (fuel : nat)
    (b : Reader T (chunks T)) (s : chunks T) :
  chunk_ok b s →
  (∀ x rest, stream b = x :: rest →
     ∃ b' s', ReadElem zero (S fuel) b = Ret ((x, None), b')
              ∧ chunk_ok b' s' ∧ stream b' = rest)
  ∧ (stream b = [] →
     ∃ b', ReadElem zero (S fuel) b = Ret ((zero, Some (final s)), b')
           ∧ chunk_ok b' s ∧ stream b' = [] ∧ err b' = None).
Proof.
  intros Hok.
  destruct (ReadElem_chunks zero fuel b s Hok)
    as (res & b' & s' & Hread & Hok' & Hfin & _ & Hres).
  split.
  - intros x rest Hs. rewrite Hs in Hres. destruct Hres as [-> ?].
    by exists b', s'.
  - intros Hs. rewrite Hs in Hres. destruct Hres as (-> & ? & ? & ->).
    by exists b'.
Qed.

Lemma ReadElem_stream_witness :
  (∀ x rest, stream chunk_reader = x :: rest →
     ∃ b' s', ReadElem 0 1 chunk_reader = Ret ((x, None), b')
              ∧ chunk_ok b' s' ∧ stream b' = rest)
  ∧ (stream chunk_reader = [] →
     ∃ b', ReadElem 0 1 chunk_reader
             = Ret ((0, Some (final chunk_source)), b')
           ∧ chunk_ok b' chunk_source ∧ stream b' = [] ∧ err b' = None).
Proof.
  apply (ReadElem_stream 0 0%nat chunk_reader chunk_source).
  apply chunk_reader_ok.
Defined.


(** X3: Calling [ReadElem] again and again on a chunk source returns the
    stream, in order, without loss or repetition, and then the error of the source:
    [n] calls return the first [n] elements of the stream, and the error when
    the stream is shorter than [n]. *)
Theorem read_elems_stream {T : Type} (zero : T) (fuel n : nat)
    (b : Reader T (chunks T)) (s : chunks T) :
  chunk_ok b s →
  ∃ b' s',
    read_elems zero (S fuel) n b
      = Ret ((take n (stream b),
              if decide (n ≤ length (stream b))%nat then None
              else Some (final s)), b')
    ∧ chunk_ok b' s' ∧ stream b' = drop n (stream b) ∧ final s' = final s.
Proof.
  revert b s. induction n as [|n IH]; intros b s Hok.
  - exists b, s. simpl. by rewrite take_0, drop_0.
  - destruct (ReadElem_chunks zero fuel b s Hok)
      as (res & b1 & s1 & Hread & Hok1 & Hfin & _ & Hres).
    cbn [read_elems]. rewrite Hread. simpl.
    destruct (stream b) as [|x rest] eqn:Hs.
    + destruct Hres as (-> & Hs1 & _ & ->). simpl.
      exists b1, s. by split_and!.
    + destruct Hres as (-> & Hs1).
      destruct (IH b1 s1 Hok1) as (b2 & s2 & -> & Hok2 & Hs2 & Hfin2).
      exists b2, s2. rewrite Hs1 in *. simpl. rewrite Hfin.
      split_and!; try done; [|congruence].
      do 3 f_equal.
      destruct (decide (n ≤ length rest)%nat), (decide (S n ≤ S (length rest))%nat);
        (done || lia).
Qed.

Lemma read_elems_stream_witness :
  ∃ b' s',
    read_elems 0 1 5 chunk_reader
      = Ret ((take 5 (stream chunk_reader),
              if decide (5 ≤ length (stream chunk_reader))%nat then None
              else Some (final chunk_source)), b')
    ∧ chunk_ok b' s' ∧ stream b' = drop 5 (stream chunk_reader)
    ∧ final s' = final chunk_source.
Proof.
  apply (read_elems_stream 0 0%nat 5%nat chunk_reader chunk_source).
  apply chunk_reader_ok.
Defined.


Section ChunkBulkRead.
Context {T : Type}.
Implicit Types (b : Reader T (chunks T)) (s : chunks T) (m : mem T).

Lemma overlay_take_min (src dst : list T) :
  overlay (take (Nat.min (length dst) (length src)) src) dst = overlay src dst.
Proof.
  destruct (Nat.le_ge_cases (length dst) (length src)).
  - rewrite Nat.min_l by lia. unfold overlay.
    rewrite take_take, Nat.min_id, length_take.
    rewrite !drop_ge by lia. done.
  - rewrite Nat.min_r by lia. by rewrite take_ge by lia.
Qed.

Lemma insert_load m (p : addr) : <[p := load m p]> m = m.
Proof.
  unfold load. destruct (m !! p) as [l|] eqn:E; simpl.
  - by apply list_insert_id.
  - apply list_insert_ge. by apply lookup_ge_None.
Qed.

Lemma Read_copy_chunks p b s m :
  chunk_ok b s → r b ≠ w b → load m p ≠ [] →
  ∃ n : nat,
    n = Nat.min (length (load m p)) (length (region b)) ∧ (0 < n)%nat
    ∧ Read_copy p b m
      = Ret ((Z.of_nat n, None),
             set_lastElem (Some (InBuf (r b + Z.of_nat n - 1)))
                          (set_r (r b + Z.of_nat n) b),
             <[p := overlay (region b) (load m p)]> m).
Proof.
  intros (Hwf & Hsz & Hrd & Hall & Herr) Hne Hpc.
  pose proof Hwf as [(? & ? & ?) ?].
  pose proof max_int_pos. pose proof min_int_neg.
  pose proof (length_region b Hwf) as Hlen.
  assert (0 < length (load m p))%nat by (destruct (load m p); simpl; [done|lia]).
  eexists. split; [done|]. split; [lia|].
  unfold Read_copy. rewrite region_slice by done. simpl.
  unfold copy_n, len. rewrite <- Nat2Z.inj_min.
  set (n := Nat.min _ _). unfold Size, len in *.
  rewrite (wrap_small (r b + Z.of_nat n)) by lia.
  rewrite (wrap_small (r b + Z.of_nat n - 1)) by lia.
  unfold index. rewrite decide_True by lia.
  destruct (lookup_lt_is_Some_2 (buf b) (Z.to_nat (r b + Z.of_nat n - 1)))
    as [x Hx]; [lia|].
  by rewrite Hx.
Qed.

Lemma Read_copy_stream p b s m :
  chunk_ok b s → r b ≠ w b → load m p ≠ [] →
  ∃ (n : nat) b',
    Read_copy p b m
      = Ret ((Z.of_nat n, None), b',
             <[p := overlay (take n (stream b)) (load m p)]> m)
    ∧ (0 < n ≤ length (load m p))%nat
    ∧ chunk_ok b' s ∧ stream b' = drop n (stream b).
Proof.
  intros Hok Hne Hpc.
  destruct (Read_copy_chunks p b s m Hok Hne Hpc) as (n & Hn & Hpos & Hread).
  destruct Hok as (Hwf & Hsz & Hrd & Hall & Herr).
  pose proof Hwf as [(? & ? & ?) ?].
  pose proof (length_region b Hwf) as Hlen.
  exists n. eexists. split; [|split; [lia|split]].
  - rewrite Hread. do 2 f_equal. f_equal. unfold stream.
    rewrite take_app_le by lia. rewrite Hn. by rewrite overlay_take_min.
  - unfold chunk_ok, wf, inv, Size in *. simpl. split_and!; try done; lia.
  - unfold stream. simpl.
    change (region (set_lastElem ?l ?x)) with (region x).
    rewrite region_set_r by (done || lia). rewrite Nat2Z.id, Hrd.
    by rewrite drop_app_le by lia.
Qed.


Lemma Read_chunks p b s m :
  chunk_ok b s → len (load m p) ≤ max_int →
  ∃ (n : nat) e b' s',
    Read p b m
      = Ret ((Z.of_nat n, e), b',
             <[p := overlay (take n (stream b)) (load m p)]> m)
    ∧ (n ≤ length (load m p))%nat
    ∧ chunk_ok b' s' ∧ stream b' = drop n (stream b) ∧ final s' = final s
    ∧ (load m p ≠ [] → stream b ≠ [] → (0 < n)%nat)
    ∧ (e = None ∨ (e = Some (final s) ∧ stream b' = []))
    ∧ (load m p ≠ [] → stream b = [] → e = Some (final s)).
Proof.
  intros Hok Hmax. pose proof Hok as (Hwf & Hsz & Hrd & Hall & Herr).
  pose proof Hwf as [(? & ? & ?) ?].
  pose proof max_int_pos. pose proof min_int_neg.
  pose proof (length_region b Hwf) as Hlen.
  (* the result when nothing is read and the pending error is returned *)
  assert (Hpend : ∀ b0 : Reader T (chunks T),
    chunk_ok b0 s → r b0 = w b0 → stream b0 = stream b →
    (load m p ≠ [] → err b0 = Some (final s)) →
    ∃ (n : nat) e b' s',
      Ret ((0, err b0), set_err None b0, m)
        = Ret ((Z.of_nat n, e), b',
               <[p := overlay (take n (stream b)) (load m p)]> m)
      ∧ (n ≤ length (load m p))%nat
      ∧ chunk_ok b' s' ∧ stream b' = drop n (stream b) ∧ final s' = final s
      ∧ (load m p ≠ [] → stream b ≠ [] → (0 < n)%nat)
      ∧ (e = None ∨ (e = Some (final s) ∧ stream b' = []))
      ∧ (load m p ≠ [] → stream b = [] → e = Some (final s))).
  { intros b0 Hok0 Heq0 Hs0 He0.
    pose proof Hok0 as (Hwf0 & Hsz0 & Hrd0 & Hall0 & Herr0).
    pose proof (region_empty b0 Hwf0 Heq0) as Hreg0.
    exists 0%nat, (err b0), (set_err None b0), s.
    assert (Hs0' : stream (set_err None b0) = stream b) by (by rewrite <- Hs0).
    assert (Hnil : is_Some (err b0) → stream b = []).
    { intros [e He]. destruct Herr0 as [?|[_ Hp]]; [congruence|].
      rewrite <- Hs0. unfold stream. by rewrite Hreg0, Hrd0, Hp. }
    split_and!.
    - rewrite take_0, overlay_nil, insert_load. done.
    - lia.
    - unfold chunk_ok. split_and!; try done. by left.
    - by rewrite drop_0.
    - done.
    - intros Hpc Hne. exfalso. apply Hne, Hnil. rewrite He0 by done.
      by eexists.
    - destruct Herr0 as [Hx|[Hx Hp]]; [by left|right].
      split; [done|]. rewrite Hs0'. apply Hnil. rewrite Hx. by eexists.
    - intros Hpc _. by apply He0. }
  unfold Read.
  destruct (decide (len (load m p) = 0)) as [Hz|Hnz].
  { (* an empty slice *)
    assert (load m p = []) as Hnil.
    { destruct (load m p); [done|]. unfold len in Hz. simpl in Hz. lia. }
    unfold Buffered. rewrite wrap_small by (unfold Size in *; lia).
    destruct (decide (w b - r b > 0)).
    - exists 0%nat, None, b, s. rewrite take_0, overlay_nil, insert_load.
      rewrite drop_0. split_and!; try done; try lia. by left.
    - unfold readErr. cbv beta iota zeta. apply Hpend; try done; try lia. }
  assert (Hpc : load m p ≠ []).
  { intros Hnil. rewrite Hnil in Hnz. done. }
  destruct (decide (r b = w b)) as [Heq|Hne].
  2:{ (* copy from the buffer *)
      destruct (Read_copy_stream p b s m Hok Hne Hpc)
        as (n & b' & Hread & Hn & Hok' & Hs').
      exists n, None, b', s.
      split_and!; try done; try lia; [by left|].
      intros _ Hs. exfalso.
      pose proof (f_equal length Hs) as Hl. unfold stream in Hl.
      rewrite length_app in Hl. simpl in Hl. lia. }
  pose proof (region_empty b Hwf Heq) as Hreg.
  destruct (err b) as [e0|] eqn:He.
  { (* a pending error *)
    unfold readErr. cbv beta iota zeta. apply Hpend; try done. intros _.
    destruct Herr as [?|[? _]]; congruence. }
  assert (Hs : stream b = concat (pending s)).
  { unfold stream. by rewrite Hreg, Hrd. }
  rewrite Hrd. unfold callRead.
  assert (pending s = [] ∨ pending s ≠ []) as [Hp|Hp]
    by (destruct (pending s); [by left|by right]).
  { (* the source is exhausted: both paths return its error *)
    assert (Hres : ∀ bf : list T, len bf = len (buf b) →
      ∀ r0, 0 ≤ r0 ≤ len bf →
      ∃ (n : nat) e b' s',
        Ret ((0, Some (final s)),
             mkReader bf (Some s) r0 r0 None (lastElem b), m)
          = Ret ((Z.of_nat n, e), b',
                 <[p := overlay (take n (stream b)) (load m p)]> m)
        ∧ (n ≤ length (load m p))%nat
        ∧ chunk_ok b' s' ∧ stream b' = drop n (stream b) ∧ final s' = final s
        ∧ (load m p ≠ [] → stream b ≠ [] → (0 < n)%nat)
        ∧ (e = None ∨ (e = Some (final s) ∧ stream b' = []))
        ∧ (load m p ≠ [] → stream b = [] → e = Some (final s))).
    { intros bf Hbf r0 Hr0.
      exists 0%nat, (Some (final s)),
        (mkReader bf (Some s) r0 r0 None (lastElem b)), s.
      assert (Hwf' : wf (mkReader bf (Some s) r0 r0 None (lastElem b))).
      { unfold wf, inv, Size in *. simpl. lia. }
      assert (Hs' : stream (mkReader bf (Some s) r0 r0 None (lastElem b)) = []).
      { unfold stream. rewrite region_empty by done. simpl. by rewrite Hp. }
      assert (Hsb : stream b = []) by (by rewrite Hs, Hp).
      split_and!; try done; try lia.
      - rewrite take_0, overlay_nil, insert_load. done.
      - unfold chunk_ok, Size in *. simpl.
        split_and!; try done; try lia; by left.
      - by rewrite Hs', Hsb.
      - by right. }
    rewrite chunks_Read_nil by done. rewrite chunks_Read_nil by done.
    simpl. rewrite wrap_small by lia. rewrite overlay_nil, overlay_nil.
    destruct (decide (len (load m p) >= len (buf b))).
    - simpl. rewrite insert_load. rewrite Heq.
      apply (Hres (buf b) eq_refl (w b)). unfold Size in *; lia.
    - simpl. apply (Hres (buf b) eq_refl 0). unfold Size in *; lia. }
  destruct (pending s) as [|c cs] eqn:Hpd; [done|].
  assert (Hc : c ≠ []) by (by inversion Hall).
  assert (Hcs : Forall (λ c : list T, c ≠ []) cs) by (by inversion Hall).
  simpl in Hs.
  destruct (decide (len (load m p) >= len (buf b))) as [Hbig|Hsmall].
  { (* the destination is at least the buffer size: one direct read *)
    destruct (chunks_Read_cons_err s (load m p) c cs Hpd Hc Hpc)
      as (j & e' & s' & Hread & Hj & Hjc & Hjm & Hcat & Hfa & Hfin & Heag & He').
    rewrite Hread. simpl.
    assert (Hjz : wrap (Z.of_nat j) = Z.of_nat j).
    { apply wrap_small. unfold len in *. lia. }
    assert (Z.of_nat j ≤ max_int) by (unfold len in *; lia).
    rewrite Hjz. rewrite (decide_False (P := Z.of_nat j < 0)) by lia.
    rewrite (decide_True (P := Z.of_nat j > 0)) by lia.
    rewrite (wrap_small (Z.of_nat j - 1)) by lia.
    destruct (index (overlay (take j c) (load m p)) (Z.of_nat j - 1))
      as [x|] eqn:Hidx.
    2:{ exfalso. unfold index in Hidx. rewrite decide_True in Hidx by lia.
        apply lookup_ge_None in Hidx. rewrite length_overlay in Hidx. lia. }
    simpl.
    set (b' := set_err None
         (set_lastElem (Some (InDest p (Z.of_nat j - 1)))
            (mkReader (buf b) (Some s') (r b) (w b) e' (lastElem b)))).
    assert (Hwf' : wf b') by (unfold wf, inv, Size in *; simpl; lia).
    assert (Hreg' : region b' = []) by (by apply region_empty).
    assert (Hs' : stream b' = drop j (stream b)).
    { unfold stream at 1. rewrite Hreg'. simpl. rewrite Hcat, Hs.
      by rewrite drop_app_le by lia. }
    assert (Htk : take j (stream b) = take j c).
    { rewrite Hs. by rewrite take_app_le by lia. }
    assert (Hok' : chunk_ok b' s').
    { unfold chunk_ok. split_and!; try done; [by apply Hfa|by left]. }
    assert (Hsne : stream b ≠ []).
    { rewrite Hs. destruct c; [done|]. done. }
    exists j, e', b', s'. rewrite Htk.
    split_and!; try done; try lia.
    destruct He' as [?|[? Hp']]; [by left|right]. split; [done|].
    unfold stream. rewrite Hreg'. simpl. by rewrite Hp'. }
  (* a smaller destination: one read into the buffer, then a copy *)
  assert (Hbne : buf b ≠ []).
  { intros Hn. unfold Size, len in Hsz. rewrite Hn in Hsz. simpl in Hsz. lia. }
  destruct (chunks_Read_cons_err s (buf b) c cs Hpd Hc Hbne)
    as (j & e' & s' & Hread & Hj & Hjc & Hjm & Hcat & Hfa & Hfin & Heag & He').
  rewrite Hread. simpl.
  assert (Hjb : Z.of_nat j ≤ Size b) by (unfold Size, len; lia).
  rewrite (wrap_small (Z.of_nat j)) by lia.
  rewrite (decide_False (P := Z.of_nat j < 0)) by lia.
  rewrite (decide_False (P := Z.of_nat j = 0)) by lia.
  rewrite Z.add_0_l. rewrite (wrap_small (Z.of_nat j)) by lia.
  set (b1 := set_w (Z.of_nat j)
         (mkReader (overlay (take j c) (buf b)) (Some s') 0 0 e' (lastElem b))).
  assert (Hlb : length (overlay (take j c) (buf b)) = length (buf b))
    by apply length_overlay.
  assert (Hwf1 : wf b1).
  { unfold wf, inv, Size, len in *. simpl. rewrite Hlb. lia. }
  assert (Hreg1 : region b1 = take j c).
  { unfold region. simpl. rewrite Z.sub_0_r, Nat2Z.id, drop_0.
    rewrite <- (take_overlay (take j c) (buf b)) at 2
      by (rewrite length_take; lia).
    f_equal. rewrite length_take. lia. }
  assert (Hs1 : stream b1 = stream b).
  { unfold stream at 1. rewrite Hreg1. simpl. rewrite Hcat, Hs.
    by rewrite app_assoc, take_drop. }
  assert (Hok1 : chunk_ok b1 s').
  { unfold chunk_ok. split_and!; try done.
    - unfold Size, len in *. simpl. rewrite Hlb. lia.
    - by apply Hfa.
    - simpl. by rewrite Hfin. }
  assert (Hne1 : r b1 ≠ w b1) by (simpl; lia).
  destruct (Read_copy_stream p b1 s' m Hok1 Hne1 Hpc)
    as (n & b' & Hrc & Hn & Hok' & Hs').
  rewrite Hs1 in Hrc, Hs'.
  exists n, None, b', s'.
  assert (Hsne : stream b ≠ []).
  { rewrite Hs. destruct c; [done|]. done. }
  split_and!; try done; try lia. by left.
Qed.


End ChunkBulkRead.

(** X4: [Read] on a chunk source copies the next elements of the stream into
    the destination, in order: the count it returns is that of the elements
    written at the front of [p], the rest of [p] is untouched, and the stream
    left is the old one without them.  With room in [p] and a stream that is
    not at its end, at least one element is read; an error is only returned
    once nothing is left, and it is the error of the source. *)
Theorem Read_stream {T : Type} (p : addr) (b : Reader T (chunks T))
    (s : chunks T) (m : mem T) :
  chunk_ok b s → len (load m p) ≤ max_int →
  ∃ (n : nat) e b' s',
    Read p b m
      = Ret ((Z.of_nat n, e), b',
             <[p := overlay (take n (stream b)) (load m p)]> m)
    ∧ (n ≤ length (load m p))%nat
    ∧ chunk_ok b' s' ∧ stream b' = drop n (stream b) ∧ final s' = final s
    ∧ (load m p ≠ [] → stream b ≠ [] → (0 < n)%nat)
    ∧ (e = None ∨ (e = Some (final s) ∧ stream b' = []))
    ∧ (load m p ≠ [] → stream b = [] → e = Some (final s)).
Proof. apply Read_chunks. Qed.

Lemma Read_stream_witness :
  ∃ (n : nat) e b' s',
    Read 0%nat chunk_reader [[0; 0]]
      = Ret ((Z.of_nat n, e), b',
             <[0%nat := overlay (take n (stream chunk_reader))
                                (load [[0; 0]] 0%nat)]> [[0; 0]])
    ∧ (n ≤ length (load [[0; 0]] 0%nat))%nat
    ∧ chunk_ok b' s' ∧ stream b' = drop n (stream chunk_reader)
    ∧ final s' = final chunk_source
    ∧ (load [[0; 0]] 0%nat ≠ [] → stream chunk_reader ≠ [] → (0 < n)%nat)
    ∧ (e = None ∨ (e = Some (final chunk_source) ∧ stream b' = []))
    ∧ (load [[0; 0]] 0%nat ≠ [] → stream chunk_reader = []
       → e = Some (final chunk_source)).
Proof.
  refine (Read_stream 0%nat chunk_reader chunk_source [[0; 0]]
            chunk_reader_ok _).
  by vm_compute.
Defined.


(** ** [Peek] and [Discard] on a chunk source *)

Section ChunkPeek.
Context {T : Type}.
Implicit Types (b : Reader T (chunks T)) (s : chunks T).

Lemma Peek_loop_stop fuel n b :
  ¬ (wrap (w b - r b) < n ∧ wrap (w b - r b) < len (buf b) ∧ err b = None) →
  Peek_loop fuel n b = Ret b.
Proof. intros Hstop. destruct fuel; simpl; by rewrite decide_False. Qed.

Lemma Peek_loop_chunks fuel n b s :
  chunk_ok b s → 0 ≤ n ≤ Size b →
  (Z.to_nat n ≤ fuel + length (region b))%nat →
  ∃ b' s',
    Peek_loop fuel n b = Ret b' ∧ chunk_ok b' s' ∧ stream b' = stream b
    ∧ Size b' = Size b ∧ lastElem b' = lastElem b ∧ final s' = final s
    ∧ ((Z.to_nat n ≤ length (region b'))%nat
       ∨ (err b' = Some (final s) ∧ pending s' = [])).
Proof.
  revert b s. induction fuel as [|fuel IH]; intros b s Hok Hn Hfuel;
    pose proof Hok as (Hwf & Hsz & Hrd & Hall & Herr);
    pose proof Hwf as [(? & ? & ?) ?];
    pose proof max_int_pos; pose proof min_int_neg;
    pose proof (length_region b Hwf) as Hlen;
    (destruct (decide (wrap (w b - r b) < n ∧ wrap (w b - r b) < len (buf b)
                       ∧ err b = None)) as [(Hlt & Hfull & He)|Hstop];
     [rewrite wrap_small in Hlt, Hfull by lia
     |rewrite (Peek_loop_stop _ n b Hstop); exists b, s;
      split_and!; try done;
      rewrite wrap_small in Hstop by lia; unfold Size in *;
      destruct (decide (w b - r b < n)); [|left; lia];
      destruct (decide (w b - r b < len (buf b))); [|left; lia];
      right; destruct Herr as [?|?]; [exfalso; apply Hstop; done|done]]).
  - lia.
  - simpl. rewrite decide_True by (rewrite wrap_small by lia; done).
    destruct (fill_chunks b s Hok) as (b1 & s1 & Hfill & Hok1 & Hs1 & Hsz1
      & Hl1 & Hfin1 & _ & _ & _ & Hnil & Hgrow); [unfold Size; lia|].
    rewrite Hfill. simpl.
    assert (pending s = [] ∨ pending s ≠ []) as [Hp|Hp]
      by (destruct (pending s); [by left|by right]).
    + destruct (Hnil Hp) as (He1 & Hreg1 & ->).
      rewrite Peek_loop_stop by (intros (_ & _ & ?); congruence).
      exists b1, s. split_and!; try done. all: by right.
    + specialize (Hgrow Hp).
      destruct (IH b1 s1 Hok1) as (b' & s' & Hloop & Hok' & Hs' & Hsz' & Hl'
        & Hfin' & Hend); [lia..|].
      assert ((Z.to_nat n ≤ length (region b'))%nat
              ∨ (err b' = Some (final s) ∧ pending s' = [])) as Hend'.
      { destruct Hend as [?|[? ?]]; [by left|right]. split; congruence. }
      exists b', s'. split_and!; try done; congruence.
Qed.

Lemma chunk_ok_forget b s :
  chunk_ok b s →
  chunk_ok (set_lastElem None b) s
  ∧ region (set_lastElem None b) = region b
  ∧ stream (set_lastElem None b) = stream b.
Proof. intros (Hwf & Hsz & Hrd & Hall & Herr). by split_and!. Qed.

Lemma Peek_chunks fuel n b s :
  chunk_ok b s → 0 ≤ n ≤ Size b → (Z.to_nat n ≤ fuel)%nat →
  ∃ b' s',
    Peek fuel n b
      = Ret ((take (Z.to_nat n) (stream b),
              if decide (Z.to_nat n ≤ length (stream b))%nat
              then None else Some (final s)), b')
    ∧ chunk_ok b' s' ∧ stream b' = stream b ∧ final s' = final s
    ∧ Size b' = Size b ∧ lastElem b' = None.
Proof.
  intros Hok Hn Hfuel.
  destruct (chunk_ok_forget b s Hok) as (Hok0 & Hreg0 & Hs0).
  destruct (Peek_loop_chunks fuel n (set_lastElem None b) s Hok0)
    as (b1 & s1 & Hloop & Hok1 & Hs1 & Hsz1 & Hl1 & Hfin1 & Hend);
    [done|lia|].
  rewrite Hs0 in Hs1. simpl in Hl1. change (Size (set_lastElem None b))
    with (Size b) in Hsz1.
  pose proof Hok1 as (Hwf1 & Hpos1 & Hrd1 & Hall1 & Herr1).
  pose proof Hwf1 as [(? & ? & ?) ?].
  pose proof max_int_pos. pose proof min_int_neg.
  pose proof (length_region b1 Hwf1) as Hlen1.
  assert (Hst : stream b = region b1 ++ concat (pending s1)).
  { rewrite <- Hs1. unfold stream. by rewrite Hrd1. }
  unfold Peek. rewrite decide_False by lia. rewrite Hloop. simpl.
  rewrite decide_False by (unfold Size in *; lia).
  rewrite (wrap_small (w b1 - r b1)) by lia.
  destruct (decide (w b1 - r b1 < n)) as [Hshort|Henough].
  - destruct Hend as [?|[He1 Hp1]]; [lia|].
    rewrite Hp1 in Hst. simpl in Hst. rewrite app_nil_r in Hst.
    unfold readErr. rewrite He1. simpl.
    replace (r b1 + (w b1 - r b1)) with (w b1) by lia.
    rewrite (wrap_small (w b1)) by lia.
    rewrite (region_slice b1 Hwf1). simpl.
    assert (length (stream b) < Z.to_nat n)%nat by (rewrite Hst; lia).
    rewrite take_ge by lia. rewrite decide_False by lia.
    exists (set_err None b1), s1.
    assert (chunk_ok (set_err None b1) s1).
    { unfold chunk_ok. split_and!; try done. all: by left. }
    assert (stream (set_err None b1) = stream b) by (by rewrite <- Hs1).
    split_and!; try done. by rewrite Hst.
  - rewrite (wrap_small (r b1 + n)) by lia.
    rewrite slice_Some by (unfold Size in *; lia). simpl.
    replace (r b1 + n - r b1) with n by lia.
    assert (Htk : take (Z.to_nat n) (stream b)
                  = take (Z.to_nat n) (drop (Z.to_nat (r b1)) (buf b1))).
    { rewrite Hst. rewrite take_app_le by lia. unfold region.
      rewrite take_take. f_equal. lia. }
    assert (Z.to_nat n ≤ length (stream b))%nat
      by (rewrite Hst, length_app; lia).
    rewrite Htk. rewrite decide_True by done.
    exists b1, s1. by split_and!.
Qed.

End ChunkPeek.


(** X5: [Peek(n)] on a chunk source, for [n] within the capacity, returns
    the first [n] elements of the stream and consumes none of them: the stream
    is the same afterwards.  The error is nil when the stream has [n]
    elements, and the error of the source when it is shorter; the buffer is
    not reallocated and [lastElem] is cleared. *)
Theorem Peek_stream {T : Type} (fuel : nat) (n : Z)
    (b : Reader T (chunks T)) (s : chunks T) :
  chunk_ok b s → 0 ≤ n ≤ Size b → (Z.to_nat n ≤ fuel)%nat →
  ∃ b' s',
    Peek fuel n b
      = Ret ((take (Z.to_nat n) (stream b),
              if decide (Z.to_nat n ≤ length (stream b))%nat
              then None else Some (final s)), b')
    ∧ chunk_ok b' s' ∧ stream b' = stream b ∧ final s' = final s
    ∧ Size b' = Size b ∧ lastElem b' = None.
Proof. apply Peek_chunks. Qed.

Lemma Peek_stream_witness :
  ∃ b' s',
    Peek 4 4 chunk_reader
      = Ret ((take (Z.to_nat 4) (stream chunk_reader),
              if decide (Z.to_nat 4 ≤ length (stream chunk_reader))%nat
              then None else Some (final chunk_source)), b')
    ∧ chunk_ok b' s' ∧ stream b' = stream chunk_reader
    ∧ final s' = final chunk_source
    ∧ Size b' = Size chunk_reader ∧ lastElem b' = None.
Proof.
  refine (Peek_stream 4 4 chunk_reader chunk_source chunk_reader_ok _ _).
  - split; by vm_compute.
  - simpl. lia.
Defined.


Section ChunkDiscard.
Context {T : Type}.
Implicit Types (b : Reader T (chunks T)) (s : chunks T).

(** Moving the read cursor forward by [j] drops [j] elements of the stream. *)
Lemma chunk_ok_skip b s (j : Z) :
  chunk_ok b s → 0 ≤ j ≤ w b - r b →
  chunk_ok (set_r (r b + j) b) s
  ∧ stream (set_r (r b + j) b) = drop (Z.to_nat j) (stream b).
Proof.
  intros (Hwf & Hsz & Hrd & Hall & Herr) Hj.
  pose proof Hwf as [(? & ? & ?) ?].
  pose proof (length_region b Hwf) as Hlen.
  split.
  - unfold chunk_ok. split_and!; try done.
    unfold wf, inv, Size in *. simpl. lia.
  - unfold stream. rewrite region_set_r by done. simpl.
    by rewrite drop_app_le by lia.
Qed.

(** The first step of the loop of [Discard]: after it the buffer holds an
    element, or the source is at its end and its error is pending. *)
Lemma Discard_fill_chunks b s :
  chunk_ok b s →
  ∃ b1 s1,
    (if decide (Buffered b = 0) then fill b else Ret b) = Ret b1
    ∧ chunk_ok b1 s1 ∧ stream b1 = stream b ∧ final s1 = final s
    ∧ Size b1 = Size b ∧ lastElem b1 = lastElem b
    ∧ (0 < w b1 - r b1
       ∨ (err b1 = Some (final s) ∧ pending s1 = [] ∧ r b1 = w b1)).
Proof.
  intros Hok. pose proof Hok as (Hwf & Hsz & Hrd & Hall & Herr).
  pose proof Hwf as [(? & ? & ?) ?].
  pose proof max_int_pos. pose proof min_int_neg.
  pose proof (length_region b Hwf) as Hlen.
  unfold Buffered. rewrite wrap_small by (unfold Size in *; lia).
  destruct (decide (w b - r b = 0)) as [Hz|Hnz].
  - destruct (fill_chunks b s Hok) as (b1 & s1 & Hfill & Hok1 & Hs1 & Hsz1
      & Hl1 & Hfin1 & _ & Hr1 & _ & Hnil & Hgrow); [lia|].
    pose proof Hok1 as (Hwf1 & _).
    pose proof (length_region b1 Hwf1) as Hlen1.
    exists b1, s1. split_and!; try done.
    assert (pending s = [] ∨ pending s ≠ []) as [Hp|Hp]
      by (destruct (pending s); [by left|by right]).
    + destruct (Hnil Hp) as (He1 & Hreg1 & ->). right.
      split_and!; try done.
      destruct Hwf1 as [(? & ? & ?) ?]. rewrite Hreg1 in Hlen1. lia.
    + specialize (Hgrow Hp). left. lia.
  - exists b, s. split_and!; try done. left. lia.
Qed.

Lemma Discard_loop_chunks fuel n remain b s :
  chunk_ok b s → 0 < remain ≤ n → n ≤ max_int →
  (Z.to_nat remain ≤ fuel)%nat →
  ∃ b' s',
    Discard_loop fuel n remain b
      = Ret (if decide (Z.to_nat remain ≤ length (stream b))%nat
             then (n, None)
             else (n - remain + len (stream b), Some (final s)), b')
    ∧ chunk_ok b' s' ∧ stream b' = drop (Z.to_nat remain) (stream b)
    ∧ final s' = final s ∧ Size b' = Size b ∧ lastElem b' = lastElem b.
Proof.
  revert remain b s.
  induction fuel as [|fuel IH]; intros remain b s Hok Hrem Hn Hfuel; [lia|].
  pose proof max_int_pos. pose proof min_int_neg.
  destruct (Discard_fill_chunks b s Hok) as (b1 & s1 & Hb1 & Hok1 & Hs1
    & Hfin1 & Hsz1 & Hl1 & Hnext).
  rewrite <- Hs1, <- Hsz1, <- Hl1, <- Hfin1.
  pose proof Hok1 as (Hwf1 & Hpos1 & Hrd1 & Hall1 & Herr1).
  pose proof Hwf1 as [(? & ? & ?) ?].
  pose proof (length_region b1 Hwf1) as Hlen1.
  assert (Hst : stream b1 = region b1 ++ concat (pending s1)).
  { unfold stream. by rewrite Hrd1. }
  assert (Hstl : length (stream b1)
                 = (Z.to_nat (w b1 - r b1) + length (concat (pending s1)))%nat).
  { rewrite Hst, length_app. lia. }
  simpl. rewrite Hb1. simpl. unfold Buffered.
  rewrite (wrap_small (w b1 - r b1)) by lia.
  destruct (decide (w b1 - r b1 > remain)) as [Hmore|Hless].
  - (* more than [remain] elements buffered *)
    rewrite (wrap_small (r b1 + remain)) by lia.
    rewrite Z.sub_diag. change (wrap 0) with 0. rewrite decide_True by done.
    destruct (chunk_ok_skip b1 s1 remain Hok1) as [Hok2 Hs2]; [lia|].
    rewrite decide_True by lia.
    exists (set_r (r b1 + remain) b1), s1. by split_and!.
  - rewrite (wrap_small (r b1 + (w b1 - r b1))) by lia.
    rewrite (wrap_small (remain - (w b1 - r b1))) by lia.
    destruct (chunk_ok_skip b1 s1 (w b1 - r b1) Hok1) as [Hok2 Hs2]; [lia|].
    set (b2 := set_r (r b1 + (w b1 - r b1)) b1) in *.
    destruct (decide (remain - (w b1 - r b1) = 0)) as [Hz|Hnz].
    + assert (Z.to_nat (w b1 - r b1) = Z.to_nat remain) as Heq by lia.
      rewrite decide_True by lia.
      exists b2, s1. rewrite <- Heq. by split_and!.
    + change (err b2) with (err b1).
      destruct Herr1 as [He1|[He1 Hp1]].
      * (* go round the loop *)
        rewrite He1.
        destruct Hnext as [Hpos|[? _]]; [|congruence].
        destruct (IH (remain - (w b1 - r b1)) b2 s1 Hok2)
          as (b' & s' & Hloop & Hok' & Hs' & Hfin' & Hsz' & Hl');
          [lia|lia|lia|].
        rewrite Hloop.
        assert (Hlen2 : length (stream b2)
                        = length (concat (pending s1))).
        { rewrite Hs2, length_drop. lia. }
        exists b', s'. split_and!; try done.
        -- destruct (decide (Z.to_nat remain ≤ length (stream b1))%nat).
           ++ by rewrite decide_True by lia.
           ++ rewrite decide_False by lia. do 2 f_equal.
              unfold len. f_equal. lia.
        -- rewrite Hs', Hs2, drop_drop. f_equal. lia.
      * (* the error of the source is pending *)
        rewrite He1.
        rewrite Hp1 in Hstl. simpl in Hstl.
        rewrite decide_False by lia.
        rewrite wrap_small by lia.
        assert (Hok3 : chunk_ok (set_err None b2) s1).
        { destruct Hok2 as (? & ? & ? & ? & ?).
          unfold chunk_ok. split_and!; try done. by left. }
        exists (set_err None b2), s1. split_and!; try done.
        -- do 3 f_equal. unfold len. lia.
        -- change (stream (set_err None b2)) with (stream b2).
           rewrite Hs2. rewrite !drop_ge by lia. done.
Qed.

Lemma Discard_chunks fuel n b s :
  chunk_ok b s → 0 < n ≤ max_int → (Z.to_nat n ≤ fuel)%nat →
  ∃ b' s',
    Discard fuel n b
      = Ret (if decide (Z.to_nat n ≤ length (stream b))%nat
             then (n, None)
             else (len (stream b), Some (final s)), b')
    ∧ chunk_ok b' s' ∧ stream b' = drop (Z.to_nat n) (stream b)
    ∧ final s' = final s ∧ Size b' = Size b ∧ lastElem b' = None.
Proof.
  intros Hok Hn Hfuel.
  destruct (chunk_ok_forget b s Hok) as (Hok0 & _ & Hs0).
  destruct (Discard_loop_chunks fuel n n (set_lastElem None b) s Hok0)
    as (b' & s' & Hloop & Hok' & Hs' & Hfin' & Hsz' & Hl'); [lia|lia|done|].
  rewrite Hs0 in Hloop, Hs'.
  unfold Discard. rewrite !decide_False by lia. rewrite Hloop.
  replace (n - n + len (stream b)) with (len (stream b)) by lia.
  exists b', s'. by split_and!.
Qed.

End ChunkDiscard.

(** X6: [Discard(n)], [n > 0], on a chunk source skips the next [n] elements
    of the stream and returns [(n, nil)]; when the stream has fewer, it skips
    them all and returns their number with the error of the source.  What
    is left of the stream is what follows the skipped elements. *)
Theorem Discard_stream {T : Type} (fuel : nat) (n : Z)
    (b : Reader T (chunks T)) (s : chunks T) :
  chunk_ok b s → 0 < n ≤ max_int → (Z.to_nat n ≤ fuel)%nat →
  ∃ b' s',
    Discard fuel n b
      = Ret (if decide (Z.to_nat n ≤ length (stream b))%nat
             then (n, None)
             else (len (stream b), Some (final s)), b')
    ∧ chunk_ok b' s' ∧ stream b' = drop (Z.to_nat n) (stream b)
    ∧ final s' = final s ∧ Size b' = Size b ∧ lastElem b' = None.
Proof. apply Discard_chunks. Qed.

Lemma Discard_stream_witness :
  ∃ b' s',
    Discard 6 6 chunk_reader
      = Ret (if decide (Z.to_nat 6 ≤ length (stream chunk_reader))%nat
             then (6, None)
             else (len (stream chunk_reader), Some (final chunk_source)), b')
    ∧ chunk_ok b' s' ∧ stream b' = drop (Z.to_nat 6) (stream chunk_reader)
    ∧ final s' = final chunk_source
    ∧ Size b' = Size chunk_reader ∧ lastElem b' = None.
Proof.
  refine (Discard_stream 6 6 chunk_reader chunk_source chunk_reader_ok _ _).
  - split; by vm_compute.
  - simpl. lia.
Defined.


(** X7: [Peek(n)] and then [Discard(n)], on a chunk source and for [n]
    within the capacity: [Discard] skips exactly the elements that [Peek] has
    shown and returns their number, with the same error, and what [Peek]
    has shown followed by what is left is the stream as it was. *)
Theorem Peek_then_Discard {T : Type} (fuel : nat) (n : Z)
    (b : Reader T (chunks T)) (s : chunks T) :
  chunk_ok b s → 0 < n ≤ Size b → (Z.to_nat n ≤ fuel)%nat →
  ∃ xs e b1 b2 s2,
    Peek fuel n b = Ret ((xs, e), b1)
    ∧ Discard fuel n b1 = Ret ((len xs, e), b2)
    ∧ chunk_ok b2 s2 ∧ xs ++ stream b2 = stream b.
Proof.
  intros Hok Hn Hfuel.
  pose proof Hok as ([_ Hmax] & _).
  destruct (Peek_chunks fuel n b s Hok) as (b1 & s1 & Hpeek & Hok1 & Hs1
    & Hfin1 & _); [lia|done|].
  destruct (Discard_chunks fuel n b1 s1 Hok1) as (b2 & s2 & Hdis & Hok2
    & Hs2 & _); [lia|done|].
  rewrite Hs1, Hfin1 in Hdis. rewrite Hs1 in Hs2.
  eexists _, _, b1, b2, s2. split; [exact Hpeek|].
  split_and!; try done.
  - rewrite Hdis. f_equal.
    destruct (decide (Z.to_nat n ≤ length (stream b))%nat).
    + f_equal. f_equal. unfold len. rewrite length_take. lia.
    + by rewrite take_ge by lia.
  - rewrite Hs2. apply take_drop.
Qed.

Lemma Peek_then_Discard_witness :
  ∃ xs e b1 b2 s2,
    Peek 3 3 chunk_reader = Ret ((xs, e), b1)
    ∧ Discard 3 3 b1 = Ret ((len xs, e), b2)
    ∧ chunk_ok b2 s2 ∧ xs ++ stream b2 = stream chunk_reader.
Proof.
  refine (Peek_then_Discard 3 3 chunk_reader chunk_source chunk_reader_ok _ _).
  - split; by vm_compute.
  - simpl. lia.
Defined.


(** ** The capacity of a reader *)

Section Capacity.
Context {T Src Snk : Type} `{!ReadInterface T Src} `{!WriteInterface T Snk}
        `{!WriteToInterface T Src Snk} `{!ReadFromInterface T Src Snk}.
Variable zero : T.
Implicit Types (b : Reader T Src) (m : mem T).

Lemma Reset_Size self b src :
  0 < Size b → Size (Reset zero self b src) = Size b.
Proof.
  unfold Reset, Size. intros Hsz. destruct (decide _); [done|].
  destruct (buf b) eqn:E; [|done]. unfold len in Hsz. simpl in Hsz. lia.
Qed.

Lemma run_Size self fuel (o : op Src Snk) b m b' m' :
  src_ok → snk_ok → op_int o → run zero self fuel o b m = Ret (b', m') →
  wf b → 0 < Size b → Size b' = Size b.
Proof.
  intros Hsrc Hsnk Hint H Hwf Hsz. destruct o; simpl in H.
  - ret_step H. destruct x as [[res b1] m1]. ret_step H. injection H as <- _.
    by apply Read_Ret in Hx as [_ ?].
  - ret_step H. destruct x as [res b1]. ret_step H. injection H as <- _.
    by apply ReadElem_Ret in Hx as [_ ?].
  - ret_step H. destruct x as [res b1]. ret_step H. injection H as <- _.
    by apply Peek_Ret in Hx as [_ ?].
  - ret_step H. destruct x as [res b1]. ret_step H. injection H as <- _.
    by apply Discard_Ret in Hx as [_ ?].
  - ret_step H. destruct x as [res b1]. ret_step H. injection H as <- _.
    by apply UnreadElem_Ret in Hx as [_ ?].
  - ret_step H. destruct x as [[res b1] k1]. ret_step H. injection H as <- _.
    by apply WriteTo_Ret in Hx as (_ & ? & _).
  - ret_step H. injection H as <- _. by apply Reset_Size.
  - ret_step H. by injection H as <- _.
  - ret_step H. by injection H as <- _.
Qed.

Lemma reachable_Size self b :
  src_ok → snk_ok → reachable zero self b → minReadBufferSize ≤ Size b.
Proof.
  intros Hsrc Hsnk. induction 1 as [src size h b Hsz Hnew Hb|
                                    fuel o b m b' m' Hreach IH Hint Hrun].
  - unfold NewReaderSize in Hnew.
    destruct (src ≫= rd_asReader) as [q|]; [done|].
    injection Hnew as <- <-. simpl in Hb. injection Hb as <-.
    unfold Size, len. simpl. rewrite length_replicate.
    unfold minReadBufferSize. destruct (decide _); lia.
  - pose proof (reachable_wf zero self b Hsrc Hsnk Hreach) as Hwf.
    rewrite (run_Size self fuel o b m b' m'); try done.
    unfold minReadBufferSize in IH. lia.
Qed.

End Capacity.

(** X8: The capacity of a reader is fixed when [NewReaderSize] makes it: it
    is at least the minimum of 16, and no operation changes it, [Reset]
    included, which keeps the buffer and only forgets what it holds. *)
Theorem capacity_fixed {T Src Snk : Type}
    `{!ReadInterface T Src} `{!WriteInterface T Snk}
    `{!WriteToInterface T Src Snk} `{!ReadFromInterface T Src Snk}
    (zero : T) (self : ptr) (fuel : nat) (o : op Src Snk)
    (b b' : Reader T Src) (m m' : mem T) :
  src_ok (T:=T) (Src:=Src) → snk_ok (T:=T) (Snk:=Snk) →
  reachable zero self b → op_int o →
  run zero self fuel o b m = Ret (b', m') →
  minReadBufferSize ≤ Size b ∧ Size b' = Size b.
Proof.
  intros Hsrc Hsnk Hreach Hint Hrun.
  pose proof (reachable_Size zero self b Hsrc Hsnk Hreach) as Hmin.
  split; [done|].
  apply (run_Size zero self fuel o b m b' m'); try done.
  - by apply (reachable_wf zero self).
  - unfold minReadBufferSize in Hmin. lia.
Qed.

Lemma capacity_fixed_witness :
  minReadBufferSize ≤ Size read_one
  ∧ Size (Reset 0 0%nat read_one (Some (mkChunks [[7]] EOF false)))
    = Size read_one.
Proof.
  refine (capacity_fixed (WriteToInterface0:=no_WriteTo)
            (ReadFromInterface0:=no_ReadFrom) (Snk:=list Z) 0 0%nat 0%nat
            (OpReset (Some (mkChunks [[7]] EOF false))) read_one _ [] []
            chunks_src_ok list_snk_ok read_one_reachable _ _).
  - done.
  - reflexivity.
Defined.


(** X9: [Reset] switches the reader to the new source and forgets everything
    the reader held: the elements buffered from the old source, a pending
    error and [lastElem].  The stream of the reader is then that of the new
    source alone.  The buffer is kept; the zero value of [Reader], which has
    none, gets one of the default size. *)
Theorem Reset_switches_stream {T : Type} (zero : T) (self : ptr)
    (b : Reader T (chunks T)) (s : chunks T) :
  wf b → Forall (λ c, c ≠ []) (pending s) →
  chunk_ok (Reset zero self b (Some s)) s
  ∧ stream (Reset zero self b (Some s)) = concat (pending s)
  ∧ Size (Reset zero self b (Some s))
    = (if decide (Size b = 0) then defaultBufSize else Size b)
  ∧ Buffered (Reset zero self b (Some s)) = 0
  ∧ err (Reset zero self b (Some s)) = None
  ∧ lastElem (Reset zero self b (Some s)) = None.
Proof.
  intros [_ Hmax] Hall. unfold Reset.
  destruct (decide (Some s ≫= rd_asReader = Some self)) as [Hself|_];
    [done|].
  set (bf := match buf b with
             | [] => replicate (Z.to_nat defaultBufSize) zero
             | _ :: _ => buf b
             end).
  assert (Hbf : len bf = if decide (Size b = 0) then defaultBufSize
                         else Size b).
  { unfold bf, Size, len. destruct (buf b) as [|x l].
    - rewrite length_replicate. by rewrite decide_True.
    - rewrite decide_False; [done|]. simpl. lia. }
  assert (Hpos : 0 < len bf ≤ max_int).
  { rewrite Hbf. pose proof (len_nonneg (buf b)). unfold Size in *.
    destruct (decide _); [by vm_compute|lia]. }
  assert (Hwf : wf (reset bf (Some s))).
  { unfold wf, inv, Size. simpl. lia. }
  assert (Hs : stream (reset bf (Some s)) = concat (pending s)).
  { unfold stream. by rewrite region_empty. }
  assert (Hok : chunk_ok (reset bf (Some s)) s).
  { unfold chunk_ok, Size. simpl. split_and!; try done; try lia. by left. }
  split_and!; done.
Qed.

Lemma Reset_switches_stream_witness :
  chunk_ok (Reset 0 0%nat read_one_filled (Some chunk_source)) chunk_source
  ∧ stream (Reset 0 0%nat read_one_filled (Some chunk_source))
    = concat (pending chunk_source)
  ∧ Size (Reset 0 0%nat read_one_filled (Some chunk_source))
    = (if decide (Size read_one_filled = 0) then defaultBufSize
       else Size read_one_filled)
  ∧ Buffered (Reset 0 0%nat read_one_filled (Some chunk_source)) = 0
  ∧ err (Reset 0 0%nat read_one_filled (Some chunk_source)) = None
  ∧ lastElem (Reset 0 0%nat read_one_filled (Some chunk_source)) = None.
Proof.
  refine (Reset_switches_stream 0 0%nat read_one_filled chunk_source _ _).
  - unfold wf, inv. repeat split; by vm_compute.
  - by repeat constructor.
Defined.


(** ** Requests the buffer can serve *)

(** X10: A request that the buffered elements can serve is served from the
    buffer alone, whatever the source and whatever error is pending:
    [Peek(n)] and [Discard(n)] with [0 < n <= Buffered()] and [ReadElem] on
    a buffer that is not empty return the buffered elements with a nil
    error, and leave the source and the pending error as they are. *)
Theorem buffered_request_skips_source {T Src : Type}
    `{!ReadInterface T Src} (zero : T) (fuel : nat) (n : Z)
    (b : Reader T Src) :
  wf b → 0 < n ≤ Buffered b →
  Peek fuel n b
    = Ret ((take (Z.to_nat n) (region b), None), set_lastElem None b)
  ∧ Discard (S fuel) n b
    = Ret ((n, None), set_r (r b + n) (set_lastElem None b))
  ∧ ∃ x rest,
      region b = x :: rest
      ∧ ReadElem zero fuel b
        = Ret ((x, None), set_lastElem (Some (Local x)) (set_r (r b + 1) b)).
Proof.
  intros Hwf Hn. pose proof Hwf as [(? & ? & ?) ?].
  pose proof max_int_pos. pose proof min_int_neg.
  unfold Buffered in Hn. rewrite wrap_small in Hn by (unfold Size in *; lia).
  unfold Size in *.
  split; [|split].
  - unfold Peek. rewrite decide_False by lia.
    assert (Hloop : Peek_loop fuel n (set_lastElem None b)
                    = Ret (set_lastElem None b)).
    { destruct fuel; simpl; rewrite decide_False; try done;
        rewrite wrap_small by lia; lia. }
    rewrite Hloop. simpl. rewrite decide_False by lia.
    rewrite (wrap_small (w b - r b)) by lia. rewrite decide_False by lia.
    rewrite (wrap_small (r b + n)) by lia.
    rewrite slice_Some by lia. simpl.
    replace (r b + n - r b) with n by lia.
    unfold region. rewrite take_take. do 4 f_equal. lia.
  - unfold Discard. rewrite !decide_False by lia. simpl.
    unfold Buffered. simpl. rewrite (wrap_small (w b - r b)) by lia.
    rewrite decide_False by lia. simpl. unfold Buffered. simpl.
    rewrite !(wrap_small (w b - r b)) by lia.
    destruct (decide (w b - r b > n)).
    + rewrite Z.sub_diag. change (wrap 0) with 0.
      rewrite decide_True by done. by rewrite wrap_small by lia.
    + assert (w b - r b = n) as -> by lia.
      rewrite Z.sub_diag. change (wrap 0) with 0.
      rewrite decide_True by done. by rewrite wrap_small by lia.
  - destruct (region_cons b Hwf) as (x & Hx & Hreg); [lia|].
    exists x, (region (set_r (r b + 1) b)). split; [done|].
    destruct fuel; simpl; rewrite decide_False by lia; rewrite Hx; simpl;
      by rewrite wrap_small by lia.
Qed.

Lemma buffered_request_skips_source_witness :
  Peek 0 2 read_one
    = Ret ((take (Z.to_nat 2) (region read_one), None),
           set_lastElem None read_one)
  ∧ Discard 1 2 read_one
    = Ret ((2, None), set_r (r read_one + 2) (set_lastElem None read_one))
  ∧ ∃ x rest,
      region read_one = x :: rest
      ∧ ReadElem 0 0 read_one
        = Ret ((x, None),
               set_lastElem (Some (Local x)) (set_r (r read_one + 1) read_one)).
Proof.
  refine (buffered_request_skips_source 0 0%nat 2 read_one _ _).
  - unfold wf, inv. repeat split; by vm_compute.
  - split; by vm_compute.
Defined.


(** ** The operations return *)

Section Returns.
Context {T Src : Type} `{!ReadInterface T Src}.
Variable zero : T.
Implicit Types (b : Reader T Src) (m : mem T).

Lemma Read_copy_total p b m :
  wf b → r b ≠ w b → load m p ≠ [] → ∃ res, Read_copy p b m = Ret res.
Proof.
  intros Hwf Hne Hpc. pose proof Hwf as [(? & ? & ?) ?].
  pose proof max_int_pos. pose proof min_int_neg.
  pose proof (length_region b Hwf) as Hlen.
  assert (0 < length (load m p))%nat
    by (destruct (load m p); simpl; [done|lia]).
  unfold Read_copy. rewrite region_slice by done. simpl.
  unfold copy_n, len. rewrite <- Nat2Z.inj_min.
  set (n := Nat.min _ _). unfold Size, len in *.
  rewrite (wrap_small (r b + Z.of_nat n)) by lia.
  rewrite (wrap_small (r b + Z.of_nat n - 1)) by lia.
  unfold index. rewrite decide_True by lia.
  destruct (lookup_lt_is_Some_2 (buf b) (Z.to_nat (r b + Z.of_nat n - 1)))
    as [x Hx]; [lia|].
  rewrite Hx. simpl. by eexists.
Qed.

Lemma Read_total p b m :
  src_ok → wf b → is_Some (rd b) → len (load m p) ≤ max_int →
  ∃ res, Read p b m = Ret res.
Proof.
  intros Hsrc Hwf [s Hrd] Hmax. pose proof Hwf as [(? & ? & ?) ?].
  pose proof max_int_pos. pose proof min_int_neg.
  unfold Read.
  destruct (decide (len (load m p) = 0)) as [Hz|Hnz].
  { destruct (decide _); unfold readErr; by eexists. }
  assert (Hpc : load m p ≠ []).
  { intros Hnil. rewrite Hnil in Hnz. done. }
  destruct (decide (r b = w b)) as [Heq|Hne]; [|by apply Read_copy_total].
  destruct (err b) as [e|] eqn:He; [unfold readErr; by eexists|].
  rewrite Hrd. unfold callRead.
  destruct (decide (len (load m p) >= len (buf b))).
  - pose proof (Hsrc s (load m p)) as Hn.
    destruct (rd_Read s (load m p)) as [res s'] eqn:E. simpl in *.
    rewrite (wrap_small (rr_n res)) by lia.
    rewrite (decide_False (P := rr_n res < 0)) by lia.
    destruct (decide (rr_n res > 0)); [|unfold readErr; by eexists].
    rewrite (wrap_small (rr_n res - 1)) by lia.
    unfold index. rewrite decide_True by lia.
    destruct (lookup_lt_is_Some_2 (overlay (rr_data res) (load m p))
                (Z.to_nat (rr_n res - 1))) as [x Hx].
    { rewrite length_overlay. unfold len in *. lia. }
    rewrite Hx. simpl. unfold readErr. by eexists.
  - pose proof (Hsrc s (buf b)) as Hn. unfold Size in *.
    destruct (rd_Read s (buf b)) as [res s'] eqn:E. simpl in *.
    rewrite (wrap_small (rr_n res)) by lia.
    rewrite (decide_False (P := rr_n res < 0)) by lia.
    destruct (decide (rr_n res = 0)); [unfold readErr; by eexists|].
    rewrite Z.add_0_l. rewrite (wrap_small (rr_n res)) by lia.
    apply Read_copy_total; [|simpl; lia|done].
    unfold wf, inv, Size. simpl. rewrite len_overlay. lia.
Qed.

Lemma Peek_total fuel n b :
  src_ok → wf b → is_Some (rd b) → Size b ≤ Z.of_nat fuel →
  ∃ res, Peek fuel n b = Ret res.
Proof.
  intros Hsrc Hwf Hrd Hfuel. unfold Peek.
  destruct (decide (n < 0)); [by eexists|].
  pose proof Hwf as [(? & ? & ?) ?].
  destruct (Peek_loop_total fuel n (set_lastElem None b)) as (b1 & Hb1 & _);
    try done; [right; unfold Size in *; simpl; lia|].
  rewrite Hb1. simpl.
  apply Peek_loop_Ret in Hb1 as (Hwf1 & _); [|done..].
  pose proof Hwf1 as [(? & ? & ?) ?].
  pose proof max_int_pos. pose proof min_int_neg. unfold Size in *.
  destruct (decide (n > len (buf b1))).
  - rewrite slice_Some by lia. simpl. by eexists.
  - rewrite (wrap_small (w b1 - r b1)) by lia.
    destruct (decide (w b1 - r b1 < n)).
    + unfold readErr. simpl. rewrite wrap_small by lia.
      rewrite slice_Some by lia. simpl. by eexists.
    + rewrite wrap_small by lia.
      rewrite slice_Some by lia. simpl. by eexists.
Qed.

End Returns.

(** X11: On a source that returns counts between 0 and the length of its
    slice, [Read], [ReadElem], [Peek] and [Discard] return: no index or slice is
    out of range, [fill] is never called on a full buffer, and the loops
    end, [ReadElem] after at most one [fill], [Peek] after at most as many
    as the capacity and [Discard(n)] after at most [n]. *)
Theorem operations_return {T Src : Type} `{!ReadInterface T Src}
    (zero : T) (fuel : nat) (n : Z) (p : addr)
    (b : Reader T Src) (m : mem T) :
  src_ok (T:=T) (Src:=Src) → wf b → is_Some (rd b) → 0 < Size b →
  len (load m p) ≤ max_int → n ≤ max_int →
  Size b ≤ Z.of_nat fuel → n ≤ Z.of_nat fuel →
  (∃ res, Read p b m = Ret res)
  ∧ (∃ res, ReadElem zero 1 b = Ret res)
  ∧ (∃ res, Peek fuel n b = Ret res)
  ∧ (∃ res, Discard fuel n b = Ret res).
Proof.
  intros Hsrc Hwf Hrd Hsz Hp Hn Hfuel Hfueln. split_and!.
  - by apply Read_total.
  - destruct (ReadElem_total zero 0 b) as (res & b' & Hr); try done.
    by eexists.
  - by apply Peek_total.
  - destruct (Discard_total fuel n b) as (res & b' & Hr); try done.
    by eexists.
Qed.

Lemma operations_return_witness :
  (∃ res, Read 0%nat chunk_reader [[0; 0]] = Ret res)
  ∧ (∃ res, ReadElem 0 1 chunk_reader = Ret res)
  ∧ (∃ res, Peek 16 5 chunk_reader = Ret res)
  ∧ (∃ res, Discard 16 5 chunk_reader = Ret res).
Proof.
  refine (operations_return 0 16%nat 5 0%nat chunk_reader [[0; 0]]
            chunks_src_ok _ _ _ _ _ _ _).
  - unfold wf, inv. repeat split; by vm_compute.
  - by eexists.
  - by vm_compute.
  - by vm_compute.
  - by vm_compute.
  - by vm_compute.
  - by vm_compute.
Defined.


(** ** An error is returned once *)

Section OneShot.
Context {T Src : Type} `{!ReadInterface T Src}.
Variable zero : T.
Implicit Types (b : Reader T Src) (m : mem T).

Lemma readErr_clears b e b' : readErr b = (e, b') → err b' = None.
Proof. unfold readErr. by intros [= _ <-]. Qed.

Lemma ReadElem_error_cleared fuel b x e b' :
  ReadElem zero fuel b = Ret ((x, Some e), b') → err b' = None.
Proof.
  revert b. induction fuel as [|fuel IH]; intros b H; simpl in H.
  - ret_step H.
    + ret_all H. injection H as _ _ <-. by eapply readErr_clears.
    + ret_all H. by injection H.
  - ret_step H.
    + ret_step H; [ret_all H; injection H as _ _ <-;
                   by eapply readErr_clears|].
      ret_step H. by apply IH in H.
    + ret_all H. by injection H.
Qed.

Lemma Read_copy_no_error p b m n e b' m' :
  Read_copy p b m = Ret ((n, e), b', m') → e = None.
Proof. unfold Read_copy. intros H. ret_all H. by injection H. Qed.

Lemma Read_error_cleared p b m n e b' m' :
  Read p b m = Ret ((n, Some e), b', m') → err b' = None.
Proof.
  unfold Read. intros H.
  ret_step H.
  { ret_step H; [by injection H|].
    ret_all H. injection H as _ _ <-. by eapply readErr_clears. }
  ret_step H; [|by apply Read_copy_no_error in H].
  ret_step H.
  { ret_all H. injection H as _ _ <-. by eapply readErr_clears. }
  ret_step H.
  - ret_step H. destruct x as [[[cnt er] pc1] s1].
    ret_step H; [done|]. ret_step H. ret_all H.
    injection H as _ _ <- _. by eapply readErr_clears.
  - ret_step H. destruct x as [[[cnt er] bf1] s1].
    ret_step H; [done|]. ret_step H.
    + ret_all H. injection H as _ _ <-. by eapply readErr_clears.
    + by apply Read_copy_no_error in H.
Qed.

Lemma Discard_loop_error_cleared fuel n remain b j e b' :
  Discard_loop fuel n remain b = Ret ((j, Some e), b') → err b' = None.
Proof.
  revert remain b. induction fuel as [|fuel IH]; intros remain b H;
    simpl in H; [done|].
  ret_step H. clear Hx. ret_step H; [ret_step H; by injection H|].
  ret_step H; [|by apply IH in H].
  ret_all H. injection H as _ _ <-. by eapply readErr_clears.
Qed.

Lemma Discard_error_cleared fuel n b j e b' :
  0 ≤ n → Discard fuel n b = Ret ((j, Some e), b') → err b' = None.
Proof.
  unfold Discard. intros Hn H. ret_step H; [lia|].
  ret_step H; [ret_step H; by injection H|].
  by apply Discard_loop_error_cleared in H.
Qed.

Lemma Peek_error_cleared fuel n b s e b' :
  0 ≤ n ≤ Size b' → Peek fuel n b = Ret ((s, Some e), b') → err b' = None.
Proof.
  unfold Peek, Size. intros Hn H. ret_step H; [lia|].
  ret_step H. rename x into b1. clear Hx.
  ret_step H.
  - ret_all H. injection H as _ _ <-. lia.
  - ret_step H.
    + ret_all H. injection H as _ _ <-. by eapply readErr_clears.
    + ret_all H. by injection H.
Qed.

End OneShot.

(** X12: An error that [Read], [ReadElem], [Discard] or [Peek] returns is
    returned once: no error is pending after the call.  This is for every
    source.  [Discard] with a negative count and [Peek] with a count that
    is negative or beyond the capacity, which return an error of their own,
    are left out. *)
Theorem error_returned_once {T Src : Type} `{!ReadInterface T Src}
    (zero : T) (fuel : nat) (n cnt : Z) (p : addr) (x : T) (s : list T)
    (e : error) (b b' : Reader T Src) (m m' : mem T) :
  Read p b m = Ret ((cnt, Some e), b', m')
  ∨ ReadElem zero fuel b = Ret ((x, Some e), b')
  ∨ (0 ≤ n ∧ Discard fuel n b = Ret ((cnt, Some e), b'))
  ∨ (0 ≤ n ≤ Size b' ∧ Peek fuel n b = Ret ((s, Some e), b')) →
  err b' = None.
Proof.
  intros [H|[H|[[Hn H]|[Hn H]]]].
  - by eapply Read_error_cleared.
  - by eapply ReadElem_error_cleared.
  - by eapply Discard_error_cleared.
  - by eapply Peek_error_cleared.
Qed.


Lemma error_returned_once_witness :
  err (reset (replicate 16 0) (Some (mkChunks (@nil (list Z)) EOF false)))
  = None.
Proof.
  refine (error_returned_once 0 1%nat 0 0 0%nat 0 [] EOF
            (reset (replicate 16 0) (Some (mkChunks [] EOF false)))
            (reset (replicate 16 0) (Some (mkChunks [] EOF false)))
            [] [] _).
  right. left. by vm_compute.
Defined.


(** ** The fast paths of WriteTo *)

(** X13: [WriteTo] first writes the buffered elements to the sink.  When that
    write fails, [WriteTo] returns its count and its error at once.
    Otherwise, a source that has a [WriteTo] method is asked to write
    itself to the sink, and otherwise a sink that has a [ReadFrom] method is
    asked to read from the source; the [WriteTo] of the source comes first
    when there are both.  On these paths the [Read] of the source is not
    called through the reader, the buffer is not filled, a pending error of
    the reader is neither returned nor cleared, and the count is that of the
    first write plus that of the method called. *)
Theorem WriteTo_fast_paths {T Src Snk : Type}
    `{!ReadInterface T Src} `{!WriteInterface T Snk}
    `{!WriteToInterface T Src Snk} `{!ReadFromInterface T Src Snk}
    (fuel : nat) (b : Reader T Src) (k k1 : Snk) (B : list T)
    (nB : Z) (eB : option error) :
  wf b → slice (buf b) (r b) (w b) = Some B →
  w_Write k B = ((nB, eB), k1) → 0 ≤ nB ≤ len B →
  let b1 := set_r (r b + nB) (set_lastElem None b) in
  (is_Some eB → WriteTo fuel b k = Ret ((nB, eB), b1, k1))
  ∧ (∀ s wt m e s' k2,
       eB = None → rd b = Some s → rd_asWriteTo s = Some wt →
       wt k1 = ((m, e), s', k2) →
       WriteTo fuel b k
         = Ret ((wrap (nB + m), e),
                mkReader (buf b) (Some s') (r b + nB) (w b) (err b) None, k2))
  ∧ (∀ rf m e s' k2,
       eB = None → rd b ≫= rd_asWriteTo = None →
       w_asReadFrom k1 = Some rf → rf (rd b) = ((m, e), s', k2) →
       WriteTo fuel b k
         = Ret ((wrap (nB + m), e),
                mkReader (buf b) s' (r b + nB) (w b) (err b) None, k2)).
Proof.
  intros Hwf HB Hw HnB b1. pose proof Hwf as [(? & ? & ?) ?].
  pose proof max_int_pos. pose proof min_int_neg.
  pose proof HB as HB'. apply slice_len in HB' as (_ & _ & _ & HlenB).
  assert (Hflush : writeBuf (set_lastElem None b) k = Ret ((nB, eB), b1, k1)).
  { unfold writeBuf. simpl. rewrite HB. simpl. rewrite Hw.
    unfold Size in *. rewrite (wrap_small nB) by lia.
    rewrite decide_False by lia. by rewrite wrap_small by lia. }
  unfold WriteTo. rewrite Hflush. simpl.
  split; [|split].
  - intros [e ->]. done.
  - intros s wt m e s' k2 -> Hrd Hwt Hcall. rewrite Hrd. simpl.
    rewrite Hwt, Hcall. done.
  - intros rf m e s' k2 -> Hno Hrf Hcall. rewrite Hno, Hrf, Hcall. done.
Qed.

Lemma WriteTo_fast_paths_witness :
  (is_Some (@None error) →
   WriteTo (WriteToInterface0:=chunks_WriteTo)
           (ReadFromInterface0:=no_ReadFrom) 0 read_one [9]
     = Ret ((2, None), set_r (r read_one + 2) (set_lastElem None read_one),
            [9; 2; 3]))
  ∧ (∀ s wt m e s' k2,
       @None error = None → rd read_one = Some s →
       rd_asWriteTo (T:=Z) (WriteToInterface:=chunks_WriteTo) s = Some wt →
       wt [9; 2; 3] = ((m, e), s', k2) →
       WriteTo (WriteToInterface0:=chunks_WriteTo)
               (ReadFromInterface0:=no_ReadFrom) 0 read_one [9]
         = Ret ((wrap (2 + m), e),
                mkReader (buf read_one) (Some s') (r read_one + 2)
                         (w read_one) (err read_one) None, k2))
  ∧ (∀ rf m e s' k2,
       @None error = None →
       rd read_one ≫= rd_asWriteTo (T:=Z) (WriteToInterface:=chunks_WriteTo) = None →
       w_asReadFrom (T:=Z) (ReadFromInterface:=no_ReadFrom) [9; 2; 3] = Some rf →
       rf (rd read_one) = ((m, e), s', k2) →
       WriteTo (WriteToInterface0:=chunks_WriteTo)
               (ReadFromInterface0:=no_ReadFrom) 0 read_one [9]
         = Ret ((wrap (2 + m), e),
                mkReader (buf read_one) s' (r read_one + 2) (w read_one)
                         (err read_one) None, k2)).
Proof.
  refine (WriteTo_fast_paths (WriteToInterface0:=chunks_WriteTo)
            (ReadFromInterface0:=no_ReadFrom) 0 read_one [9] [9; 2; 3]
            [2; 3] 2 None _ _ _ _).
  - unfold wf, inv. repeat split; by vm_compute.
  - reflexivity.
  - reflexivity.
  - split; by vm_compute.
Defined.


(** ** Large reads *)

(** X14: With nothing buffered and no error pending, a [Read] into a slice
    that is at least as long as the buffer goes to the source directly: the
    source is given the slice of the caller, what [Read] returns is what
    the source returns, count and error, and the buffer and the cursors of
    the reader are not touched. *)
Theorem Read_bypasses_buffer {T Src : Type} `{!ReadInterface T Src}
    (p : addr) (b : Reader T Src) (m : mem T) (s : Src) :
  wf b → r b = w b → err b = None → rd b = Some s →
  0 < len (load m p) ≤ max_int → Size b ≤ len (load m p) →
  0 ≤ rr_n (rd_Read s (load m p)).1 ≤ len (load m p) →
  ∃ b',
    Read p b m
      = Ret ((rr_n (rd_Read s (load m p)).1,
              rr_err (rd_Read s (load m p)).1), b',
             <[p := overlay (rr_data (rd_Read s (load m p)).1) (load m p)]> m)
    ∧ rd b' = Some (rd_Read s (load m p)).2
    ∧ buf b' = buf b ∧ r b' = r b ∧ w b' = w b ∧ err b' = None.
Proof.
  intros Hwf Hrw He Hrd Hlen Hbig Hn. pose proof Hwf as [(? & ? & ?) ?].
  pose proof max_int_pos. pose proof min_int_neg.
  unfold Read, Size in *. rewrite decide_False by lia.
  rewrite decide_True by done. rewrite He.
  rewrite decide_True by lia. rewrite Hrd. unfold callRead.
  destruct (rd_Read s (load m p)) as [res s'] eqn:E. simpl in *.
  rewrite (wrap_small (rr_n res)) by lia.
  rewrite (decide_False (P := rr_n res < 0)) by lia.
  destruct (decide (rr_n res > 0)).
  - rewrite (wrap_small (rr_n res - 1)) by lia.
    unfold index. rewrite decide_True by lia.
    destruct (lookup_lt_is_Some_2 (overlay (rr_data res) (load m p))
                (Z.to_nat (rr_n res - 1))) as [x Hx].
    { rewrite length_overlay. unfold len in *. lia. }
    rewrite Hx. simpl. eexists. split; [done|]. by split_and!.
  - simpl. eexists. split; [done|]. by split_and!.
Qed.

Lemma Read_bypasses_buffer_witness :
  ∃ b',
    Read 0%nat chunk_reader [replicate 16 0]
      = Ret ((rr_n (rd_Read chunk_source (load [replicate 16 0] 0%nat)).1,
              rr_err (rd_Read chunk_source (load [replicate 16 0] 0%nat)).1),
             b',
             <[0%nat := overlay
                 (rr_data (rd_Read chunk_source
                                   (load [replicate 16 0] 0%nat)).1)
                 (load [replicate 16 0] 0%nat)]> [replicate 16 0])
    ∧ rd b' = Some (rd_Read chunk_source (load [replicate 16 0] 0%nat)).2
    ∧ buf b' = buf chunk_reader ∧ r b' = r chunk_reader
    ∧ w b' = w chunk_reader ∧ err b' = None.
Proof.
  refine (Read_bypasses_buffer 0%nat chunk_reader [replicate 16 0]
            chunk_source _ _ _ _ _ _ _).
  - unfold wf, inv. repeat split; by vm_compute.
  - reflexivity.
  - reflexivity.
  - reflexivity.
  - split; by vm_compute.
  - by vm_compute.
  - split; by vm_compute.
Defined.


(** ** Faults *)

Section Faults.
Context {T Src : Type} `{!ReadInterface T Src}.
Implicit Types (b : Reader T Src).

Lemma fill_full b : wf b → w b - r b = Size b → fill b = Panic FillFullBuffer.
Proof.
  intros Hwf Hfull. destruct (slide_total b Hwf) as [b1 Hb1].
  pose proof (slide_Ret _ _ Hb1 Hwf) as (_ & Hw & Hlen & _).
  unfold fill, Size in *. rewrite Hb1. simpl. by rewrite decide_True by lia.
Qed.

Lemma fill_negative b s :
  wf b → rd b = Some s → w b - r b < Size b →
  (∀ q : list T, min_int ≤ rr_n (rd_Read s q).1 < 0) →
  fill b = Panic errNegativeRead.
Proof.
  intros Hwf Hrd Hroom Hneg. destruct (slide_total b Hwf) as [b1 Hb1].
  pose proof (slide_Ret _ _ Hb1 Hwf) as (Hr & Hw & Hlen & Hrd1 & _).
  pose proof Hwf as [(? & ? & ?) ?].
  pose proof max_int_pos. pose proof min_int_neg.
  unfold fill, Size in *. rewrite Hb1. simpl. rewrite decide_False by lia.
  unfold maxConsecutiveEmptyReads. rewrite fill_loop_eq.
  rewrite slice_to_end by lia. simpl. rewrite Hrd1, Hrd. unfold callRead.
  pose proof (Hneg (drop (Z.to_nat (w b1)) (buf b1))) as Hn.
  destruct (rd_Read s _) as [res s'] eqn:E. simpl in *.
  rewrite wrap_small by lia. by rewrite decide_True by lia.
Qed.

End Faults.

(** X15: What breaks the contract is a panic, not an error.  A source that
    returns a negative count makes [fill], and with it a [Read] or a
    [ReadElem] that has nothing buffered, panic with [errNegativeRead];
    [fill] on a full buffer panics; and a sink that returns a negative count
    makes [WriteTo] panic with [errNegativeWrite]. *)
Theorem contract_violations_panic {T Src Snk : Type}
    `{!ReadInterface T Src} `{!WriteInterface T Snk}
    `{!WriteToInterface T Src Snk} `{!ReadFromInterface T Src Snk}
    (zero : T) (fuel : nat) (p : addr) (b : Reader T Src) (m : mem T)
    (k : Snk) (s : Src) :
  wf b → rd b = Some s →
  ((∀ q : list T, min_int ≤ rr_n (rd_Read s q).1 < 0) →
   (w b - r b < Size b → fill b = Panic errNegativeRead)
   ∧ (r b = w b → err b = None → 0 < Size b →
      (load m p ≠ [] → Read p b m = Panic errNegativeRead)
      ∧ ReadElem zero (S fuel) b = Panic errNegativeRead))
  ∧ (w b - r b = Size b → fill b = Panic FillFullBuffer)
  ∧ (∀ B n e k',
       slice (buf b) (r b) (w b) = Some B → w_Write k B = ((n, e), k') →
       min_int ≤ n < 0 → WriteTo fuel b k = Panic errNegativeWrite).
Proof.
  intros Hwf Hrd. pose proof Hwf as [(? & ? & ?) ?].
  pose proof max_int_pos. pose proof min_int_neg.
  split; [|split].
  - intros Hneg. split; [intros ?; by apply (fill_negative b s)|].
    intros Hrw He Hsz. split.
    + intros Hpc. unfold Read.
      assert (len (load m p) ≠ 0).
      { destruct (load m p); [done|]. unfold len. simpl. lia. }
      rewrite decide_False by done. rewrite decide_True by done.
      rewrite He, Hrd. unfold callRead.
      destruct (decide _).
      * pose proof (Hneg (load m p)) as Hn.
        destruct (rd_Read s (load m p)) as [res s'] eqn:E. simpl in *.
        rewrite wrap_small by lia. by rewrite decide_True by lia.
      * pose proof (Hneg (buf b)) as Hn.
        destruct (rd_Read s (buf b)) as [res s'] eqn:E. simpl in *.
        rewrite wrap_small by lia. by rewrite decide_True by lia.
    + simpl. rewrite decide_True by done. rewrite He.
      rewrite (fill_negative b s) by (done || lia). done.
  - by apply fill_full.
  - intros B n e k' HB Hw Hn. unfold WriteTo, writeBuf. simpl.
    rewrite HB. simpl. rewrite Hw. rewrite wrap_small by lia.
    by rewrite decide_True by lia.
Qed.

Lemma contract_violations_panic_witness :
  ((∀ q : list Z, min_int ≤ rr_n (rd_Read negative_source q).1 < 0) →
   (w negative_reader - r negative_reader < Size negative_reader →
    fill negative_reader = Panic errNegativeRead)
   ∧ (r negative_reader = w negative_reader →
      err negative_reader = None → 0 < Size negative_reader →
      (load [[0; 0]] 0%nat ≠ [] →
       Read 0%nat negative_reader [[0; 0]] = Panic errNegativeRead)
      ∧ ReadElem 0 1 negative_reader = Panic errNegativeRead))
  ∧ (w negative_reader - r negative_reader = Size negative_reader →
     fill negative_reader = Panic FillFullBuffer)
  ∧ (∀ B n e k',
       slice (buf negative_reader) (r negative_reader) (w negative_reader)
       = Some B →
       w_Write (@nil Z) B = ((n, e), k') → min_int ≤ n < 0 →
       WriteTo (WriteToInterface0:=no_WriteTo)
               (ReadFromInterface0:=no_ReadFrom) 0 negative_reader []
       = Panic errNegativeWrite).
Proof.
  refine (contract_violations_panic (WriteToInterface0:=no_WriteTo)
            (ReadFromInterface0:=no_ReadFrom) (Snk:=list Z) 0 0%nat 0%nat
            negative_reader [[0; 0]] [] negative_source _ _).
  - unfold wf, inv. repeat split; by vm_compute.
  - reflexivity.
Defined.
